(** * VEX route planner: path geometry and waypoint store

    A shallow embedding of the route editor of [src/App.tsx] (the extended
    variant, with direction and import/export) and of its simpler sibling
    (the variant without them), followed by the properties of the
    coordinate transform, heading resolver, path sampler, proximity
    projector, code emitter and waypoint mutations.

    Numbers.  A JavaScript number is modelled as an extended real: a real
    number, one of the two infinities, or NaN.  Finite arithmetic is exact
    (no rounding); the special values follow IEEE 754 as ECMAScript
    prescribes, so a division of zero by zero is NaN and every comparison
    with NaN is false.  Signed zeros are not distinguished.  The one
    property that speaks of bit patterns (the mirror applied twice) is
    also examined on binary64 floats, in [Module Binary64]. *)

From Stdlib Require Import Reals Lra Lia ZArith List Bool.
From Stdlib Require Floats.
Import ListNotations.

(** ** JavaScript numbers *)

Inductive num : Type :=
| Fin (r : R)
| PInf
| NInf
| NaN.

Declare Scope num_scope.
Delimit Scope num_scope with J.
Bind Scope num_scope with num.

Definition Rltb (a b : R) : bool := if Rlt_dec a b then true else false.
Definition Rleb (a b : R) : bool := if Rle_dec a b then true else false.
Definition Reqb (a b : R) : bool := if Req_dec_T a b then true else false.

Definition isFinite (a : num) : bool :=
  match a with Fin _ => true | _ => false end.

Definition isNaN (a : num) : bool :=
  match a with NaN => true | _ => false end.

(** Unary minus. *)
Definition nneg (a : num) : num :=
  match a with
  | Fin r => Fin (- r)
  | PInf => NInf
  | NInf => PInf
  | NaN => NaN
  end.

(** [a + b]. *)
Definition nadd (a b : num) : num :=
  match a, b with
  | Fin r, Fin s => Fin (r + s)
  | NaN, _ | _, NaN => NaN
  | PInf, NInf | NInf, PInf => NaN
  | PInf, _ | _, PInf => PInf
  | NInf, _ | _, NInf => NInf
  end.

(** [a - b]. *)
Definition nsub (a b : num) : num := nadd a (nneg b).

(** The sign of an infinite product or quotient: [inf_signed pos] is the
    infinity of that sign. *)
Definition inf_signed (pos : bool) : num := if pos then PInf else NInf.

(** [a * b]; an infinity times zero is NaN. *)
Definition nmul (a b : num) : num :=
  match a, b with
  | Fin r, Fin s => Fin (r * s)
  | NaN, _ | _, NaN => NaN
  | PInf, Fin s | Fin s, PInf =>
      if Reqb s 0 then NaN else inf_signed (Rltb 0 s)
  | NInf, Fin s | Fin s, NInf =>
      if Reqb s 0 then NaN else inf_signed (Rltb s 0)
  | PInf, PInf | NInf, NInf => PInf
  | PInf, NInf | NInf, PInf => NInf
  end.

(** [a / b]; zero by zero and infinity by infinity are NaN, a non-zero
    finite number by zero is an infinity. *)
Definition ndiv (a b : num) : num :=
  match a, b with
  | Fin r, Fin s =>
      if Reqb s 0
      then (if Reqb r 0 then NaN else inf_signed (Rltb 0 r))
      else Fin (r / s)
  | NaN, _ | _, NaN => NaN
  | Fin _, (PInf | NInf) => Fin 0
  | PInf, Fin s => inf_signed (Rleb 0 s)
  | NInf, Fin s => inf_signed (Rltb s 0)
  | (PInf | NInf), (PInf | NInf) => NaN
  end.

(** [a < b], [a <= b], [a >= b], [a > b] and [a === b]. *)
Definition nltb (a b : num) : bool :=
  match a, b with
  | Fin r, Fin s => Rltb r s
  | NaN, _ | _, NaN => false
  | _, NInf => false
  | PInf, _ => false
  | NInf, _ => true
  | Fin _, PInf => true
  end.

Definition nleb (a b : num) : bool :=
  match a, b with
  | Fin r, Fin s => Rleb r s
  | NaN, _ | _, NaN => false
  | NInf, _ => true
  | _, PInf => true
  | PInf, _ => false
  | Fin _, NInf => false
  end.

Definition ngeb (a b : num) : bool := nleb b a.
Definition ngtb (a b : num) : bool := nltb b a.

Definition neqb (a b : num) : bool :=
  match a, b with
  | Fin r, Fin s => Reqb r s
  | PInf, PInf | NInf, NInf => true
  | _, _ => false
  end.

Arguments Rltb : simpl never.
Arguments Rleb : simpl never.
Arguments Reqb : simpl never.
Arguments ndiv : simpl never.

Notation "a + b" := (nadd a b) : num_scope.
Notation "a - b" := (nsub a b) : num_scope.
Notation "a * b" := (nmul a b) : num_scope.
Notation "a / b" := (ndiv a b) : num_scope.
Notation "- a" := (nneg a) : num_scope.
Notation "a <? b" := (nltb a b) (at level 70) : num_scope.
Notation "a <=? b" := (nleb a b) (at level 70) : num_scope.
Notation "a >=? b" := (ngeb a b) (at level 70) : num_scope.
Notation "a >? b" := (ngtb a b) (at level 70) : num_scope.
Notation "a === b" := (neqb a b) (at level 70) : num_scope.

(** ** The [Math] object

    Modelled from ECMAScript's definitions of the built-ins the editor
    calls (they are not code of this repository). *)
Module Math.

Definition PI : num := Fin Rtrigo1.PI.

(** [Math.sqrt]. *)
Definition sqrt (a : num) : num :=
  match a with
  | Fin r => if Rltb r 0 then NaN else Fin (R_sqrt.sqrt r)
  | PInf => PInf
  | NInf | NaN => NaN
  end.

Arguments sqrt : simpl never.

(** [Math.hypot] of two arguments: an infinite argument wins over NaN. *)
Definition hypot (a b : num) : num :=
  match a, b with
  | Fin r, Fin s => Fin (R_sqrt.sqrt (r * r + s * s))
  | (PInf | NInf), _ | _, (PInf | NInf) => PInf
  | _, _ => NaN
  end.

(** [Math.min] and [Math.max] of two arguments: NaN if either is. *)
Definition min (a b : num) : num :=
  match a, b with
  | NaN, _ | _, NaN => NaN
  | _, _ => if nleb a b then a else b
  end.

Definition max (a b : num) : num :=
  match a, b with
  | NaN, _ | _, NaN => NaN
  | _, _ => if nleb a b then b else a
  end.

(** [Math.round]: the nearest integer, halves towards plus infinity. *)
Definition round (a : num) : num :=
  match a with
  | Fin r => Fin (IZR (Int_part (r + / 2)))
  | _ => a
  end.

(** [atan2] on finite arguments, the first the ordinate. *)
Definition Ratan2 (y x : R) : R :=
  if Rltb 0 x then atan (y / x)
  else if Rltb x 0 then
    (if Rltb y 0 then atan (y / x) - Rtrigo1.PI else atan (y / x) + Rtrigo1.PI)
  else if Rltb 0 y then Rtrigo1.PI / 2
  else if Rltb y 0 then - (Rtrigo1.PI / 2)
  else 0.

(** [Math.atan2 (y, x)]. *)
Definition atan2 (y x : num) : num :=
  match y, x with
  | NaN, _ | _, NaN => NaN
  | Fin r, Fin s => Fin (Ratan2 r s)
  | Fin _, PInf => Fin 0
  | Fin r, NInf => Fin (if Rltb r 0 then - Rtrigo1.PI else Rtrigo1.PI)
  | PInf, Fin _ => Fin (Rtrigo1.PI / 2)
  | NInf, Fin _ => Fin (- (Rtrigo1.PI / 2))
  | PInf, PInf => Fin (Rtrigo1.PI / 4)
  | PInf, NInf => Fin (3 * Rtrigo1.PI / 4)
  | NInf, PInf => Fin (- (Rtrigo1.PI / 4))
  | NInf, NInf => Fin (- (3 * Rtrigo1.PI / 4))
  end.

End Math.

(** ** Outcomes

    A call either returns a value, throws (reading a property of
    [undefined]), or is still looping when its fuel is spent. *)
Inductive result (A : Type) : Type :=
| Ok (a : A)
| TypeError
| OutOfFuel.

Arguments Ok {A} a.
Arguments TypeError {A}.
Arguments OutOfFuel {A}.

Definition bind {A B : Type} (m : result A) (k : A -> result B) : result B :=
  match m with
  | Ok a => k a
  | TypeError => TypeError
  | OutOfFuel => OutOfFuel
  end.

Notation "'do' a <- m ; k" := (bind m (fun a => k))
  (at level 10, a name, m at level 100, k at level 200).

(** ** Data model *)

(** The two variants of the application: [Extended] is [src/App.tsx]
    (direction flag, import and export, one decimal), [Simple] the sibling
    file (no direction, two decimals). *)
Inductive variant : Type := Extended | Simple.

(** ** Binary64 numbers

    The numbers of the program are IEEE 754 double-precision numbers.  The
    model above computes on them exactly; this module holds the same
    computations with binary64 rounding, for the places where the two
    differ: the mirrors, the rounding of field coordinates, the coordinate
    transform, the proximity scan and the sampler's position.  [Math.sqrt]
    is taken as the correctly rounded square root, and [Math.hypot], which
    ECMAScript leaves to the implementation, as the square root of the
    rounded sum of squares. *)
Module Binary64.

Import PrimFloat FloatOps SpecFloat.

Definition mirrorFieldY (fieldY : PrimFloat.float) : PrimFloat.float :=
  PrimFloat.opp fieldY.

Definition mirrorY (height y : PrimFloat.float) : PrimFloat.float :=
  PrimFloat.add (PrimFloat.opp y) height.

(** [centerY - fieldY * pixelsPerInch] for an image [width] pixels wide. *)
Definition fieldToPixelY (width fieldY : PrimFloat.float) : PrimFloat.float :=
  let fieldPixelSize := 1932%float in
  let fieldInchSize := 144%float in
  let wallPadding :=
    PrimFloat.div (PrimFloat.sub width fieldPixelSize) 2%float in
  let centerY := PrimFloat.add wallPadding (PrimFloat.div fieldPixelSize 2%float) in
  let pixelsPerInch := PrimFloat.div fieldPixelSize fieldInchSize in
  PrimFloat.sub centerY (PrimFloat.mul fieldY pixelsPerInch).

(** [Math.round(v * 10) / 10] at a [v] whose tenfold rounds to 243. *)
Definition fieldY_24_3 : PrimFloat.float := PrimFloat.div 243%float 10%float.

(** The width and height of the field images. *)
Definition size2000 : PrimFloat.float := 2000%float.

Local Open Scope float_scope.

(** The binary64 number nearest an integer. *)
Definition ofZ (z : Z) : float :=
  SF2Prim (binary_normalize prec emax z 0 false).

(** The integer [Math.round] returns for a finite number: the nearest one,
    halves towards plus infinity. *)
Definition nearestInteger (v : float) : option Z :=
  match Prim2SF v with
  | S754_zero _ => Some 0%Z
  | S754_finite s m e =>
      let n := cond_Zopp s (Zpos m) in
      Some (if (0 <=? e)%Z then (n * 2 ^ e)%Z
            else ((2 * n + 2 ^ (- e)) / 2 ^ (- e + 1))%Z)
  | _ => None
  end.

(** [Math.round] (up to the sign of a zero result). *)
Definition round (v : float) : float :=
  match nearestInteger v with Some z => ofZ z | None => v end.

(** [Math.min], [Math.max] and [Math.hypot] of two arguments (up to the
    sign of a zero result).  The language leaves the last digit of
    [Math.hypot] to the implementation; it is taken as the rounded root of
    the rounded sum of the rounded squares. *)
Definition min (a b : float) : float :=
  if is_nan a || is_nan b then nan else if a <=? b then a else b.

Definition max (a b : float) : float :=
  if is_nan a || is_nan b then nan else if a <=? b then b else a.

Definition hypot (a b : float) : float := sqrt (a * a + b * b).

(** [Math.round(v * 10) / 10] and [Math.round(v * 100) / 100] *)
Definition precision (V : variant) : float :=
  match V with Extended => 10 | Simple => 100 end.

Definition roundField (V : variant) (v : float) : float :=
  round (v * precision V) / precision V.

(** The coordinate transform with an image of the given size loaded. *)
Definition centerX (V : variant) (width : float) : float :=
  match V with
  | Extended => (width - 1932) / 2 + 1932 / 2
  | Simple => width / 2
  end.

Definition centerY (V : variant) (width height : float) : float :=
  match V with
  | Extended => (width - 1932) / 2 + 1932 / 2
  | Simple => height / 2
  end.

Definition pixelsPerInch (V : variant) (width : float) : float :=
  match V with Extended => 1932 / 144 | Simple => width / 144 end.

Definition pixelToFieldCoords (V : variant) (width height pixelX pixelY : float)
  : float * float :=
  ((pixelX - centerX V width) / pixelsPerInch V width,
   (centerY V width height - pixelY) / pixelsPerInch V width).

Definition fieldToPixelCoords (V : variant) (width height fieldX fieldY : float)
  : float * float :=
  (fieldX * pixelsPerInch V width + centerX V width,
   centerY V width height - fieldY * pixelsPerInch V width).

(** The screen position of a waypoint: [x] and [y]. *)
Definition Position : Type := float * float.

Fixpoint segments (ps : list Position) : list (Position * Position) :=
  match ps with
  | p :: (q :: _) as tl => (p, q) :: segments tl
  | _ => []
  end.

Definition segmentLength (s : Position * Position) : float :=
  let dx := fst (snd s) - fst (fst s) in
  let dy := snd (snd s) - snd (fst s) in
  sqrt (dx * dx + dy * dy).

Definition sumLengths (segs : list (Position * Position)) : float :=
  fold_left (fun d s => d + segmentLength s) segs 0.

(** The variables of the proximity scan, and the index of the segment that
    set them last. *)
Record Closest : Type := {
  closestPoint : option Position;
  closestDistance : float;
  closestProgress : float;
  closestIndex : nat
}.

Definition scanSegment (points : list Position) (mouseX mouseY : float)
  (best : Closest) (i : nat) (s : Position * Position) : Closest :=
  let p1 := fst s in
  let p2 := snd s in
  let dx := fst p2 - fst p1 in
  let dy := snd p2 - snd p1 in
  let lenSq := dx * dx + dy * dy in
  let t := ((mouseX - fst p1) * dx + (mouseY - snd p1) * dy) / lenSq in
  let t := max 0 (min 1 t) in
  let closestX := fst p1 + t * dx in
  let closestY := snd p1 + t * dy in
  let distance := hypot (mouseX - closestX) (mouseY - closestY) in
  if distance <? closestDistance best then
    let pathDistance :=
      sumLengths (firstn i (segments points)) + t * sqrt lenSq in
    let totalDistance := sumLengths (segments points) in
    {| closestPoint := Some (closestX, closestY);
       closestDistance := distance;
       closestProgress :=
         if 0 <? totalDistance then pathDistance / totalDistance else 0;
       closestIndex := i |}
  else best.

Fixpoint scan (points : list Position) (mouseX mouseY : float)
  (segs : list (Position * Position)) (i : nat) (best : Closest) : Closest :=
  match segs with
  | [] => best
  | s :: segs' =>
      scan points mouseX mouseY segs' (S i)
        (scanSegment points mouseX mouseY best i s)
  end.

(** The outcome of the scan, [None] when the function returns [null]. *)
Definition closest (points : list Position) (mouseX mouseY : float)
  : option Closest :=
  if (length points <? 2)%nat then None
  else
    let best :=
      scan points mouseX mouseY (segments points) 0
        {| closestPoint := None; closestDistance := infinity;
           closestProgress := 0; closestIndex := 0 |} in
    if closestDistance best <? 50 then Some best else None.

Definition getClosestPointOnPath (points : list Position) (mouseX mouseY : float)
  : option (option Position * float) :=
  option_map (fun best => (closestPoint best, closestProgress best))
    (closest points mouseX mouseY).

(** The position of the pose [getRobotPositionAndRotation] returns. *)
Fixpoint walk (segs : list (Position * Position))
  (targetDistance currentDistance : float) : option Position :=
  match segs with
  | (this, next) :: segs' =>
      let len := segmentLength (this, next) in
      if targetDistance <=? currentDistance + len then
        let segmentProgress := (targetDistance - currentDistance) / len in
        Some (fst this + (fst next - fst this) * segmentProgress,
              snd this + (snd next - snd this) * segmentProgress)
      else walk segs' targetDistance (currentDistance + len)
  | [] => None
  end.

Definition robotPosition (points : list Position) (progress : float)
  : option Position :=
  if (length points <? 2)%nat then None
  else
    let totalLength := sumLengths (segments points) in
    if totalLength =? 0 then None
    else
      match walk (segments points) (totalLength * progress) 0 with
      | Some position => Some position
      | None => nth_error points (length points - 1)
      end.

(** Sample data: a route in the shape of a V, seen from the point midway
    between its ends; a route of one sloped segment; the field height 1.9;
    a click in the simple variant whose field position is 1.035. *)
Definition vRoute : list Position := [(940, 1016); (1000, 1040); (1060, 1016)].

Definition slope : list Position := [(900, 1000); (1000, 1040)].

Definition fieldY_1_9 : float := 19 / 10.


End Binary64.

(** [Point] of [types.ts].  [forwards] is absent ([None]) on the points the
    simple variant creates. *)
Module Point.
Record t : Type := make {
  x : num;
  y : num;
  fieldX : num;
  fieldY : num;
  id : Z;
  theta : num;
  timeout : num;
  speed : num;
  forwards : option bool
}.

(** [{ ...p, x, y, fieldX, fieldY }] *)
Definition with_coords (p : t) (x' y' fieldX' fieldY' : num) : t :=
  make x' y' fieldX' fieldY' (id p) (theta p) (timeout p) (speed p) (forwards p).

(** [{ ...p, theta }] *)
Definition with_theta (p : t) (theta' : num) : t :=
  make (x p) (y p) (fieldX p) (fieldY p) (id p) theta' (timeout p) (speed p)
    (forwards p).

(** [{ ...p, fieldY, y }] and [{ ...p, fieldX, x }] *)
Definition with_y (p : t) (fieldY' y' : num) : t :=
  make (x p) y' (fieldX p) fieldY' (id p) (theta p) (timeout p) (speed p)
    (forwards p).

Definition with_x (p : t) (fieldX' x' : num) : t :=
  make x' (y p) fieldX' (fieldY p) (id p) (theta p) (timeout p) (speed p)
    (forwards p).
End Point.

Definition Point : Type := Point.t.

(** The loaded background image: only its dimensions matter. *)
Record Image : Type := { width : Z; height : Z }.

Definition num_of_Z (z : Z) : num := Fin (IZR z).

(** *** Identifiers

    Ids and the next-id counter are JavaScript numbers too.  Those of a
    typed store are integers, and are modelled as integers; the one
    operation on them that can round, [nextId + 1], is modelled with its
    binary64 rounding: exact while the sum has at most 53 significant bits,
    otherwise the nearest integer that binary64 holds, ties to the even
    significand. *)
Definition round53 (m : Z) : Z :=
  let a := Z.abs m in
  if (a <=? 2 ^ 53)%Z then m
  else
    let u := (2 ^ (Z.log2 a - 52))%Z in
    let q := (a / u)%Z in
    let r := (a mod u)%Z in
    let q' :=
      if (2 * r <? u)%Z then q
      else if (u <? 2 * r)%Z then (q + 1)%Z
      else if Z.even q then q else (q + 1)%Z in
    (Z.sgn m * (q' * u))%Z.

(** [n + 1] *)
Definition plusOne (n : Z) : Z := round53 (n + 1).

(** The component state the handlers read and write. *)
Record State : Type := {
  points : list Point;
  nextId : Z;
  image : option Image;
  draggingId : option Z;
  hoveredId : option Z;
  selectedId : option Z;
  hoveredPathProgress : option num;
  lastHoveredProgress : num
}.

Definition set_points (st : State) (ps : list Point) : State :=
  {| points := ps; nextId := nextId st; image := image st;
     draggingId := draggingId st; hoveredId := hoveredId st;
     selectedId := selectedId st;
     hoveredPathProgress := hoveredPathProgress st;
     lastHoveredProgress := lastHoveredProgress st |}.

Definition set_selectedId (st : State) (s : option Z) : State :=
  {| points := points st; nextId := nextId st; image := image st;
     draggingId := draggingId st; hoveredId := hoveredId st;
     selectedId := s;
     hoveredPathProgress := hoveredPathProgress st;
     lastHoveredProgress := lastHoveredProgress st |}.

Definition set_nextId (st : State) (n : Z) : State :=
  {| points := points st; nextId := n; image := image st;
     draggingId := draggingId st; hoveredId := hoveredId st;
     selectedId := selectedId st;
     hoveredPathProgress := hoveredPathProgress st;
     lastHoveredProgress := lastHoveredProgress st |}.

Definition set_hover (st : State) (h : option Z) (hp : option num) (lp : num)
  : State :=
  {| points := points st; nextId := nextId st; image := image st;
     draggingId := draggingId st; hoveredId := h;
     selectedId := selectedId st;
     hoveredPathProgress := hp;
     lastHoveredProgress := lp |}.

(** [points\[i\]] and [points\[i + 1\]] for [i] from [0] to
    [points.length - 2]: the pairs the segment loops visit, in order. *)
Fixpoint segments (ps : list Point) : list (Point * Point) :=
  match ps with
  | p :: (q :: _) as tl => (p, q) :: segments tl
  | _ => []
  end.

(** [points\[points.length - 1\]] *)
Definition lastPoint (ps : list Point) : option Point :=
  nth_error ps (length ps - 1).

(** The pose the sampler returns: [{ x, y, rotation }]. *)
Module Pose.
Record t : Type := make { x : num; y : num; rotation : num }.
End Pose.

(** One emitted line.  The template strings are kept as their head and the
    values interpolated into them; the options of the extended variant's
    [turnToPoint] and [moveToPoint] are absent in the simple one. *)
Inductive CodeText : Type :=
| setPose (x y theta : num)
| newline
| turnToPoint (x y : num) (opts : option (option bool * num))
| moveToPoint (x y : num) (opts : option (num * option bool * num)).

(** [{ line, pointIndex }] with [pointIndex : number | null]. *)
Record CodeLine : Type := { line : CodeText; pointIndex : option Z }.

Section Editor.

Variable V : variant.

Local Open Scope num_scope.

(** The factor of [Math.round(v * 10) / 10] (one decimal) or
    [Math.round(v * 100) / 100] (two decimals). *)
Definition precision : num :=
  match V with Extended => Fin 10 | Simple => Fin 100 end.

(** The rounding read over exact numbers: [Math.round] sees the exact
    product.  The code rounds the binary64 product, which can fall on the
    other side of a tie; [Binary64.roundField] is the rounding with every
    operation rounded as the code's is. *)
Definition roundField (v : num) : num :=
  Math.round (v * precision) / precision.

Definition POINT_RADIUS : num :=
  match V with Extended => Fin 30 | Simple => Fin 40 end.

(** *** Coordinate transform *)

Definition centerX (img : Image) : num :=
  match V with
  | Extended =>
      let fieldPixelSize := Fin 1932 in
      let wallPadding := (num_of_Z (width img) - fieldPixelSize) / Fin 2 in
      wallPadding + fieldPixelSize / Fin 2
  | Simple => num_of_Z (width img) / Fin 2
  end.

Definition centerY (img : Image) : num :=
  match V with
  | Extended =>
      let fieldPixelSize := Fin 1932 in
      let wallPadding := (num_of_Z (width img) - fieldPixelSize) / Fin 2 in
      wallPadding + fieldPixelSize / Fin 2
  | Simple => num_of_Z (height img) / Fin 2
  end.

Definition pixelsPerInch (img : Image) : num :=
  match V with
  | Extended =>
      let fieldPixelSize := Fin 1932 in
      let fieldInchSize := Fin 144 in
      fieldPixelSize / fieldInchSize
  | Simple => num_of_Z (width img) / Fin 144
  end.

(** Returns [{ fieldX, fieldY }] as a pair. *)
Definition pixelToFieldCoords (image : option Image) (pixelX pixelY : num)
  : num * num :=
  match image with
  | None => (Fin 0, Fin 0)
  | Some img =>
      let fieldX := (pixelX - centerX img) / pixelsPerInch img in
      let fieldY := (centerY img - pixelY) / pixelsPerInch img in
      (fieldX, fieldY)
  end.

(** Returns [{ x, y }] as a pair. *)
Definition fieldToPixelCoords (image : option Image) (fieldX fieldY : num)
  : num * num :=
  match image with
  | None => (Fin 0, Fin 0)
  | Some img =>
      let x := fieldX * pixelsPerInch img + centerX img in
      let y := centerY img - fieldY * pixelsPerInch img in
      (x, y)
  end.

(** *** Heading resolver *)

(** [while (degrees < 0) degrees += 360] *)
Fixpoint while_negative (fuel : nat) (degrees : num) : result num :=
  match fuel with
  | O => OutOfFuel
  | S fuel' =>
      if degrees <? Fin 0
      then while_negative fuel' (degrees + Fin 360)
      else Ok degrees
  end.

(** [while (degrees >= 360) degrees -= 360] *)
Fixpoint while_over (fuel : nat) (degrees : num) : result num :=
  match fuel with
  | O => OutOfFuel
  | S fuel' =>
      if degrees >=? Fin 360
      then while_over fuel' (degrees - Fin 360)
      else Ok degrees
  end.

Definition getEffectiveTheta (fuel : nat) (points : list Point) (index : nat)
  : result num :=
  if (Z.of_nat index <? Z.of_nat (length points) - 1)%Z then
    match nth_error points (index + 1), nth_error points index with
    | Some next, Some this =>
        let dx := Point.x next - Point.x this in
        let dy := Point.y next - Point.y this in
        let radians := Math.atan2 dy dx in
        let degrees := ((radians + Math.PI / Fin 2) * Fin 180) / Math.PI in
        do degrees <- while_negative fuel degrees;
        do degrees <- while_over fuel degrees;
        Ok degrees
    | _, _ => TypeError
    end
  else
    match nth_error points index with
    | Some this => Ok (Point.theta this)
    | None => TypeError
    end.

(** *** Code emitter *)

(** The body of [points.forEach((point, index) => ...)], pushing onto
    [lines]. *)
Definition emitPoint (fuel : nat) (points : list Point) (lines : list CodeLine)
  (point : Point) (index : nat) : result (list CodeLine) :=
  let x := roundField (Point.fieldX point) in
  let y := roundField (Point.fieldY point) in
  if (index =? 0)%nat then
    do t <- getEffectiveTheta fuel points 0;
    let theta := roundField t in
    Ok (lines ++ [ {| line := setPose x y theta;
                      pointIndex := Some (Z.of_nat index) |} ])
  else
    let turn :=
      match V with
      | Extended => Some (Point.forwards point, Point.speed point)
      | Simple => None
      end in
    let move :=
      match V with
      | Extended =>
          Some (Point.timeout point, Point.forwards point, Point.speed point)
      | Simple => None
      end in
    Ok (lines
          ++ [ {| line := newline; pointIndex := Some (-1)%Z |} ]
          ++ [ {| line := turnToPoint x y turn;
                  pointIndex := Some (Z.of_nat index) |} ]
          ++ [ {| line := moveToPoint x y move;
                  pointIndex := Some (Z.of_nat index) |} ]).

Fixpoint forEachPoint (fuel : nat) (points : list Point) (rest : list Point)
  (index : nat) (lines : list CodeLine) : result (list CodeLine) :=
  match rest with
  | [] => Ok lines
  | point :: rest' =>
      do lines' <- emitPoint fuel points lines point index;
      forEachPoint fuel points rest' (S index) lines'
  end.

Definition generatedCodeLines (fuel : nat) (points : list Point)
  : result (list CodeLine) :=
  if (length points =? 0)%nat then Ok []
  else forEachPoint fuel points points 0 [].

(** The click handler of a code line: it selects the line's waypoint
    unless [pointIndex] is [null]. *)
Definition codeLineOnClick (item : CodeLine) (st : State) : result State :=
  match pointIndex item with
  | None => Ok st
  | Some i =>
      match (if (i <? 0)%Z then None else nth_error (points st) (Z.to_nat i)) with
      | Some p => Ok (set_selectedId st (Some (Point.id p)))
      | None => TypeError
      end
  end.

End Editor.

(** ** Path sampler *)

Section Sampler.

Local Open Scope num_scope.

(** [Math.sqrt(dx * dx + dy * dy)] between two consecutive points. *)
Definition segmentLength (s : Point * Point) : num :=
  let dx := Point.x (snd s) - Point.x (fst s) in
  let dy := Point.y (snd s) - Point.y (fst s) in
  Math.sqrt (dx * dx + dy * dy).

(** The first loop of the sampler: the array [segmentLengths], and
    [totalLength] accumulated in the same order. *)
Definition segmentLengths (points : list Point) : list num :=
  map segmentLength (segments points).

Definition totalLength (points : list Point) : num :=
  fold_left (fun total s => total + segmentLength s) (segments points) (Fin 0).

(** The second loop, over the segments still to visit and their lengths;
    [None] when the loop ends without returning. *)
Fixpoint walk (segs : list (Point * Point)) (lengths : list num)
  (targetDistance currentDistance : num) : option Pose.t :=
  match segs, lengths with
  | (this, next) :: segs', len :: lengths' =>
      if currentDistance + len >=? targetDistance then
        let segmentProgress := (targetDistance - currentDistance) / len in
        let x := Point.x this + (Point.x next - Point.x this) * segmentProgress in
        let y := Point.y this + (Point.y next - Point.y this) * segmentProgress in
        let dx := Point.x next - Point.x this in
        let dy := Point.y next - Point.y this in
        let rotation := Math.atan2 dy dx in
        Some (Pose.make x y rotation)
      else walk segs' lengths' targetDistance (currentDistance + len)
  | _, _ => None
  end.

(** [None] is the source's [null]. *)
Definition getRobotPositionAndRotation (points : list Point) (progress : num)
  : option Pose.t :=
  if (length points <? 2)%nat then None
  else if totalLength points === Fin 0 then None
  else
    let targetDistance := totalLength points * progress in
    match walk (segments points) (segmentLengths points) targetDistance (Fin 0) with
    | Some pose => Some pose
    | None =>
        match lastPoint points with
        | Some final =>
            let thetaDeg := Point.theta final in
            let rotation := (thetaDeg - Fin 90) * (Math.PI / Fin 180) in
            Some (Pose.make (Point.x final) (Point.y final) rotation)
        | None => None
        end
    end.

End Sampler.

(** ** Proximity projector *)

Section Projector.

Local Open Scope num_scope.

(** The three variables the scan updates. *)
Record Closest : Type := {
  closestPoint : option (num * num);
  closestDistance : num;
  closestProgress : num
}.

(** [pathDistance] and [totalDistance]: sums of segment lengths, each
    recomputed from the points. *)
Definition sumLengths (segs : list (Point * Point)) : num :=
  fold_left (fun d s => d + segmentLength s) segs (Fin 0).

(** The body of the scan for segment [i], read over exact numbers: the
    distances it compares are the exact ones.  The distances the code
    compares are rounded, so that equal distances can compare as different;
    [Binary64.scanSegment] is the body with every operation rounded as the
    code's is. *)
Definition scanSegment (points : list Point) (mouseX mouseY : num)
  (best : Closest) (i : nat) (s : Point * Point) : Closest :=
  let p1 := fst s in
  let p2 := snd s in
  let dx := Point.x p2 - Point.x p1 in
  let dy := Point.y p2 - Point.y p1 in
  let lenSq := dx * dx + dy * dy in
  let t := ((mouseX - Point.x p1) * dx + (mouseY - Point.y p1) * dy) / lenSq in
  let t := Math.max (Fin 0) (Math.min (Fin 1) t) in
  let closestX := Point.x p1 + t * dx in
  let closestY := Point.y p1 + t * dy in
  let distance := Math.hypot (mouseX - closestX) (mouseY - closestY) in
  if distance <? closestDistance best then
    let pathDistance :=
      sumLengths (firstn i (segments points)) + t * Math.sqrt lenSq in
    let totalDistance := sumLengths (segments points) in
    {| closestPoint := Some (closestX, closestY);
       closestDistance := distance;
       closestProgress :=
         if totalDistance >? Fin 0 then pathDistance / totalDistance else Fin 0 |}
  else best.

Fixpoint scan (points : list Point) (mouseX mouseY : num)
  (segs : list (Point * Point)) (i : nat) (best : Closest) : Closest :=
  match segs with
  | [] => best
  | s :: segs' =>
      scan points mouseX mouseY segs' (S i)
        (scanSegment points mouseX mouseY best i s)
  end.

(** Returns [{ point, progress }], or [None] for [null]. *)
Definition getClosestPointOnPath (points : list Point) (mouseX mouseY : num)
  : option (option (num * num) * num) :=
  if (length points <? 2)%nat then None
  else
    let best :=
      scan points mouseX mouseY (segments points) 0
        {| closestPoint := None; closestDistance := PInf;
           closestProgress := Fin 0 |} in
    if closestDistance best <? Fin 50
    then Some (closestPoint best, closestProgress best)
    else None.

End Projector.

(** ** Waypoint mutations *)

(** An element of an imported array.  The handler casts the array to
    [Point\[\]] unchecked, so an element can be any JSON value:
    - [ENull], the value [null], of which reading [.id] throws;
    - [ERecord p], an object with the fields of a waypoint, each of its
      type, and as id an integer (one that binary64 holds, as every number
      [JSON.parse] yields is);
    - [EOther id], any other value (an object that lacks a field or holds
      one of another type, an id that is no integer, a number, a string, a
      boolean, an array); [id] is the number [Math.max] makes of its [id]
      property, NaN where there is none. *)
Inductive element : Type :=
| ENull
| ERecord (p : Point)
| EOther (id : PrimFloat.float).

(** The parsed root of an imported file; what a root that is no array
    holds is never read. *)
Inductive json : Type :=
| JNull
| JBool (b : bool)
| JNumber (n : num)
| JString
| JObject
| JArray (elems : list element).


Section Handlers.

Variable V : variant.

Local Open Scope num_scope.

(** [p => Math.hypot(p.x - x, p.y - y) < POINT_RADIUS] *)
Definition underPointer (x y : num) (p : Point) : bool :=
  Math.hypot (Point.x p - x) (Point.y p - y) <? POINT_RADIUS V.

(** [handleCanvasClick], on the canvas coordinates of the event. *)
Definition handleCanvasClick (st : State) (x y : num) : State :=
  match find (underPointer x y) (points st) with
  | Some clickedPoint => set_selectedId st (Some (Point.id clickedPoint))
  | None =>
      let '(fieldX, fieldY) := pixelToFieldCoords V (image st) x y in
      let fieldXR := roundField V fieldX in
      let fieldYR := roundField V fieldY in
      let '(px, py) := fieldToPixelCoords V (image st) fieldXR fieldYR in
      let newPoint :=
        Point.make px py fieldXR fieldYR (nextId st) (Fin 0) (Fin 1000) (Fin 70)
          (match V with Extended => Some true | Simple => None end) in
      set_selectedId
        (set_nextId (set_points st (points st ++ [newPoint])) (plusOne (nextId st)))
        (Some (nextId st))
  end.

(** [handleMouseDown], on the canvas coordinates of the event. *)
Definition handleMouseDown (st : State) (x y : num) : State :=
  match find (underPointer x y) (points st) with
  | Some clickedPoint =>
      {| points := points st; nextId := nextId st; image := image st;
         draggingId := Some (Point.id clickedPoint); hoveredId := hoveredId st;
         selectedId := selectedId st;
         hoveredPathProgress := hoveredPathProgress st;
         lastHoveredProgress := lastHoveredProgress st |}
  | None => st
  end.

(** [handleMouseMove], on the canvas coordinates of the event. *)
Definition handleMouseMove (st : State) (x y : num) : State :=
  let hoveredPoint := find (underPointer x y) (points st) in
  let pathHover := getClosestPointOnPath (points st) x y in
  let st :=
    set_hover st (option_map Point.id hoveredPoint) (option_map snd pathHover)
      (match pathHover with
       | Some (_, progress) => progress
       | None => lastHoveredProgress st
       end) in
  match draggingId st with
  | None => st
  | Some dragging =>
      let '(fieldX, fieldY) := pixelToFieldCoords V (image st) x y in
      let fieldXRounded := roundField V fieldX in
      let fieldYRounded := roundField V fieldY in
      set_points st
        (map (fun p =>
                if (Point.id p =? dragging)%Z
                then Point.with_coords p x y fieldXRounded fieldYRounded
                else p)
             (points st))
  end.

(** [updateSelectedPointFieldCoords] *)
Definition updateSelectedPointFieldCoords (st : State) (fieldX fieldY : num)
  : State :=
  match selectedId st with
  | None => st
  | Some selected =>
      let '(x, y) := fieldToPixelCoords V (image st) fieldX fieldY in
      set_points st
        (map (fun p =>
                if (Point.id p =? selected)%Z
                then Point.with_coords p x y fieldX fieldY
                else p)
             (points st))
  end.

End Handlers.

Section Mirror.

Local Open Scope num_scope.

(** [image ? image.height : 0] and [image ? image.width : 0] *)
Definition imageHeight (image : option Image) : num :=
  match image with Some img => num_of_Z (height img) | None => Fin 0 end.

Definition imageWidth (image : option Image) : num :=
  match image with Some img => num_of_Z (width img) | None => Fin 0 end.

(** The body of the Flip X handler's [map]. *)
Definition flipPointX (image : option Image) (p : Point) : Point :=
  Point.with_y p (- Point.fieldY p) (- Point.y p + imageHeight image).

(** The body of the Flip Y handler's [map]. *)
Definition flipPointY (image : option Image) (p : Point) : Point :=
  Point.with_x p (- Point.fieldX p) (- Point.x p + imageWidth image).

Definition flipX (st : State) : State :=
  set_points st (map (flipPointX (image st)) (points st)).

Definition flipY (st : State) : State :=
  set_points st (map (flipPointY (image st)) (points st)).

End Mirror.

Section HeadingEditor.

Local Open Scope num_scope.

(** [handleInputChange] of [NumberInput], on the number [parseFloat]
    read: the value handed to [onChange], if it is called. *)
Definition handleInputChange (min : num) (max : option num)
  (disableButtons : bool) (parsed : num) : option num :=
  if disableButtons then None
  else if isNaN parsed then None
  else
    let finalValue := parsed in
    let finalValue := if finalValue <? min then min else finalValue in
    let finalValue :=
      match max with
      | Some m => if finalValue >? m then m else finalValue
      | None => finalValue
      end in
    Some finalValue.

(** The [onChange] of the heading input: only the last point's stored
    heading is written. *)
Definition thetaOnChange (st : State) (v : num) : result State :=
  match selectedId st with
  | None => Ok st
  | Some selected =>
      match lastPoint (points st) with
      | None => TypeError
      | Some final =>
          if (selected =? Point.id final)%Z then
            Ok (set_points st
                  (map (fun p =>
                          if (Point.id p =? selected)%Z
                          then Point.with_theta p v else p)
                       (points st)))
          else Ok st
      end
  end.

(** Typing into the heading input ([min = 0], [max = 360]); the input is
    read-only when a point other than the last one is selected. *)
Definition editTheta (st : State) (parsed : num) : result State :=
  do disableButtons <-
    match selectedId st with
    | None => Ok false
    | Some selected =>
        match lastPoint (points st) with
        | None => TypeError
        | Some final => Ok (negb (selected =? Point.id final)%Z)
        end
    end;
  match handleInputChange (Fin 0) (Some (Fin 360)) disableButtons parsed with
  | Some v => thetaOnChange st v
  | None => Ok st
  end.

End HeadingEditor.

Section ImportRoute.

(** [Math.max(...importedPoints.map(p => p.id), -1)] on integer ids: the
    greatest of numbers that binary64 holds is one of them, so that no
    rounding takes place here; the [+ 1] that follows rounds, and is
    [plusOne]. *)
Definition maxId (importedPoints : list Point) : Z :=
  fold_right Z.max (-1)%Z (map Point.id importedPoints).

Definition isNull (e : element) : bool :=
  match e with ENull => true | _ => false end.

(** The waypoints of an array that holds waypoint records only. *)
Fixpoint waypointsOf (elems : list element) : option (list Point) :=
  match elems with
  | [] => Some []
  | ERecord p :: elems' => option_map (cons p) (waypointsOf elems')
  | _ :: _ => None
  end.

(** The id of an element without [null], as a binary64 number. *)
Definition idNumber (e : element) : PrimFloat.float :=
  match e with
  | ERecord p => Binary64.ofZ (Point.id p)
  | EOther id => id
  | ENull => PrimFloat.nan
  end.

(** [Math.max(...ids, -1) + 1] on binary64 numbers. *)
Definition counterOf (elems : list element) : PrimFloat.float :=
  PrimFloat.add
    (fold_right Binary64.max (PrimFloat.opp PrimFloat.one) (map idNumber elems))
    PrimFloat.one.

(** What the import has done when its handler returns.
    - [Rejected]: nothing.  [JSON.parse] threw (the handler alerts) or the
      root is no array.
    - [Loaded st]: the store, the selection and the counter are those of
      [st].  Every element is a waypoint record.
    - [Thrown elems]: the store holds [elems] and the selection is cleared,
      but the counter is the old one: [setPoints] and [setSelectedId] were
      called before [p.id] threw on a [null] element, and the handler
      alerts.
    - [Untyped elems counter]: the store holds [elems], the selection is
      cleared and the counter is the number [counter].
    In the last two cases the store holds values that are no waypoints.
    (The limit an engine puts on the number of arguments of [Math.max] is
    not modelled.) *)
Inductive Imported : Type :=
| Rejected
| Loaded (st : State)
| Thrown (elems : list element)
| Untyped (elems : list element) (counter : PrimFloat.float).

(** The [onload] handler of the import, on the outcome of [JSON.parse]:
    [None] when it threw. *)
Definition importRoute (st : State) (parsed : option json) : Imported :=
  match parsed with
  | Some (JArray importedPoints) =>
      if existsb isNull importedPoints then Thrown importedPoints
      else
        match waypointsOf importedPoints with
        | Some ps =>
            Loaded (set_nextId (set_selectedId (set_points st ps) None)
                      (plusOne (maxId ps)))
        | None => Untyped importedPoints (counterOf importedPoints)
        end
  | Some _ => Rejected
  | None => Rejected
  end.

End ImportRoute.

(** ** Well-formed inputs and sample data *)

(** A point whose screen coordinates are finite numbers. *)
Definition screenFinite (p : Point) : bool :=
  isFinite (Point.x p) && isFinite (Point.y p).

(** The field images are 2000 by 2000 pixels. *)
Definition field2000 : Image := {| width := 2000; height := 2000 |}.

(** A waypoint with the attributes a placement in the extended variant
    gives, at the given screen and field positions, with the given stored
    heading. *)
Definition waypoint (id : Z) (x y fieldX fieldY theta : R) : Point :=
  Point.make (Fin x) (Fin y) (Fin fieldX) (Fin fieldY) id (Fin theta)
    (Fin 1000) (Fin 70) (Some true).

(** The editor with the given points, none dragged or hovered. *)
Definition editorWith (ps : list Point) (next : Z) (selected : option Z) : State :=
  {| points := ps; nextId := next; image := Some field2000;
     draggingId := None; hoveredId := None; selectedId := selected;
     hoveredPathProgress := None; lastHoveredProgress := Fin 0 |}.

(** Two waypoints twelve inches apart on a horizontal line, the last with
    stored heading 0 (up). *)
Definition straightRoute : list Point :=
  [waypoint 0 1000 1000 0 0 0; waypoint 1 1161 1000 12 0 0].

(** The same route with a second waypoint stacked on the first, as a
    coordinate edit or a drag can produce. *)
Definition stackedRoute : list Point :=
  [waypoint 0 1000 1000 0 0 0; waypoint 1 1000 1000 0 0 0;
   waypoint 2 1161 1000 12 0 0].

(** ** Reference definitions *)


(** The stored screen position of a waypoint is the transform of its stored
    field position. *)
Definition inSync (V : variant) (image : option Image) (p : Point) : Prop :=
  (Point.x p, Point.y p)
  = fieldToPixelCoords V image (Point.fieldX p) (Point.fieldY p).

(** The number of units per inch the stored field coordinates are rounded
    to: tenths in the extended variant, hundredths in the simple one. *)
Definition decimalFactor (V : variant) : R :=
  match V with Extended => 10%R | Simple => 100%R end.

(** The three lines of a waypoint that is not the first, as the emitter
    writes them: separator, turn, move. *)
Definition separatorLine : CodeLine :=
  {| line := newline; pointIndex := Some (-1)%Z |}.

Definition turnLine (V : variant) (index : nat) (point : Point) : CodeLine :=
  {| line :=
       turnToPoint (roundField V (Point.fieldX point))
         (roundField V (Point.fieldY point))
         (match V with
          | Extended => Some (Point.forwards point, Point.speed point)
          | Simple => None
          end);
     pointIndex := Some (Z.of_nat index) |}.

Definition moveLine (V : variant) (index : nat) (point : Point) : CodeLine :=
  {| line :=
       moveToPoint (roundField V (Point.fieldX point))
         (roundField V (Point.fieldY point))
         (match V with
          | Extended =>
              Some (Point.timeout point, Point.forwards point, Point.speed point)
          | Simple => None
          end);
     pointIndex := Some (Z.of_nat index) |}.

Fixpoint laterLines (V : variant) (index : nat) (rest : list Point)
  : list CodeLine :=
  match rest with
  | [] => []
  | point :: rest' =>
      separatorLine :: turnLine V index point :: moveLine V index point
        :: laterLines V (S index) rest'
  end.

(** ** Real geometry of a path at finite screen positions *)

(** The screen coordinates of a point as reals (0 where not finite). *)
Definition rx (p : Point) : R :=
  match Point.x p with Fin r => r | _ => 0%R end.

Definition ry (p : Point) : R :=
  match Point.y p with Fin r => r | _ => 0%R end.

(** The Euclidean length of a segment. *)
Definition rlen (s : Point * Point) : R :=
  sqrt ((rx (snd s) - rx (fst s)) * (rx (snd s) - rx (fst s))
        + (ry (snd s) - ry (fst s)) * (ry (snd s) - ry (fst s))).

(** The length of a run of segments. *)
Definition rpath (segs : list (Point * Point)) : R :=
  fold_right (fun s acc => (rlen s + acc)%R) 0%R segs.

(** The point of a segment at the fraction [t] of its length. *)
Definition lerp (s : Point * Point) (t : R) : R * R :=
  ((rx (fst s) + (rx (snd s) - rx (fst s)) * t)%R,
   (ry (fst s) + (ry (snd s) - ry (fst s)) * t)%R).

(** The Euclidean distance between two positions. *)
Definition dist (a b : R * R) : R :=
  sqrt ((fst a - fst b) * (fst a - fst b) + (snd a - snd b) * (snd a - snd b)).

Definition finiteSeg (s : Point * Point) : Prop :=
  screenFinite (fst s) = true /\ screenFinite (snd s) = true.

Definition allFinite (ps : list Point) : Prop :=
  Forall (fun p => screenFinite p = true) ps.

(** Consecutive segments share a waypoint. *)
Fixpoint chain (segs : list (Point * Point)) : Prop :=
  match segs with
  | a :: (b :: _) as rest => snd a = fst b /\ chain rest
  | _ => True
  end.

(** The projection of a query position onto a segment, as the
    specification words it: the parameter
    [clamp (dot (q - p1, p2 - p1) / |p2 - p1|^2, 0, 1)], the foot point and
    the distance from the query to the foot.  On a segment of zero length
    the foot is its single point. *)
Definition rparam (s : Point * Point) (q : R * R) : R :=
  let dx := (rx (snd s) - rx (fst s))%R in
  let dy := (ry (snd s) - ry (fst s))%R in
  let lenSq := (dx * dx + dy * dy)%R in
  if Req_dec_T lenSq 0 then 0%R
  else Rmax 0 (Rmin 1 (((fst q - rx (fst s)) * dx + (snd q - ry (fst s)) * dy) / lenSq)).

Definition rfoot (s : Point * Point) (q : R * R) : R * R := lerp s (rparam s q).

Definition rdist (s : Point * Point) (q : R * R) : R := dist q (rfoot s q).

(** The values the scan starts from. *)
Definition noClosest : Closest :=
  {| closestPoint := None; closestDistance := PInf; closestProgress := Fin 0 |}.

(** The values the scan stores when the segment [s], after the segments
    [pre] of a path of length [total], is the closest so far. *)
Definition closestOn (pre : list (Point * Point)) (s : Point * Point)
  (total : R) (q : R * R) : Closest :=
  {| closestPoint := Some (Fin (fst (rfoot s q)), Fin (snd (rfoot s q)));
     closestDistance := Fin (rdist s q);
     closestProgress := Fin ((rpath pre + rparam s q * rlen s) / total) |}.

(** What the scan holds after the segments [done] of a path of length
    [total]: nothing, when none of them has a length, or the first segment
    of positive length among those nearest the query [q]. *)
Definition scanInvariant (total : R) (q : R * R) (done : list (Point * Point))
  (best : Closest) : Prop :=
  (best = noClosest /\ rpath done = 0%R) \/
  (exists (pre : list (Point * Point)) (s : Point * Point)
          (post : list (Point * Point)),
      done = pre ++ s :: post /\
      (0 < rlen s)%R /\
      best = closestOn pre s total q /\
      (forall s', In s' done -> (0 < rlen s')%R -> (rdist s q <= rdist s' q)%R) /\
      (forall s', In s' pre -> (0 < rlen s')%R -> (rdist s q < rdist s' q)%R)).

(** ** Simulation clock *)

Section Simulation.

Local Open Scope num_scope.

(** [getTotalSimulationDuration]: the timeouts of [points\[i + 1\]] for
    [i] from [0] to [points.length - 2]. *)
Definition getTotalSimulationDuration (points : list Point) : num :=
  if (length points <? 2)%nat then Fin 0
  else
    fold_left (fun totalMs s => totalMs + Point.timeout (snd s))
      (segments points) (Fin 0).

(** [getProgressFromElapsedTime] *)
Definition getProgressFromElapsedTime (points : list Point) (elapsedMs : num)
  : num :=
  if (length points <? 2)%nat then Fin 0
  else
    let totalMs := getTotalSimulationDuration points in
    if totalMs >? Fin 0 then Math.min (Fin 1) (elapsedMs / totalMs) else Fin 0.

(** The state the clock reads and writes, and the animation frame it has
    requested: [pending] holds the [startTime] of the callback chain while
    a frame is requested. *)
Record Clock : Type := {
  isRunning : bool;
  robotProgress : num;
  showBot : bool;
  pending : option num
}.

(** The Run / Pause button. *)
Definition runButton (c : Clock) : Clock :=
  if negb (isRunning c) then
    {| isRunning := true;
       robotProgress :=
         if robotProgress c >=? Fin 1 then Fin 0 else robotProgress c;
       showBot := true;
       pending := pending c |}
  else
    {| isRunning := false; robotProgress := robotProgress c;
       showBot := showBot c; pending := pending c |}.

(** The simulation effect, run at the time [now] when [isRunning] or the
    points have changed (after the clean-up of its previous run, which
    cancels the requested frame). *)
Definition simulationEffect (points : list Point) (now : num) (c : Clock)
  : Clock :=
  if negb (isRunning c) then
    {| isRunning := false; robotProgress := robotProgress c;
       showBot := showBot c; pending := None |}
  else
    let totalMs := getTotalSimulationDuration points in
    if totalMs === Fin 0 then
      {| isRunning := false; robotProgress := robotProgress c;
         showBot := showBot c; pending := None |}
    else
      {| isRunning := true; robotProgress := robotProgress c;
         showBot := showBot c; pending := Some now |}.

(** The frame callback [step], called at [time]; nothing happens when no
    frame is requested. *)
Definition step (points : list Point) (time : num) (c : Clock) : Clock :=
  match pending c with
  | None => c
  | Some startTime =>
      let elapsedMs := time - startTime in
      let progress := getProgressFromElapsedTime points elapsedMs in
      if progress >=? Fin 1 then
        {| isRunning := false; robotProgress := progress; showBot := false;
           pending := None |}
      else
        {| isRunning := isRunning c; robotProgress := progress;
           showBot := showBot c; pending := Some startTime |}
  end.

End Simulation.

(** ** Further handlers *)

Section MoreHandlers.

Local Open Scope num_scope.

(** The key handler: Backspace or Delete, with a point selected and the
    canvas focused, removes the selected point. *)
Definition handleKeyDown (isDeleteKey canvasFocused : bool) (st : State) : State :=
  match selectedId st with
  | Some selected =>
      if isDeleteKey && canvasFocused then
        set_selectedId
          (set_points st
             (filter (fun p => negb (Point.id p =? selected)%Z) (points st)))
          None
      else st
  | None => st
  end.

(** [handleMouseUp] and [handleMouseLeave] *)
Definition handleMouseUp (st : State) : State :=
  {| points := points st; nextId := nextId st; image := image st;
     draggingId := None; hoveredId := hoveredId st;
     selectedId := selectedId st;
     hoveredPathProgress := hoveredPathProgress st;
     lastHoveredProgress := lastHoveredProgress st |}.

Definition handleMouseLeave (st : State) : State :=
  {| points := points st; nextId := nextId st; image := image st;
     draggingId := None; hoveredId := None;
     selectedId := selectedId st;
     hoveredPathProgress := None;
     lastHoveredProgress := lastHoveredProgress st |}.

(** [points.findIndex(p => p.id === selectedId)]: -1 when there is none. *)
Fixpoint findIndexFrom (selected : Z) (ps : list Point) (i : Z) : Z :=
  match ps with
  | [] => (-1)%Z
  | p :: ps' =>
      if (Point.id p =? selected)%Z then i else findIndexFrom selected ps' (i + 1)%Z
  end.

Definition findIndex (selected : Z) (ps : list Point) : Z :=
  findIndexFrom selected ps 0.

(** The arrow buttons of the edit panel (shown while a point is selected):
    they store an index as the selected id. *)
Definition selectPrevious (st : State) : State :=
  match selectedId st with
  | None => st
  | Some selected =>
      let index := findIndex selected (points st) in
      set_selectedId st
        (Some (if (index >? 0)%Z then (index - 1)%Z
               else (Z.of_nat (length (points st)) - 1)%Z))
  end.

Definition selectNext (st : State) : State :=
  match selectedId st with
  | None => st
  | Some selected =>
      let index := findIndex selected (points st) in
      set_selectedId st
        (Some (if (index <? Z.of_nat (length (points st)) - 1)%Z
               then (index + 1)%Z else 0%Z))
  end.

(** [selectedPoint] *)
Definition selectedPoint (st : State) : option Point :=
  match selectedId st with
  | Some selected => find (fun p => (Point.id p =? selected)%Z) (points st)
  | None => None
  end.

(** [{ ...p, timeout: v }], [{ ...p, speed: v }] and [{ ...p, forwards }] *)
Definition withTimeout (p : Point) (v : num) : Point :=
  Point.make (Point.x p) (Point.y p) (Point.fieldX p) (Point.fieldY p)
    (Point.id p) (Point.theta p) v (Point.speed p) (Point.forwards p).

Definition withSpeed (p : Point) (v : num) : Point :=
  Point.make (Point.x p) (Point.y p) (Point.fieldX p) (Point.fieldY p)
    (Point.id p) (Point.theta p) (Point.timeout p) v (Point.forwards p).

Definition withForwards (p : Point) (b : bool) : Point :=
  Point.make (Point.x p) (Point.y p) (Point.fieldX p) (Point.fieldY p)
    (Point.id p) (Point.theta p) (Point.timeout p) (Point.speed p) (Some b).

(** [points.map(p => p.id === selectedId ? f p : p)], the shape of the
    timeout, speed and direction edits; with nothing selected no point
    matches. *)
Definition editSelected (f : Point -> Point) (st : State) : State :=
  set_points st
    (map (fun p =>
            match selectedId st with
            | Some selected => if (Point.id p =? selected)%Z then f p else p
            | None => p
            end)
       (points st)).

Definition timeoutOnChange (st : State) (v : num) : State :=
  editSelected (fun p => withTimeout p v) st.

Definition speedOnChange (st : State) (v : num) : State :=
  editSelected (fun p => withSpeed p v) st.

Definition forwardsOnClick (st : State) (b : bool) : State :=
  editSelected (fun p => withForwards p b) st.

(** The minus and plus buttons of [NumberInput]. *)
Definition decrementButton (min value step : num) : num :=
  Math.max min (value - step).

Definition incrementButton (max : option num) (value step : num) : num :=
  match max with
  | Some m => Math.min m (value + step)
  | None => value + step
  end.

End MoreHandlers.

(** ** Events

    What the user can do to the waypoint store, and the handler each event
    runs.  A handler that throws leaves the state as it was.  The simple
    variant has no direction buttons and no arrows: there the events
    [SetForwards], [PreviousButton] and [NextButton] do not occur, and a
    statement about all sequences of events covers the sequences it has. *)
Inductive Event : Type :=
| CanvasClick (x y : num)
| MouseDown (x y : num)
| MouseMove (x y : num)
| MouseUp
| MouseLeave
| KeyDown (isDeleteKey canvasFocused : bool)
| EditCoords (fieldX fieldY : num)
| EditTheta (parsed : num)
| EditTimeout (v : num)
| EditSpeed (v : num)
| SetForwards (b : bool)
| FlipXButton
| FlipYButton
| PreviousButton
| NextButton
| ClickCodeLine (item : CodeLine).

Definition orUnchanged (st : State) (r : result State) : State :=
  match r with Ok st' => st' | _ => st end.

Definition handle (V : variant) (st : State) (e : Event) : State :=
  match e with
  | CanvasClick x y => handleCanvasClick V st x y
  | MouseDown x y => handleMouseDown V st x y
  | MouseMove x y => handleMouseMove V st x y
  | MouseUp => handleMouseUp st
  | MouseLeave => handleMouseLeave st
  | KeyDown isDeleteKey canvasFocused => handleKeyDown isDeleteKey canvasFocused st
  | EditCoords fieldX fieldY => updateSelectedPointFieldCoords V st fieldX fieldY
  | EditTheta parsed => orUnchanged st (editTheta st parsed)
  | EditTimeout v => timeoutOnChange st v
  | EditSpeed v => speedOnChange st v
  | SetForwards b => forwardsOnClick st b
  | FlipXButton => flipX st
  | FlipYButton => flipY st
  | PreviousButton => selectPrevious st
  | NextButton => selectNext st
  | ClickCodeLine item => orUnchanged st (codeLineOnClick item st)
  end.

(** The state after a sequence of events. *)
Definition run (V : variant) (st : State) (events : list Event) : State :=
  fold_left (handle V) events st.

(** The state the component starts in, once the image has loaded. *)
Definition initialState (img : Image) : State :=
  {| points := []; nextId := 0; image := Some img;
     draggingId := None; hoveredId := None; selectedId := None;
     hoveredPathProgress := None; lastHoveredProgress := Fin 0 |}.

(** Ids are unique and below the next-id counter. *)
Definition idsFresh (st : State) : Prop :=
  NoDup (map Point.id (points st)) /\
  forall p, In p (points st) -> (Point.id p < nextId st)%Z.

(** ** Sessions

    A session is a sequence of events and imports.  The typed store
    follows it as long as no import leaves values in the store that are no
    waypoints: [None] from there on. *)
Inductive Step : Type :=
| Act (e : Event)
| ImportFile (parsed : option json).

Definition advance (V : variant) (st : State) (s : Step) : option State :=
  match s with
  | Act e => Some (handle V st e)
  | ImportFile parsed =>
      match importRoute st parsed with
      | Rejected => Some st
      | Loaded st' => Some st'
      | Thrown _ => None
      | Untyped _ _ => None
      end
  end.

Fixpoint session (V : variant) (st : State) (steps : list Step) : option State :=
  match steps with
  | [] => Some st
  | s :: steps' =>
      match advance V st s with
      | Some st' => session V st' steps'
      | None => None
      end
  end.

(** A step that imports no array but one of waypoint records whose ids do
    not repeat and leave [room] below 2^53. *)
Definition safeImport (room : Z) (s : Step) : Prop :=
  match s with
  | ImportFile (Some (JArray importedPoints)) =>
      exists ps : list Point,
        waypointsOf importedPoints = Some ps /\
        NoDup (map Point.id ps) /\
        forall p, In p ps -> (Point.id p + room < 2 ^ 53)%Z
  | _ => True
  end.

(** Waypoints whose timeouts are finite and not negative, as the timeout
    input (minimum 0) leaves them. *)
Definition timeoutsFinite (ps : list Point) : Prop :=
  Forall (fun p => exists t : R, Point.timeout p = Fin t /\ (0 <= t)%R) ps.

(** The clock when the editor opens. *)
Definition initialClock : Clock :=
  {| isRunning := false; robotProgress := Fin 0; showBot := true;
     pending := None |}.

(** ** Screen and field positions in step

    A waypoint is in step when its stored screen position is the transform
    of its stored field position, and steady when in addition the field
    position is finite. *)
Definition inStep (V : variant) (st : State) : Prop :=
  Forall (inSync V (image st)) (points st).

Definition steadyPoint (V : variant) (img : Image) (p : Point) : Prop :=
  inSync V (Some img) p /\
  isFinite (Point.fieldX p) = true /\ isFinite (Point.fieldY p) = true.

(** An event that leaves the screen positions to the handlers that derive
    them from the field positions: the pointer does not move while it holds
    a waypoint, and no mirror is applied. *)
Definition stepKeeping (st : State) (e : Event) : Prop :=
  match e with
  | MouseMove _ _ => draggingId st = None
  | FlipXButton => False
  | FlipYButton => False
  | _ => True
  end.

Fixpoint stepKeepingRun (V : variant) (st : State) (events : list Event) : Prop :=
  match events with
  | [] => True
  | e :: events' => stepKeeping st e /\ stepKeepingRun V (handle V st e) events'
  end.

(** What a mirror leaves alone. *)
Definition attributes (p : Point) : Z * num * num * num * option bool :=
  (Point.id p, Point.theta p, Point.timeout p, Point.speed p, Point.forwards p).




(** The segments of a path as the specification has them: every waypoint
    paired with its successor. *)
Definition legs (ps : list Point) : list (Point * Point) :=
  combine ps (tl ps).

(** A route in the shape of a V, as drags can leave it: the pointer at
    (1000, 1016), midway between its ends, is as far from one segment as
    from the other. *)
Definition vRoute : list Point :=
  [waypoint 0 940 1016 (-45 / 10) (-12 / 10) 0; waypoint 1 1000 1040 0 (-3) 0;
   waypoint 2 1060 1016 (45 / 10) (-12 / 10) 0].


(** * Properties *)

(** ** Arithmetic on finite numbers *)

Lemma Rltb_true (a b : R) : (a < b)%R -> Rltb a b = true.
Proof. intros H; unfold Rltb; destruct (Rlt_dec a b); [reflexivity | contradiction]. Qed.

Lemma Rltb_false (a b : R) : (b <= a)%R -> Rltb a b = false.
Proof. intros H; unfold Rltb; destruct (Rlt_dec a b); [lra | reflexivity]. Qed.

Lemma Rleb_true (a b : R) : (a <= b)%R -> Rleb a b = true.
Proof. intros H; unfold Rleb; destruct (Rle_dec a b); [reflexivity | contradiction]. Qed.

Lemma Rleb_false (a b : R) : (b < a)%R -> Rleb a b = false.
Proof. intros H; unfold Rleb; destruct (Rle_dec a b); [lra | reflexivity]. Qed.

Lemma Reqb_true (a b : R) : a = b -> Reqb a b = true.
Proof. intros H; unfold Reqb; destruct (Req_dec_T a b); [reflexivity | contradiction]. Qed.

Lemma Reqb_false (a b : R) : a <> b -> Reqb a b = false.
Proof. intros H; unfold Reqb; destruct (Req_dec_T a b); [contradiction | reflexivity]. Qed.

(** Decide every comparison of reals in the goal, closing the branches
    that contradict the context. *)
Ltac rdec :=
  unfold Rltb, Rleb, Reqb in *;
  repeat match goal with
    | |- context [Rlt_dec ?a ?b] => destruct (Rlt_dec a b); try lra
    | |- context [Rle_dec ?a ?b] => destruct (Rle_dec a b); try lra
    | |- context [Req_dec_T ?a ?b] => destruct (Req_dec_T a b); try lra
    end.

Lemma ndiv_fin (a b : R) : b <> 0%R -> ndiv (Fin a) (Fin b) = Fin (a / b).
Proof. intros H; unfold ndiv; rewrite Reqb_false by assumption; reflexivity. Qed.

Lemma ndiv_zero_zero : ndiv (Fin 0) (Fin 0) = NaN.
Proof. unfold ndiv; rewrite !Reqb_true by reflexivity; reflexivity. Qed.

Lemma sqrt_fin (a : R) : (0 <= a)%R -> Math.sqrt (Fin a) = Fin (sqrt a).
Proof. intros H; unfold Math.sqrt; rewrite Rltb_false by assumption; reflexivity. Qed.

(** ** Coordinate transform *)

Section TransformFacts.

Variable V : variant.
Variable img : Image.
Hypothesis width_pos : (0 < width img)%Z.

Lemma pixelsPerInch_fin :
  exists k : R, (0 < k)%R /\ pixelsPerInch V img = Fin k.
Proof.
  destruct V; cbn.
  - exists (1932 / 144)%R; split; [lra | apply ndiv_fin; lra].
  - exists (IZR (width img) / 144)%R; split.
    + apply IZR_lt in width_pos. lra.
    + unfold num_of_Z. apply ndiv_fin; lra.
Qed.

Lemma centerX_fin : exists c : R, centerX V img = Fin c.
Proof.
  destruct V; cbn; unfold num_of_Z; cbn.
  - rewrite !ndiv_fin by lra. cbn. eauto.
  - rewrite ndiv_fin by lra. eauto.
Qed.

Lemma centerY_fin : exists c : R, centerY V img = Fin c.
Proof.
  destruct V; cbn; unfold num_of_Z; cbn.
  - rewrite !ndiv_fin by lra. cbn. eauto.
  - rewrite ndiv_fin by lra. eauto.
Qed.

Lemma field_pixel_field (fieldX fieldY : R) :
  let '(x, y) := fieldToPixelCoords V (Some img) (Fin fieldX) (Fin fieldY) in
  pixelToFieldCoords V (Some img) x y = (Fin fieldX, Fin fieldY).
Proof.
  unfold fieldToPixelCoords, pixelToFieldCoords.
  destruct pixelsPerInch_fin as (k & Hk & ->).
  destruct centerX_fin as (cx & ->).
  destruct centerY_fin as (cy & ->).
  cbn. rewrite !ndiv_fin by lra.
  f_equal; f_equal; field; lra.
Qed.

Lemma pixel_field_pixel (pixelX pixelY : R) :
  let '(fieldX, fieldY) := pixelToFieldCoords V (Some img) (Fin pixelX) (Fin pixelY) in
  fieldToPixelCoords V (Some img) fieldX fieldY = (Fin pixelX, Fin pixelY).
Proof.
  unfold fieldToPixelCoords, pixelToFieldCoords.
  destruct pixelsPerInch_fin as (k & Hk & ->).
  destruct centerX_fin as (cx & ->).
  destruct centerY_fin as (cy & ->).
  cbn. rewrite !ndiv_fin by lra. cbn.
  f_equal; f_equal; field; lra.
Qed.

End TransformFacts.

(** C5: with an image loaded (of positive width), in either variant,
    [fieldToPixelCoords] followed by [pixelToFieldCoords] returns the field
    coordinate it started from, and [pixelToFieldCoords] followed by
    [fieldToPixelCoords] returns the pixel coordinate it started from,
    exactly, for all finite coordinates (in particular those of the field,
    between -72 and 72). *)
Theorem coordinate_round_trip (V : variant) (img : Image) (a b : R) :
  (0 < width img)%Z ->
  (let '(x, y) := fieldToPixelCoords V (Some img) (Fin a) (Fin b) in
   pixelToFieldCoords V (Some img) x y) = (Fin a, Fin b) /\
  (let '(fieldX, fieldY) := pixelToFieldCoords V (Some img) (Fin a) (Fin b) in
   fieldToPixelCoords V (Some img) fieldX fieldY) = (Fin a, Fin b).
Proof.
  intros Hw. split.
  - pose proof (field_pixel_field V img Hw a b) as H.
    destruct (fieldToPixelCoords V (Some img) (Fin a) (Fin b)) as [x y].
    exact H.
  - pose proof (pixel_field_pixel V img Hw a b) as H.
    destruct (pixelToFieldCoords V (Some img) (Fin a) (Fin b)) as [x y].
    exact H.
Qed.

(** The theorem at a corner region of the field, on a 2000-pixel image. *)
Lemma coordinate_round_trip_witness :
  (let '(x, y) := fieldToPixelCoords Extended (Some field2000) (Fin 36) (Fin (-72)) in
   pixelToFieldCoords Extended (Some field2000) x y) = (Fin 36, Fin (-72)) /\
  (let '(fieldX, fieldY) :=
     pixelToFieldCoords Extended (Some field2000) (Fin 36) (Fin (-72)) in
   fieldToPixelCoords Extended (Some field2000) fieldX fieldY) = (Fin 36, Fin (-72)).
Proof.
  apply (coordinate_round_trip Extended field2000 36 (-72)).
  reflexivity.
Defined.

(** ** Heading resolver *)

Lemma Ratan2_bound (y x : R) :
  (- (3 * PI / 2) < Math.Ratan2 y x < 3 * PI / 2)%R.
Proof.
  pose proof PI_RGT_0 as Hpi.
  pose proof (atan_bound (y / x)) as Hb.
  unfold Math.Ratan2. rdec.
Qed.

(** [Math.atan2] of two finite numbers is finite. *)
Lemma atan2_fin (y x : R) : Math.atan2 (Fin y) (Fin x) = Fin (Math.Ratan2 y x).
Proof. reflexivity. Qed.

(** The conversion to degrees, before normalisation. *)
Lemma degrees_fin (r : R) :
  ndiv (nmul (nadd (Fin r) (ndiv Math.PI (Fin 2))) (Fin 180)) Math.PI
  = Fin ((r + PI / 2) * 180 / PI)%R.
Proof.
  pose proof PI_RGT_0 as Hpi.
  unfold Math.PI. rewrite ndiv_fin by lra. cbn. rewrite ndiv_fin by lra.
  reflexivity.
Qed.

Lemma while_negative_fin (fuel : nat) (d : R) :
  (2 <= fuel)%nat -> (-360 <= d)%R ->
  exists d' : R,
    while_negative fuel (Fin d) = Ok (Fin d') /\ (0 <= d')%R /\
    (d' = d \/ d' = d + 360)%R /\ (0 <= d -> d' = d)%R.
Proof.
  intros Hf Hd.
  destruct fuel as [|[|fuel]]; try lia.
  cbn [while_negative nltb].
  destruct (Rlt_dec d 0) as [Hneg | Hpos].
  - rewrite Rltb_true by assumption. cbn [nadd nltb].
    rewrite Rltb_false by lra.
    exists (d + 360)%R. repeat split; lra.
  - rewrite Rltb_false by lra.
    exists d. repeat split; lra.
Qed.

Lemma while_over_fin (fuel : nat) (d : R) :
  (1 <= fuel)%nat -> (d < 360)%R -> while_over fuel (Fin d) = Ok (Fin d).
Proof.
  intros Hf Hd. destruct fuel; [lia|].
  cbn [while_over ngeb nleb]. unfold ngeb; cbn [nleb].
  rewrite Rleb_false by lra. reflexivity.
Qed.

Lemma screenFinite_inv (p : Point) :
  screenFinite p = true ->
  exists a b : R, Point.x p = Fin a /\ Point.y p = Fin b.
Proof.
  unfold screenFinite. destruct (Point.x p), (Point.y p); cbn; try discriminate.
  eauto.
Qed.

(** The heading of a waypoint that has a successor, both at finite screen
    positions: the normalised angle of the vector to the successor. *)
Lemma getEffectiveTheta_inner (fuel : nat) (points : list Point) (index : nat)
  (this next : Point) (a b a' b' : R) :
  (2 <= fuel)%nat ->
  nth_error points index = Some this ->
  nth_error points (index + 1) = Some next ->
  Point.x this = Fin a -> Point.y this = Fin b ->
  Point.x next = Fin a' -> Point.y next = Fin b' ->
  exists d : R,
    getEffectiveTheta fuel points index = Ok (Fin d) /\
    (0 <= d < 360)%R /\
    (let raw := ((Math.Ratan2 (b' - b) (a' - a) + PI / 2) * 180 / PI)%R in
     (d = raw \/ d = raw + 360)%R /\ (0 <= raw -> d = raw)%R).
Proof.
  intros Hf Hthis Hnext Hx Hy Hx' Hy'.
  pose proof PI_RGT_0 as Hpi.
  assert (Hlen : (index + 1 < length points)%nat)
    by (apply nth_error_Some; rewrite Hnext; discriminate).
  unfold getEffectiveTheta.
  replace (Z.of_nat index <? Z.of_nat (length points) - 1)%Z with true
    by (symmetry; apply Z.ltb_lt; lia).
  rewrite Hnext, Hthis, Hx, Hy, Hx', Hy'.
  cbn [nsub nneg nadd]. rewrite atan2_fin, degrees_fin.
  fold (a' - a)%R. fold (b' - b)%R.
  set (raw := ((Math.Ratan2 (b' - b) (a' - a) + PI / 2) * 180 / PI)%R).
  pose proof (Ratan2_bound (b' - b) (a' - a)) as Hr.
  assert (Hraw : (-180 < raw < 360)%R).
  { unfold raw. split.
    - apply Rmult_lt_reg_r with (r := PI); [assumption|].
      unfold Rdiv. rewrite Rmult_assoc, Rinv_l by lra. lra.
    - apply Rmult_lt_reg_r with (r := PI); [assumption|].
      unfold Rdiv. rewrite Rmult_assoc, Rinv_l by lra. lra. }
  destruct (while_negative_fin fuel raw) as (d & Hw & Hd0 & Hcase & Hid);
    [assumption | lra |].
  rewrite Hw. cbn [bind].
  assert (Hd : (d < 360)%R) by (destruct Hcase; [lra|]; destruct (Rlt_dec raw 0); lra).
  rewrite while_over_fin by (lia || assumption). cbn [bind].
  exists d. repeat split; try assumption.
Qed.

(** The four cardinal directions, before normalisation: up, right, down
    and left on the screen. *)
Lemma raw_heading_cardinal (dy dx : R) :
  let raw := ((Math.Ratan2 dy dx + PI / 2) * 180 / PI)%R in
  (dx = 0 -> dy < 0 -> raw = 0)%R /\
  (dy = 0 -> 0 < dx -> raw = 90)%R /\
  (dx = 0 -> 0 < dy -> raw = 180)%R /\
  (dy = 0 -> dx < 0 -> raw = 270)%R.
Proof.
  pose proof PI_RGT_0 as Hpi.
  cbv zeta. unfold Math.Ratan2.
  repeat split; intros H0 Hs; subst;
    try (replace (0 / dx)%R with 0%R by (field; lra); rewrite atan_0);
    rdec; field; lra.
Qed.

(** At the last index the stored heading is returned as it is. *)
Lemma getEffectiveTheta_last (fuel : nat) (points : list Point) (index : nat)
  (this : Point) :
  nth_error points index = Some this ->
  (index + 1)%nat = length points ->
  getEffectiveTheta fuel points index = Ok (Point.theta this).
Proof.
  intros Hthis Hlast. unfold getEffectiveTheta.
  replace (Z.of_nat index <? Z.of_nat (length points) - 1)%Z with false
    by (symmetry; apply Z.ltb_ge; lia).
  rewrite Hthis. reflexivity.
Qed.

(** C3 (amended): for a waypoint with a successor, both at finite screen
    positions, [getEffectiveTheta] returns a value in [0, 360), which is
    0, 90, 180 and 270 when the successor lies directly above, right of,
    below and left of it on the screen; at the last index it returns the
    stored heading as it is, whatever its value. *)
Theorem getEffectiveTheta_normalized (fuel : nat) (points : list Point)
  (index : nat) (this : Point) :
  (2 <= fuel)%nat ->
  nth_error points index = Some this ->
  (forall (next : Point) (a b a' b' : R),
      nth_error points (index + 1) = Some next ->
      Point.x this = Fin a -> Point.y this = Fin b ->
      Point.x next = Fin a' -> Point.y next = Fin b' ->
      exists d : R,
        getEffectiveTheta fuel points index = Ok (Fin d) /\
        (0 <= d < 360)%R /\
        (a' = a -> b' < b -> d = 0)%R /\
        (b' = b -> a < a' -> d = 90)%R /\
        (a' = a -> b < b' -> d = 180)%R /\
        (b' = b -> a' < a -> d = 270)%R) /\
  ((index + 1)%nat = length points ->
   getEffectiveTheta fuel points index = Ok (Point.theta this)).
Proof.
  intros Hf Hthis. split.
  - intros next a b a' b' Hnext Hx Hy Hx' Hy'.
    destruct (getEffectiveTheta_inner fuel points index this next a b a' b'
                Hf Hthis Hnext Hx Hy Hx' Hy')
      as (d & Hget & Hrange & Hcase & Hid).
    destruct (raw_heading_cardinal (b' - b) (a' - a)) as (Hup & Hright & Hdown & Hleft).
    exists d. split; [assumption|]. split; [assumption|].
    repeat split; intros H1 H2.
    + rewrite Hid; rewrite Hup; lra.
    + rewrite Hid; rewrite Hright; lra.
    + rewrite Hid; rewrite Hdown; lra.
    + rewrite Hid; rewrite Hleft; lra.
  - intros Hlast. apply getEffectiveTheta_last; assumption.
Qed.

(** The theorem at two waypoints, the second directly above the first. *)
Lemma getEffectiveTheta_normalized_witness :
  (forall (next : Point) (a b a' b' : R),
      nth_error [waypoint 0 1000 1000 0 0 0; waypoint 1 1000 839 0 12 0] (0 + 1)
      = Some next ->
      Point.x (waypoint 0 1000 1000 0 0 0) = Fin a ->
      Point.y (waypoint 0 1000 1000 0 0 0) = Fin b ->
      Point.x next = Fin a' -> Point.y next = Fin b' ->
      exists d : R,
        getEffectiveTheta 2
          [waypoint 0 1000 1000 0 0 0; waypoint 1 1000 839 0 12 0] 0
        = Ok (Fin d) /\
        (0 <= d < 360)%R /\
        (a' = a -> b' < b -> d = 0)%R /\
        (b' = b -> a < a' -> d = 90)%R /\
        (a' = a -> b < b' -> d = 180)%R /\
        (b' = b -> a' < a -> d = 270)%R) /\
  ((0 + 1)%nat
   = length [waypoint 0 1000 1000 0 0 0; waypoint 1 1000 839 0 12 0] ->
   getEffectiveTheta 2
     [waypoint 0 1000 1000 0 0 0; waypoint 1 1000 839 0 12 0] 0
   = Ok (Point.theta (waypoint 0 1000 1000 0 0 0))).
Proof.
  apply (getEffectiveTheta_normalized 2
           [waypoint 0 1000 1000 0 0 0; waypoint 1 1000 839 0 12 0] 0
           (waypoint 0 1000 1000 0 0 0)).
  - lia.
  - reflexivity.
Defined.

(** C3 as stated fails at the last index: typing 360 into the heading
    input of the only (hence last) waypoint stores 360, which
    [getEffectiveTheta] returns, and 360 is not below 360. *)
Lemma getEffectiveTheta_last_360 :
  exists st : State,
    editTheta (editorWith [waypoint 0 1000 1000 0 0 0] 1 (Some 0%Z)) (Fin 360)
    = Ok st /\
    getEffectiveTheta 2 (points st) 0 = Ok (Fin 360) /\
    ~ (0 <= 360 < 360)%R.
Proof.
  eexists. split; [|split].
  - unfold editTheta, editorWith, handleInputChange, thetaOnChange, lastPoint.
    cbn. rewrite Rltb_false by lra. unfold ngtb. cbn.
    rewrite Rltb_false by lra. cbn. reflexivity.
  - reflexivity.
  - lra.
Qed.

(** ** Mirror *)

Lemma nneg_involutive (a : num) : nneg (nneg a) = a.
Proof. destruct a; cbn; try reflexivity. f_equal; lra. Qed.

Lemma mirror_coordinate_twice (a h : num) :
  isFinite h = true -> nadd (nneg (nadd (nneg a) h)) h = a.
Proof.
  destruct h as [h| | |]; try discriminate. intros _.
  destruct a; cbn; try reflexivity. f_equal; lra.
Qed.

Lemma imageHeight_finite (image : option Image) : isFinite (imageHeight image) = true.
Proof. destruct image; reflexivity. Qed.

Lemma flipPointX_twice (image : option Image) (p : Point) :
  flipPointX image (flipPointX image p) = p.
Proof.
  destruct p. unfold flipPointX, Point.with_y. cbn.
  rewrite nneg_involutive, mirror_coordinate_twice by apply imageHeight_finite.
  reflexivity.
Qed.

Lemma binary64_opp_involutive (f : PrimFloat.float) :
  PrimFloat.opp (PrimFloat.opp f) = f.
Proof.
  apply FloatAxioms.Prim2SF_inj. rewrite !FloatAxioms.opp_spec.
  destruct (FloatOps.Prim2SF f); cbn; rewrite ?negb_involutive; reflexivity.
Qed.

(** C9 (amended): Flip X applied twice returns every waypoint to the one it
    started from, field and screen position included, when arithmetic is
    exact; on binary64 numbers the field position still comes back bit for
    bit. *)
Theorem flipX_twice (st : State) :
  points (flipX (flipX st)) = points st /\
  forall fieldY : PrimFloat.float,
    Binary64.mirrorFieldY (Binary64.mirrorFieldY fieldY) = fieldY.
Proof.
  split.
  - unfold flipX. cbn. rewrite map_map.
    rewrite <- (map_id (points st)) at 2.
    apply map_ext. intros p. apply flipPointX_twice.
  - intros fieldY. apply binary64_opp_involutive.
Qed.

(** C9 as stated fails for the screen position on binary64 numbers: the
    waypoint at field height 24.3 of a 2000-pixel image sits at screen
    height 673.975, and Flip X applied twice leaves it at another double
    (673.97499999999991). *)
Lemma flipX_twice_binary64_drift :
  Binary64.mirrorY Binary64.size2000
    (Binary64.mirrorY Binary64.size2000
       (Binary64.fieldToPixelY Binary64.size2000 Binary64.fieldY_24_3))
  <> Binary64.fieldToPixelY Binary64.size2000 Binary64.fieldY_24_3.
Proof.
  intros H.
  apply (f_equal
           (fun f => PrimFloat.Leibniz.eqb f
                       (Binary64.fieldToPixelY Binary64.size2000 Binary64.fieldY_24_3)))
    in H.
  vm_compute in H. discriminate H.
Qed.

(** ** Import *)



(** [fold_right Z.max b l] is the greatest of [b] and the elements of [l]. *)
Lemma fold_right_max_greatest (l : list Z) (b : Z) :
  (b <= fold_right Z.max b l)%Z /\
  (forall i, In i l -> (i <= fold_right Z.max b l)%Z) /\
  (fold_right Z.max b l = b \/ In (fold_right Z.max b l) l).
Proof.
  induction l as [|k l (IHb & IHall & IHin)]; cbn.
  - split; [lia|]. split; [intros i []|]. left; reflexivity.
  - split; [lia|]. split.
    + intros i [<- | Hi]; [lia|]. specialize (IHall i Hi). lia.
    + destruct (Z.max_spec k (fold_right Z.max b l)) as [[_ ->] | [_ ->]].
      * destruct IHin as [-> | Hin]; [left; reflexivity | right; right; exact Hin].
      * right; left; reflexivity.
Qed.


(** Binary64 holds the integers up to 2^53 in magnitude. *)
Lemma round53_small (m : Z) : (- 2 ^ 53 <= m <= 2 ^ 53)%Z -> round53 m = m.
Proof.
  intros H. unfold round53.
  replace (Z.abs m <=? 2 ^ 53)%Z with true; [reflexivity|].
  symmetry. apply Z.leb_le. lia.
Qed.

Lemma plusOne_small (n : Z) : (- 2 ^ 53 - 1 <= n < 2 ^ 53)%Z -> plusOne n = (n + 1)%Z.
Proof. intros H. unfold plusOne. apply round53_small. lia. Qed.

(** [round53] and [plusOne] against the primitive binary64 operations, at
    integers on both sides of 2^53 and of 2^54. *)
Lemma round53_binary64 :
  forallb
    (fun m =>
       match Binary64.nearestInteger (Binary64.ofZ m) with
       | Some z => (z =? round53 m)%Z
       | None => false
       end)
    [0; 1; -1; 2 ^ 53 - 1; 2 ^ 53; 2 ^ 53 + 1; 2 ^ 53 + 2; 2 ^ 53 + 3;
     2 ^ 54 - 1; 2 ^ 54 + 1; 2 ^ 54 + 2; 2 ^ 54 + 3; 2 ^ 54 + 6;
     - (2 ^ 53 + 1); - (2 ^ 53 + 3); 2 ^ 60 + 2 ^ 7; 2 ^ 60 + 3 * 2 ^ 7;
     2 ^ 70 + 12345678901234567]%Z
  = true /\
  forallb
    (fun n =>
       match Binary64.nearestInteger
               (PrimFloat.add (Binary64.ofZ n) PrimFloat.one) with
       | Some z => (z =? plusOne n)%Z
       | None => false
       end)
    [0; 41; -1; -5; 2 ^ 53 - 1; 2 ^ 53; 2 ^ 53 + 2; 2 ^ 54; 2 ^ 54 + 4;
     - 2 ^ 53; - 2 ^ 53 - 2]%Z
  = true.
Proof. split; vm_compute; reflexivity. Qed.

Lemma waypointsOf_records (ps : list Point) :
  waypointsOf (map ERecord ps) = Some ps /\
  existsb isNull (map ERecord ps) = false.
Proof.
  induction ps as [|p ps [IH1 IH2]]; [split; reflexivity|].
  cbn [map waypointsOf existsb isNull orb]. rewrite IH1. split; [reflexivity | exact IH2].
Qed.

Lemma waypointsOf_inv (elems : list element) (ps : list Point) :
  waypointsOf elems = Some ps -> elems = map ERecord ps.
Proof.
  revert ps. induction elems as [|e elems IH]; intros ps H.
  - injection H as <-. reflexivity.
  - destruct e as [|p|id]; try discriminate H. cbn [waypointsOf] in H.
    destruct (waypointsOf elems) as [qs|]; [|discriminate H].
    injection H as <-. cbn [map]. rewrite (IH qs eq_refl). reflexivity.
Qed.

Lemma maxId_greatest (ps : list Point) :
  (-1 <= maxId ps)%Z /\ forall p, In p ps -> (Point.id p <= maxId ps)%Z.
Proof.
  destruct (fold_right_max_greatest (map Point.id ps) (-1)) as (Hb & Hall & _).
  fold (maxId ps) in Hb, Hall. split; [exact Hb|].
  intros p Hp. apply Hall. apply in_map. exact Hp.
Qed.

Lemma maxId_below (ps : list Point) (bound : Z) :
  (-1 < bound)%Z -> (forall p, In p ps -> (Point.id p < bound)%Z) ->
  (maxId ps < bound)%Z.
Proof.
  intros Hb Hall.
  destruct (fold_right_max_greatest (map Point.id ps) (-1)) as (_ & _ & [E | Hin]);
    fold (maxId ps) in *.
  - lia.
  - apply in_map_iff in Hin. destruct Hin as (p & <- & Hp). apply Hall. exact Hp.
Qed.



(** ** Placement *)

(** Rounding a finite number to the variant's precision gives the nearest
    multiple of a tenth (or a hundredth). *)
Lemma roundField_fin (V : variant) (v : R) :
  exists z : Z,
    roundField V (Fin v) = Fin (IZR z / decimalFactor V) /\
    (Rabs (IZR z / decimalFactor V - v) <= / (2 * decimalFactor V))%R.
Proof.
  assert (Hk : (0 < decimalFactor V)%R) by (destruct V; cbn; lra).
  exists (Int_part (v * decimalFactor V + / 2)).
  split.
  - unfold roundField, precision.
    destruct V; cbn [nmul Math.round decimalFactor]; apply ndiv_fin; lra.
  - destruct (base_Int_part (v * decimalFactor V + / 2)) as [Hle Hgt].
    set (z := IZR (Int_part (v * decimalFactor V + / 2))) in *.
    assert (Hd : (- / 2 <= z - v * decimalFactor V <= / 2)%R) by lra.
    replace (z / decimalFactor V - v)%R
      with ((z - v * decimalFactor V) * / decimalFactor V)%R by (field; lra).
    rewrite Rabs_mult, (Rabs_pos_eq (/ decimalFactor V))
      by (left; apply Rinv_0_lt_compat; exact Hk).
    replace (/ (2 * decimalFactor V))%R with (/ 2 * / decimalFactor V)%R
      by (field; lra).
    apply Rmult_le_compat_r; [left; apply Rinv_0_lt_compat; exact Hk|].
    apply Rabs_le. lra.
Qed.










(** ** Synchronisation of screen and field positions *)

Lemma centerX_field2000 : centerX Extended field2000 = Fin 1000.
Proof.
  unfold centerX, num_of_Z. cbn. rewrite !ndiv_fin by lra. cbn.
  f_equal. lra.
Qed.

Lemma centerY_field2000 : centerY Extended field2000 = Fin 1000.
Proof.
  unfold centerY, num_of_Z. cbn. rewrite !ndiv_fin by lra. cbn.
  f_equal. lra.
Qed.

Lemma pixelsPerInch_extended (img : Image) :
  pixelsPerInch Extended img = Fin (1932 / 144).
Proof. unfold pixelsPerInch. apply ndiv_fin. lra. Qed.

Lemma pixelToFieldCoords_field2000 (a b : R) :
  pixelToFieldCoords Extended (Some field2000) (Fin a) (Fin b)
  = (Fin ((a - 1000) / (1932 / 144)), Fin ((1000 - b) / (1932 / 144))).
Proof.
  unfold pixelToFieldCoords.
  rewrite centerX_field2000, centerY_field2000, pixelsPerInch_extended.
  cbn. rewrite !ndiv_fin by lra. reflexivity.
Qed.

Lemma fieldToPixelCoords_field2000 (a b : R) :
  fieldToPixelCoords Extended (Some field2000) (Fin a) (Fin b)
  = (Fin (a * (1932 / 144) + 1000), Fin (1000 - b * (1932 / 144))).
Proof.
  unfold fieldToPixelCoords.
  rewrite centerX_field2000, centerY_field2000, pixelsPerInch_extended.
  reflexivity.
Qed.

(** Rounding to one decimal, at a number whose tenfold rounds to [z]. *)
Lemma roundField_extended (v : R) (z : Z) :
  (IZR z - / 2 <= v * 10 < IZR z + / 2)%R ->
  roundField Extended (Fin v) = Fin (IZR z / 10).
Proof.
  intros Hv. unfold roundField, precision. cbn [nmul Math.round].
  rewrite ndiv_fin by lra.
  rewrite <- (Int_part_spec (v * 10 + / 2) z) by lra. reflexivity.
Qed.

Lemma hypot_zero (a b : R) : Math.hypot (Fin a - Fin a) (Fin b - Fin b) = Fin 0.
Proof.
  cbn. f_equal.
  replace ((a + - a) * (a + - a) + (b + - b) * (b + - b))%R with 0%R by lra.
  apply sqrt_0.
Qed.

(** The other mutations keep the screen position in step with the field
    position: placement and coordinate edit derive it from the field
    position they store, and the mirrors reflect both about the centre. *)
Lemma handleCanvasClick_inSync (V : variant) (st : State) (x y : num) :
  Forall (inSync V (image st)) (points st) ->
  Forall (inSync V (image (handleCanvasClick V st x y)))
    (points (handleCanvasClick V st x y)).
Proof.
  intros H. unfold handleCanvasClick.
  destruct (find (underPointer V x y) (points st)); [exact H|].
  destruct (pixelToFieldCoords V (image st) x y) as [fieldX fieldY].
  destruct (fieldToPixelCoords V (image st) (roundField V fieldX) (roundField V fieldY))
    as [px py] eqn:Hpx.
  cbn. apply Forall_app. split; [exact H|].
  constructor; [|constructor]. unfold inSync. cbn. symmetry. exact Hpx.
Qed.

Lemma updateSelectedPointFieldCoords_inSync (V : variant) (st : State)
  (fieldX fieldY : num) :
  Forall (inSync V (image st)) (points st) ->
  Forall (inSync V (image (updateSelectedPointFieldCoords V st fieldX fieldY)))
    (points (updateSelectedPointFieldCoords V st fieldX fieldY)).
Proof.
  intros H. unfold updateSelectedPointFieldCoords.
  destruct (selectedId st) as [selected|]; [|exact H].
  destruct (fieldToPixelCoords V (image st) fieldX fieldY) as [x y] eqn:Hxy.
  cbn. apply Forall_map. revert H. apply Forall_impl. intros p Hp.
  destruct (Point.id p =? selected)%Z; [|exact Hp].
  unfold inSync. cbn. symmetry. exact Hxy.
Qed.

(** Flip Y keeps a point at finite field coordinates in step. *)
Lemma flipPointY_inSync (V : variant) (img : Image) (p : Point) (a b : R) :
  Point.fieldX p = Fin a -> Point.fieldY p = Fin b ->
  inSync V (Some img) p -> inSync V (Some img) (flipPointY (Some img) p).
Proof.
  intros Ha Hb. unfold inSync, flipPointY, fieldToPixelCoords.
  destruct p as [x y fieldX fieldY id theta timeout speed forwards].
  cbn [Point.x Point.y Point.fieldX Point.fieldY Point.with_x imageWidth] in *.
  subst fieldX fieldY.
  intros H. injection H as -> ->.
  f_equal.
  destruct V; unfold pixelsPerInch, centerX, num_of_Z;
    rewrite !ndiv_fin by lra; cbn [nadd nsub nneg nmul];
    try rewrite !ndiv_fin by lra; cbn [nadd nsub nneg nmul]; f_equal; field.
Qed.

(** So does Flip X, on a square image. *)
Lemma flipPointX_inSync (V : variant) (img : Image) (p : Point) (a b : R) :
  width img = height img ->
  Point.fieldX p = Fin a -> Point.fieldY p = Fin b ->
  inSync V (Some img) p -> inSync V (Some img) (flipPointX (Some img) p).
Proof.
  intros Hsq Ha Hb. unfold inSync, flipPointX, fieldToPixelCoords.
  destruct p as [x y fieldX fieldY id theta timeout speed forwards].
  cbn [Point.x Point.y Point.fieldX Point.fieldY Point.with_y imageHeight] in *.
  subst fieldX fieldY.
  intros H. injection H as -> ->.
  f_equal.
  destruct V; unfold pixelsPerInch, centerY, num_of_Z; rewrite <- ?Hsq;
    rewrite !ndiv_fin by lra; cbn [nadd nsub nneg nmul];
    try rewrite !ndiv_fin by lra; cbn [nadd nsub nneg nmul]; f_equal; field.
Qed.

(** C2 at a drag: the waypoint at the centre of the field, grabbed and moved
    half a pixel to the right, keeps field position (0, 0), whose transform
    is the pixel (1000, 1000), while its stored screen position becomes
    (1000.5, 1000): the two no longer agree, although they did before the
    move. *)
Theorem drag_leaves_screen_position_unsynced :
  let st0 := editorWith [waypoint 0 1000 1000 0 0 0] 1 (Some 0%Z) in
  let st1 := handleMouseDown Extended st0 (Fin 1000) (Fin 1000) in
  let st2 := handleMouseMove Extended st1 (Fin (2001 / 2)) (Fin 1000) in
  Forall (inSync Extended (image st0)) (points st0) /\
  draggingId st1 = Some 0%Z /\
  exists p : Point,
    points st2 = [p] /\
    (Point.x p, Point.y p) = (Fin (2001 / 2), Fin 1000) /\
    fieldToPixelCoords Extended (image st2) (Point.fieldX p) (Point.fieldY p)
    = (Fin 1000, Fin 1000) /\
    ~ inSync Extended (image st2) p.
Proof.
  cbv zeta.
  assert (Hdown : handleMouseDown Extended
                    (editorWith [waypoint 0 1000 1000 0 0 0] 1 (Some 0%Z))
                    (Fin 1000) (Fin 1000)
                  = {| points := [waypoint 0 1000 1000 0 0 0]; nextId := 1;
                       image := Some field2000; draggingId := Some 0%Z;
                       hoveredId := None; selectedId := Some 0%Z;
                       hoveredPathProgress := None;
                       lastHoveredProgress := Fin 0 |}).
  { unfold handleMouseDown, editorWith. cbn [points find].
    unfold underPointer, waypoint. cbn [Point.x Point.y].
    rewrite hypot_zero. cbn [POINT_RADIUS nltb].
    rewrite Rltb_true by lra. reflexivity. }
  rewrite Hdown. clear Hdown.
  split; [|split; [reflexivity|]].
  - constructor; [|constructor].
    unfold inSync, editorWith, waypoint. cbn [image Point.x Point.y Point.fieldX Point.fieldY].
    rewrite fieldToPixelCoords_field2000. f_equal; f_equal; lra.
  - unfold handleMouseMove.
    cbn [points image draggingId set_hover getClosestPointOnPath length Nat.ltb Nat.leb].
    rewrite pixelToFieldCoords_field2000.
    rewrite (roundField_extended _ 0) by lra.
    rewrite (roundField_extended _ 0) by lra.
    cbn [map set_points points waypoint Point.id Z.eqb image].
    eexists. split; [reflexivity|].
    cbn [Point.with_coords Point.x Point.y Point.fieldX Point.fieldY].
    split; [reflexivity|].
    assert (Hpx : fieldToPixelCoords Extended (Some field2000) (Fin (0 / 10)) (Fin (0 / 10))
                  = (Fin 1000, Fin 1000)).
    { rewrite fieldToPixelCoords_field2000. f_equal; f_equal; lra. }
    split; [exact Hpx|].
    unfold inSync.
    cbn [image set_hover set_points Point.with_coords
           Point.x Point.y Point.fieldX Point.fieldY].
    rewrite Hpx. intros H. injection H as H. lra.
Qed.

(** ** Code emitter *)

Lemma ndiv_nan_l (b : num) : ndiv NaN b = NaN.
Proof. destruct b; reflexivity. Qed.

(** [Math.atan2] returns NaN or an angle of less than three quarter turns. *)
Lemma atan2_cases (y x : num) :
  Math.atan2 y x = NaN \/
  exists r : R, Math.atan2 y x = Fin r /\ (- (3 * PI / 2) < r < 3 * PI / 2)%R.
Proof.
  pose proof PI_RGT_0 as Hpi.
  destruct y as [y| | |], x as [x| | |]; cbn;
    try (left; reflexivity); right; eexists; (split; [reflexivity|]);
    try lra.
  - apply Ratan2_bound.
  - rdec.
Qed.

Lemma while_negative_nan (fuel : nat) :
  (1 <= fuel)%nat -> while_negative fuel NaN = Ok NaN.
Proof. destruct fuel; [lia | reflexivity]. Qed.

Lemma while_over_nan (fuel : nat) :
  (1 <= fuel)%nat -> while_over fuel NaN = Ok NaN.
Proof. destruct fuel; [lia | reflexivity]. Qed.

(** With fuel for two turns of each loop, [getEffectiveTheta] returns at
    every index of the sequence, whatever the coordinates. *)
Lemma getEffectiveTheta_total (fuel : nat) (points : list Point) (index : nat) :
  (2 <= fuel)%nat -> (index < length points)%nat ->
  exists t : num, getEffectiveTheta fuel points index = Ok t.
Proof.
  intros Hf Hi. pose proof PI_RGT_0 as Hpi.
  unfold getEffectiveTheta.
  destruct (nth_error points index) as [this|] eqn:Hthis;
    [|apply nth_error_None in Hthis; lia].
  destruct (Z.of_nat index <? Z.of_nat (length points) - 1)%Z eqn:Hlt;
    [|eauto].
  apply Z.ltb_lt in Hlt.
  destruct (nth_error points (index + 1)) as [next|] eqn:Hnext;
    [|apply nth_error_None in Hnext; lia].
  destruct (atan2_cases (nsub (Point.y next) (Point.y this))
              (nsub (Point.x next) (Point.x this))) as [-> | (r & -> & Hr)].
  - cbn [nadd nmul]. rewrite ndiv_nan_l.
    rewrite while_negative_nan by lia. cbn [bind].
    rewrite while_over_nan by lia. cbn [bind]. eauto.
  - rewrite degrees_fin.
    set (raw := ((r + PI / 2) * 180 / PI)%R).
    assert (Hraw : (-180 < raw < 360)%R).
    { unfold raw. split.
      - apply Rmult_lt_reg_r with (r := PI); [assumption|].
        unfold Rdiv. rewrite Rmult_assoc, Rinv_l by lra. lra.
      - apply Rmult_lt_reg_r with (r := PI); [assumption|].
        unfold Rdiv. rewrite Rmult_assoc, Rinv_l by lra. lra. }
    destruct (while_negative_fin fuel raw) as (d & Hw & Hd0 & Hcase & Hid);
      [assumption | lra |].
    rewrite Hw. cbn [bind].
    assert (Hd : (d < 360)%R)
      by (destruct Hcase; [lra|]; destruct (Rlt_dec raw 0); lra).
    rewrite while_over_fin by (lia || assumption).
    cbn [bind]. eauto.
Qed.

Lemma forEachPoint_later (V : variant) (fuel : nat) (points rest : list Point)
  (index : nat) (lines : list CodeLine) :
  forEachPoint V fuel points rest (S index) lines
  = Ok (lines ++ laterLines V (S index) rest).
Proof.
  revert index lines. induction rest as [|point rest IH]; intros index lines.
  - cbn. rewrite app_nil_r. reflexivity.
  - cbn [forEachPoint]. unfold emitPoint. cbn [Nat.eqb bind].
    rewrite IH. cbn [laterLines]. rewrite <- !app_assoc. reflexivity.
Qed.

Lemma laterLines_length (V : variant) (index : nat) (rest : list Point) :
  length (laterLines V index rest) = (3 * length rest)%nat.
Proof.
  revert index. induction rest as [|p rest IH]; intros index; cbn; [reflexivity|].
  rewrite IH. lia.
Qed.

Lemma laterLines_nth (V : variant) (index : nat) (rest : list Point) (i : nat)
  (p : Point) :
  nth_error rest i = Some p ->
  nth_error (laterLines V index rest) (3 * i) = Some separatorLine /\
  nth_error (laterLines V index rest) (3 * i + 1) = Some (turnLine V (index + i) p) /\
  nth_error (laterLines V index rest) (3 * i + 2) = Some (moveLine V (index + i) p).
Proof.
  revert index i. induction rest as [|q rest IH]; intros index i Hp.
  - destruct i; discriminate Hp.
  - destruct i as [|i].
    + injection Hp as ->. rewrite Nat.add_0_r. cbn. auto.
    + cbn in Hp. specialize (IH (S index) i Hp).
      replace (3 * S i)%nat with (S (S (S (3 * i)))) by lia.
      replace (index + S i)%nat with (S index + i)%nat by lia.
      cbn [laterLines Nat.add nth_error]. exact IH.
Qed.

(** C4 on the code: for a non-empty sequence the emitter returns
    [1 + 3 * (n - 1)] lines: the pose line of waypoint 0, carrying its
    rounded field coordinates and rounded effective heading, then for each
    later waypoint a separator, a turn line and a move line tagged with the
    waypoint's index.  The separator's [pointIndex] is the number -1, not
    [null], and the click handler of a line, which only guards against
    [null], throws on it. *)
Theorem generatedCodeLines_layout (V : variant) (fuel : nat) (first : Point)
  (rest : list Point) :
  (2 <= fuel)%nat ->
  exists (theta : num) (lines : list CodeLine),
    getEffectiveTheta fuel (first :: rest) 0 = Ok theta /\
    generatedCodeLines V fuel (first :: rest) = Ok lines /\
    length lines = (1 + 3 * (length (first :: rest) - 1))%nat /\
    nth_error lines 0
    = Some {| line := setPose (roundField V (Point.fieldX first))
                        (roundField V (Point.fieldY first)) (roundField V theta);
              pointIndex := Some 0%Z |} /\
    (forall (i : nat) (p : Point),
        nth_error rest i = Some p ->
        nth_error lines (3 * i + 1)
        = Some {| line := newline; pointIndex := Some (-1)%Z |} /\
        nth_error lines (3 * i + 2) = Some (turnLine V (i + 1) p) /\
        nth_error lines (3 * i + 3) = Some (moveLine V (i + 1) p)) /\
    (forall st : State,
        codeLineOnClick {| line := newline; pointIndex := Some (-1)%Z |} st
        = TypeError).
Proof.
  intros Hf.
  destruct (getEffectiveTheta_total fuel (first :: rest) 0 Hf) as [theta Htheta];
    [cbn; lia|].
  exists theta. eexists.
  split; [exact Htheta|]. split.
  - unfold generatedCodeLines. cbn [length Nat.eqb forEachPoint].
    unfold emitPoint at 1. cbn [Nat.eqb]. rewrite Htheta. cbn [bind app].
    rewrite forEachPoint_later. reflexivity.
  - cbn [app length]. rewrite laterLines_length.
    split; [lia|]. split; [reflexivity|]. split.
    + intros i p Hp.
      destruct (laterLines_nth V 1 rest i p Hp) as (H1 & H2 & H3).
      replace (3 * i + 1)%nat with (S (3 * i)) by lia.
      replace (3 * i + 2)%nat with (S (3 * i + 1)) by lia.
      replace (3 * i + 3)%nat with (S (3 * i + 2)) by lia.
      replace (i + 1)%nat with (1 + i)%nat by lia.
      cbn [nth_error]. auto.
    + intros st. reflexivity.
Qed.

(** The theorem at the straight two-waypoint route. *)
Lemma generatedCodeLines_layout_witness :
  exists (theta : num) (lines : list CodeLine),
    getEffectiveTheta 2
      (waypoint 0 1000 1000 0 0 0 :: [waypoint 1 1161 1000 12 0 0]) 0
    = Ok theta /\
    generatedCodeLines Extended 2
      (waypoint 0 1000 1000 0 0 0 :: [waypoint 1 1161 1000 12 0 0])
    = Ok lines /\
    length lines
    = (1 + 3 * (length (waypoint 0 1000 1000 0 0 0 :: [waypoint 1 1161 1000 12 0 0])
                - 1))%nat /\
    nth_error lines 0
    = Some {| line :=
                setPose
                  (roundField Extended (Point.fieldX (waypoint 0 1000 1000 0 0 0)))
                  (roundField Extended (Point.fieldY (waypoint 0 1000 1000 0 0 0)))
                  (roundField Extended theta);
              pointIndex := Some 0%Z |} /\
    (forall (i : nat) (p : Point),
        nth_error [waypoint 1 1161 1000 12 0 0] i = Some p ->
        nth_error lines (3 * i + 1)
        = Some {| line := newline; pointIndex := Some (-1)%Z |} /\
        nth_error lines (3 * i + 2) = Some (turnLine Extended (i + 1) p) /\
        nth_error lines (3 * i + 3) = Some (moveLine Extended (i + 1) p)) /\
    (forall st : State,
        codeLineOnClick {| line := newline; pointIndex := Some (-1)%Z |} st
        = TypeError).
Proof.
  apply (generatedCodeLines_layout Extended 2 (waypoint 0 1000 1000 0 0 0)
           [waypoint 1 1161 1000 12 0 0]).
  lia.
Defined.

(** ** Path sampler *)

Lemma finite_x (p : Point) : screenFinite p = true -> Point.x p = Fin (rx p).
Proof.
  unfold screenFinite, rx. destruct (Point.x p); cbn; try discriminate. reflexivity.
Qed.

Lemma finite_y (p : Point) : screenFinite p = true -> Point.y p = Fin (ry p).
Proof.
  unfold screenFinite, ry.
  destruct (Point.x p), (Point.y p); cbn; try discriminate. reflexivity.
Qed.

Lemma segments_finite (ps : list Point) :
  allFinite ps -> Forall finiteSeg (segments ps).
Proof.
  unfold allFinite. induction ps as [|p ps IH]; intros H; [constructor|].
  destruct ps as [|q ps]; [constructor|].
  inversion H as [|? ? Hp Hps]; subst.
  cbn [segments]. constructor.
  - split; [exact Hp|]. inversion Hps; assumption.
  - apply IH. exact Hps.
Qed.

Lemma rlen_nonneg (s : Point * Point) : (0 <= rlen s)%R.
Proof. apply sqrt_pos. Qed.

Lemma rpath_cons (s : Point * Point) (segs : list (Point * Point)) :
  rpath (s :: segs) = (rlen s + rpath segs)%R.
Proof. reflexivity. Qed.

Lemma rpath_nil : rpath [] = 0%R.
Proof. reflexivity. Qed.

Lemma rpath_nonneg (segs : list (Point * Point)) : (0 <= rpath segs)%R.
Proof.
  induction segs as [|s segs IH]; [rewrite rpath_nil; lra|].
  rewrite rpath_cons. pose proof (rlen_nonneg s). lra.
Qed.

Lemma rpath_app (a b : list (Point * Point)) :
  rpath (a ++ b) = (rpath a + rpath b)%R.
Proof.
  induction a as [|s a IH]; [rewrite rpath_nil; cbn [app]; lra|].
  cbn [app]. rewrite !rpath_cons, IH. lra.
Qed.

Lemma sum_squares_nonneg (a b : R) : (0 <= a * a + b * b)%R.
Proof.
  pose proof (Rle_0_sqr a) as Ha. pose proof (Rle_0_sqr b) as Hb.
  unfold Rsqr in Ha, Hb. lra.
Qed.

Lemma segmentLength_fin (s : Point * Point) :
  finiteSeg s -> segmentLength s = Fin (rlen s).
Proof.
  intros [Hp Hq]. unfold segmentLength, rlen.
  rewrite (finite_x _ Hp), (finite_y _ Hp), (finite_x _ Hq), (finite_y _ Hq).
  cbn [nsub nneg nadd nmul].
  rewrite sqrt_fin by apply sum_squares_nonneg. reflexivity.
Qed.

(** A segment of length zero joins two points at the same position. *)
Lemma rlen_zero (s : Point * Point) :
  rlen s = 0%R -> rx (snd s) = rx (fst s) /\ ry (snd s) = ry (fst s).
Proof.
  unfold rlen. intros H.
  apply sqrt_eq_0 in H; [|apply sum_squares_nonneg].
  apply (Rplus_sqr_eq_0 (rx (snd s) - rx (fst s)) (ry (snd s) - ry (fst s))) in H.
  destruct H. split; lra.
Qed.

Lemma sumLengths_fin (segs : list (Point * Point)) (c : R) :
  Forall finiteSeg segs ->
  fold_left (fun d s => nadd d (segmentLength s)) segs (Fin c)
  = Fin (c + rpath segs).
Proof.
  revert c. induction segs as [|s segs IH]; intros c H; cbn [fold_left].
  - rewrite rpath_nil. f_equal; lra.
  - inversion H as [|? ? Hs Hsegs]; subst.
    rewrite (segmentLength_fin _ Hs). cbn [nadd]. rewrite IH by assumption.
    rewrite rpath_cons. f_equal; lra.
Qed.

Lemma totalLength_fin (ps : list Point) :
  allFinite ps -> totalLength ps = Fin (rpath (segments ps)).
Proof.
  intros H. unfold totalLength.
  rewrite sumLengths_fin by (apply segments_finite; exact H).
  f_equal; lra.
Qed.

(** The pose the sampler returns on the segment [s] at the fraction [t]. *)
Lemma walk_fin (segs : list (Point * Point)) (c T : R) :
  Forall finiteSeg segs ->
  (c <= T <= c + rpath segs)%R ->
  ((c < T)%R \/ exists s rest, segs = s :: rest /\ (0 < rlen s)%R) ->
  exists (pre : list (Point * Point)) (s : Point * Point)
         (post : list (Point * Point)) (t : R),
    segs = pre ++ s :: post /\
    (0 <= t <= 1)%R /\
    (0 < rlen s)%R /\
    (c + rpath pre + t * rlen s = T)%R /\
    (pre = [] \/ (c + rpath pre < T)%R) /\
    walk segs (map segmentLength segs) (Fin T) (Fin c)
    = Some (Pose.make (Fin (fst (lerp s t))) (Fin (snd (lerp s t)))
              (Math.atan2 (nsub (Point.y (snd s)) (Point.y (fst s)))
                 (nsub (Point.x (snd s)) (Point.x (fst s))))).
Proof.
  revert c. induction segs as [|s segs IH]; intros c Hfin HT Hstart.
  - rewrite rpath_nil in HT.
    destruct Hstart as [Hlt | (s & rest & Hs & _)]; [lra | discriminate Hs].
  - inversion Hfin as [|? ? Hs Hsegs]; subst.
    rewrite rpath_cons in HT.
    pose proof (rlen_nonneg s) as Hlen.
    destruct (Rle_dec T (c + rlen s)) as [Hsel | Hnext].
    + assert (Hpos : (0 < rlen s)%R).
      { destruct Hstart as [Hlt | (s' & rest & Heq & Hs')]; [lra|].
        injection Heq as <- <-. exact Hs'. }
      exists [], s, segs, ((T - c) / rlen s)%R.
      split; [reflexivity|]. split.
      { split.
        - apply Rmult_le_pos; [lra | left; apply Rinv_0_lt_compat; exact Hpos].
        - apply Rmult_le_reg_r with (r := rlen s); [exact Hpos|].
          unfold Rdiv. rewrite Rmult_assoc, Rinv_l by lra. lra. }
      split; [exact Hpos|]. split.
      { rewrite rpath_nil. field. lra. }
      split; [left; reflexivity|].
      destruct s as [this next]. destruct Hs as [Hthis Hnext]. cbn [fst snd] in *.
      cbn [walk map]. rewrite (segmentLength_fin (this, next)) by (split; assumption).
      cbn [nadd]. unfold ngeb. cbn [nleb]. rewrite Rleb_true by exact Hsel.
      cbn [nsub nneg nadd]. rewrite ndiv_fin by lra.
      rewrite (finite_x _ Hthis), (finite_y _ Hthis),
        (finite_x _ Hnext), (finite_y _ Hnext).
      cbn [nsub nneg nadd nmul]. unfold lerp. cbn [fst snd].
      reflexivity.
    + assert (Hlt : (c + rlen s < T)%R) by lra.
      destruct (IH (c + rlen s)%R Hsegs) as (pre & s' & post & t & Hsplit & Ht & Hpos
                                            & Hdist & Hfirst & Hwalk).
      { lra. }
      { left. exact Hlt. }
      exists (s :: pre), s', post, t.
      split; [rewrite Hsplit; reflexivity|].
      split; [exact Ht|]. split; [exact Hpos|]. split.
      { rewrite rpath_cons. lra. }
      split.
      { right. rewrite rpath_cons. destruct Hfirst as [-> | H].
        - rewrite rpath_nil. lra.
        - lra. }
      destruct s as [this next].
      cbn [walk map]. rewrite (segmentLength_fin (this, next)) by exact Hs.
      cbn [nadd]. unfold ngeb. cbn [nleb]. rewrite Rleb_false by lra.
      exact Hwalk.
Qed.

(** The sampler on a path at finite positions, of positive length, at a
    progress between 0 and 1: it returns the point at the fraction [t] of a
    segment [s] of positive length, the first segment that reaches the
    distance [total * progress]; the prior segments and that fraction of
    [s] make up exactly that distance.  At progress 0 this needs the first
    segment to have positive length. *)
Lemma sample_fin (ps : list Point) (p : R) :
  allFinite ps ->
  (2 <= length ps)%nat ->
  (0 < rpath (segments ps))%R ->
  (0 <= p <= 1)%R ->
  ((0 < p)%R \/ exists s rest, segments ps = s :: rest /\ (0 < rlen s)%R) ->
  exists (pre : list (Point * Point)) (s : Point * Point)
         (post : list (Point * Point)) (t : R),
    segments ps = pre ++ s :: post /\
    (0 <= t <= 1)%R /\
    (0 < rlen s)%R /\
    (rpath pre + t * rlen s = rpath (segments ps) * p)%R /\
    (pre = [] \/ (rpath pre < rpath (segments ps) * p)%R) /\
    getRobotPositionAndRotation ps (Fin p)
    = Some (Pose.make (Fin (fst (lerp s t))) (Fin (snd (lerp s t)))
              (Math.atan2 (nsub (Point.y (snd s)) (Point.y (fst s)))
                 (nsub (Point.x (snd s)) (Point.x (fst s))))).
Proof.
  intros Hfin Hlen Htot Hp Hstart.
  destruct (walk_fin (segments ps) 0 (rpath (segments ps) * p))
    as (pre & s & post & t & Hsplit & Ht & Hpos & Hdist & Hfirst & Hwalk).
  - apply segments_finite. exact Hfin.
  - split; [apply Rmult_le_pos; lra|].
    rewrite Rplus_0_l. rewrite <- (Rmult_1_r (rpath (segments ps))) at 2.
    apply Rmult_le_compat_l; lra.
  - destruct Hstart as [Hp0 | Hseg]; [left | right; exact Hseg].
    apply Rmult_lt_0_compat; lra.
  - exists pre, s, post, t.
    split; [exact Hsplit|]. split; [exact Ht|]. split; [exact Hpos|].
    split; [lra|]. split; [destruct Hfirst; [left; assumption | right; lra]|].
    unfold getRobotPositionAndRotation.
    replace (length ps <? 2)%nat with false by (symmetry; apply Nat.ltb_ge; lia).
    rewrite (totalLength_fin ps Hfin). cbn [neqb nmul].
    rewrite Reqb_false by lra.
    unfold segmentLengths. rewrite Hwalk. reflexivity.
Qed.

Lemma segments_chain (ps : list Point) : chain (segments ps).
Proof.
  induction ps as [|p ps IH]; [exact I|].
  destruct ps as [|q ps]; [exact I|].
  destruct ps as [|r ps]; [exact I|].
  cbn [segments chain] in *. split; [reflexivity | exact IH].
Qed.

Lemma chain_tail (s : Point * Point) (segs : list (Point * Point)) :
  chain (s :: segs) -> chain segs.
Proof. destruct segs as [|b segs]; [intros; exact I | intros [_ H]; exact H]. Qed.

Lemma chain_app_r (l1 l2 : list (Point * Point)) :
  chain (l1 ++ l2) -> chain l2.
Proof.
  induction l1 as [|s l1 IH]; intros H; [exact H|].
  apply IH. exact (chain_tail _ _ H).
Qed.

Lemma chain_app_l (l1 l2 : list (Point * Point)) :
  chain (l1 ++ l2) -> chain l1.
Proof.
  induction l1 as [|s l1 IH]; intros H; [exact I|].
  destruct l1 as [|b l1]; [exact I|].
  cbn [app chain] in *. destruct H as [Hs H]. split; [exact Hs | apply IH; exact H].
Qed.

(** Along a run of segments of total length zero the position does not
    change. *)
Lemma chain_zero_end (s : Point * Point) (mid : list (Point * Point)) :
  chain (s :: mid) -> rpath mid = 0%R ->
  rx (snd (last mid s)) = rx (snd s) /\ ry (snd (last mid s)) = ry (snd s).
Proof.
  revert s. induction mid as [|m mid IH]; intros s Hchain Hzero.
  - cbn. split; reflexivity.
  - rewrite rpath_cons in Hzero.
    pose proof (rlen_nonneg m) as Hm. pose proof (rpath_nonneg mid) as Hmid.
    destruct Hchain as [Hshare Hchain].
    destruct (rlen_zero m) as [Hx Hy]; [lra|].
    destruct (IH m Hchain) as [IHx IHy]; [lra|].
    replace (last (m :: mid) s) with (last mid m)
      by (clear; revert m; induction mid as [|k mid IHm]; intros m;
          [reflexivity | cbn [last] in *; destruct mid; [reflexivity | apply IHm]]).
    rewrite IHx, IHy, Hx, Hy, Hshare. split; reflexivity.
Qed.

(** Two ways to single out a segment of the same list: the first singled
    out is at or before the second, or strictly after it. *)
Lemma split_compare (A : Type) (pre1 pre2 post1 post2 : list A) (s a : A) :
  pre1 ++ s :: post1 = pre2 ++ a :: post2 ->
  (exists mid, pre2 ++ [a] = pre1 ++ s :: mid) \/
  (exists mid, pre1 = pre2 ++ a :: mid).
Proof.
  revert pre2. induction pre1 as [|x pre1 IH]; intros pre2 H.
  - left. destruct pre2 as [|y pre2]; cbn [app] in *.
    + injection H as -> _. exists []. reflexivity.
    + injection H as -> H. exists (pre2 ++ [a]). reflexivity.
  - destruct pre2 as [|y pre2]; cbn [app] in *.
    + injection H as -> H. right. exists pre1. reflexivity.
    + injection H as -> H. destruct (IH pre2 H) as [[mid Hm] | [mid Hm]].
      * left. exists mid. rewrite Hm. reflexivity.
      * right. exists mid. rewrite Hm. reflexivity.
Qed.

Lemma last_cons_default (A : Type) (mid : list A) (s d : A) :
  last (s :: mid) d = last mid s.
Proof.
  revert s d. induction mid as [|m mid IH]; intros s d; [reflexivity|].
  change (last (s :: m :: mid) d) with (last (m :: mid) d).
  rewrite (IH m d), (IH m s). reflexivity.
Qed.

Lemma last_after (A : Type) (pre mid : list A) (s d : A) :
  last (pre ++ s :: mid) d = last mid s.
Proof.
  induction pre as [|x pre IH].
  - apply last_cons_default.
  - cbn [app]. rewrite last_cons_default.
    rewrite <- IH. destruct pre; cbn [app]; rewrite !last_cons_default; reflexivity.
Qed.

(** At the progress where the travelled distance reaches the end of a
    segment, the sampler returns the position of that segment's end
    waypoint. *)
Lemma sample_at_boundary (ps : list Point) (p : R)
  (pre : list (Point * Point)) (a : Point * Point) (post : list (Point * Point)) :
  allFinite ps ->
  (2 <= length ps)%nat ->
  (0 < rpath (segments ps))%R ->
  (0 < p <= 1)%R ->
  segments ps = pre ++ a :: post ->
  (rpath pre + rlen a = rpath (segments ps) * p)%R ->
  exists s : Point * Point,
    In s (segments ps) /\ (0 < rlen s)%R /\
    getRobotPositionAndRotation ps (Fin p)
    = Some (Pose.make (Fin (rx (snd a))) (Fin (ry (snd a)))
              (Math.atan2 (nsub (Point.y (snd s)) (Point.y (fst s)))
                 (nsub (Point.x (snd s)) (Point.x (fst s))))).
Proof.
  intros Hfin Hlen Htot Hp Hsplit Hbound.
  destruct (sample_fin ps p Hfin Hlen Htot) as
    (pre' & s & post' & t & Hsplit' & Ht & Hpos & Hdist & Hfirst & Hget);
    [lra | left; lra |].
  rewrite Hget. exists s.
  split; [rewrite Hsplit'; apply in_or_app; right; left; reflexivity|].
  split; [exact Hpos|].
  rewrite Hsplit in Hsplit'. symmetry in Hsplit'.
  destruct (split_compare _ pre' pre post' post s a Hsplit') as [[mid Hmid] | [mid Hmid]].
  - assert (Hpath : (rpath pre + rlen a = rpath pre' + rlen s + rpath mid)%R).
    { pose proof (f_equal rpath Hmid) as E.
      rewrite !rpath_app, !rpath_cons, rpath_nil in E. lra. }
    pose proof (rpath_nonneg mid) as Hmidpos.
    assert (Hle : (t * rlen s <= rlen s)%R).
    { rewrite <- (Rmult_1_l (rlen s)) at 2.
      apply Rmult_le_compat_r; lra. }
    assert (Hzero : rpath mid = 0%R) by lra.
    assert (Ht1 : t = 1%R).
    { apply Rmult_eq_reg_r with (r := rlen s); lra. }
    assert (Hchain : chain (s :: mid)).
    { pose proof (segments_chain ps) as Hc. rewrite Hsplit in Hc.
      replace (pre ++ a :: post) with ((pre ++ [a]) ++ post) in Hc
        by (rewrite <- app_assoc; reflexivity).
      rewrite Hmid in Hc. apply chain_app_l in Hc. apply chain_app_r in Hc.
      exact Hc. }
    assert (Hlast : last mid s = a).
    { rewrite <- (last_after _ pre' mid s s), <- Hmid. apply last_last. }
    destruct (chain_zero_end s mid Hchain Hzero) as [Hx Hy].
    rewrite Hlast in Hx, Hy.
    unfold lerp. cbn [fst snd]. subst t. rewrite Hx, Hy.
    f_equal. f_equal; f_equal; lra.
  - exfalso.
    assert (Hpath : (rpath pre' = rpath pre + rlen a + rpath mid)%R).
    { rewrite Hmid, rpath_app, rpath_cons. lra. }
    pose proof (rpath_nonneg mid) as Hmidpos.
    destruct Hfirst as [Hnil | Hlt]; [|lra].
    rewrite Hnil in Hmid. destruct pre; discriminate Hmid.
Qed.

Lemma totalLength_positive (ps : list Point) :
  allFinite ps -> totalLength ps <> Fin 0 -> (0 < rpath (segments ps))%R.
Proof.
  intros Hfin Hne. rewrite (totalLength_fin ps Hfin) in Hne.
  pose proof (rpath_nonneg (segments ps)) as H.
  destruct (Req_dec_T (rpath (segments ps)) 0) as [E | E]; [|lra].
  exfalso. apply Hne. rewrite E. reflexivity.
Qed.

Lemma segments_last (ps : list Point) (pre : list (Point * Point))
  (a : Point * Point) :
  segments ps = pre ++ [a] -> lastPoint ps = Some (snd a).
Proof.
  unfold lastPoint. revert pre.
  induction ps as [|p ps IH]; intros pre H.
  - destruct pre; discriminate H.
  - destruct ps as [|q ps]; [destruct pre; discriminate H|].
    destruct ps as [|r ps].
    + cbn [segments] in H. destruct pre as [|x pre].
      * injection H as <-. reflexivity.
      * injection H as _ H. destruct pre; discriminate H.
    + remember (q :: r :: ps) as tl eqn:Htl.
      destruct pre as [|x pre].
      * cbn [segments] in H. rewrite Htl in H. discriminate H.
      * cbn [segments] in H. rewrite Htl in H. rewrite <- Htl in H.
        injection H as _ H. specialize (IH pre H).
        rewrite Htl in *. cbn [length] in *.
        replace (S (S (S (length ps))) - 1)%nat with (S (S (length ps))) by lia.
        replace (S (S (length ps)) - 1)%nat with (S (length ps)) in IH by lia.
        exact IH.
Qed.

(** At progress 1 the sampler returns the last waypoint's position, with
    the direction of a segment of positive length as its rotation. *)
Lemma sample_at_end (ps : list Point) :
  allFinite ps -> (2 <= length ps)%nat -> totalLength ps <> Fin 0 ->
  exists (final : Point) (s : Point * Point),
    lastPoint ps = Some final /\
    In s (segments ps) /\ (0 < rlen s)%R /\
    getRobotPositionAndRotation ps (Fin 1)
    = Some (Pose.make (Point.x final) (Point.y final)
              (Math.atan2 (nsub (Point.y (snd s)) (Point.y (fst s)))
                 (nsub (Point.x (snd s)) (Point.x (fst s))))).
Proof.
  intros Hfin Hlen Hne.
  pose proof (totalLength_positive ps Hfin Hne) as Htot.
  destruct (exists_last (l := segments ps)) as (pre & a & Hsplit).
  { intros E. rewrite E, rpath_nil in Htot. lra. }
  pose proof (segments_last ps pre a Hsplit) as Hlast.
  destruct (sample_at_boundary ps 1 pre a []) as (s & Hin & Hpos & Hget);
    try assumption; [lra | |].
  { rewrite Hsplit, rpath_app, rpath_cons, rpath_nil. lra. }
  exists (snd a), s. split; [exact Hlast|]. split; [exact Hin|].
  split; [exact Hpos|].
  assert (Hfa : screenFinite (snd a) = true).
  { pose proof (segments_finite ps Hfin) as Hsegs.
    rewrite Hsplit in Hsegs. apply Forall_app in Hsegs.
    destruct Hsegs as [_ Hsegs]. inversion Hsegs as [|? ? [_ H] _]. exact H. }
  rewrite (finite_x _ Hfa), (finite_y _ Hfa). exact Hget.
Qed.

(** At progress 0 the sampler returns the first waypoint's position, when
    the first segment has a length. *)
Lemma sample_at_start (ps : list Point) (s : Point * Point)
  (rest : list (Point * Point)) :
  allFinite ps -> (2 <= length ps)%nat -> totalLength ps <> Fin 0 ->
  segments ps = s :: rest -> (0 < rlen s)%R ->
  nth_error ps 0 = Some (fst s) /\
  getRobotPositionAndRotation ps (Fin 0)
  = Some (Pose.make (Point.x (fst s)) (Point.y (fst s))
            (Math.atan2 (nsub (Point.y (snd s)) (Point.y (fst s)))
               (nsub (Point.x (snd s)) (Point.x (fst s))))).
Proof.
  intros Hfin Hlen Hne Hsegs Hpos.
  pose proof (totalLength_positive ps Hfin Hne) as Htot.
  split.
  { destruct ps as [|p [|q ps]]; try discriminate Hsegs.
    cbn [segments] in Hsegs. injection Hsegs as <- _. reflexivity. }
  destruct (sample_fin ps 0 Hfin Hlen Htot) as
    (pre & s' & post & t & Hsplit & Ht & Hpos' & Hdist & Hfirst & Hget);
    [lra | right; exists s, rest; split; assumption |].
  pose proof (rpath_nonneg pre) as Hpre.
  rewrite Rmult_0_r in Hdist, Hfirst.
  destruct Hfirst as [-> | Hlt]; [|lra].
  rewrite Hsegs in Hsplit. cbn [app] in Hsplit. injection Hsplit as <- _.
  rewrite rpath_nil, Rplus_0_l in Hdist.
  assert (Ht0 : t = 0%R).
  { destruct (Rmult_integral _ _ Hdist); lra. }
  rewrite Hget. subst t.
  assert (Hfs : screenFinite (fst s) = true).
  { pose proof (segments_finite ps Hfin) as H. rewrite Hsegs in H.
    inversion H as [|? ? [Hf _] _]. exact Hf. }
  rewrite (finite_x _ Hfs), (finite_y _ Hfs).
  unfold lerp. cbn [fst snd]. f_equal. f_equal; f_equal; lra.
Qed.

Lemma segmentLength_horizontal (i j : Z) (a b h fa fb ta tb : R) :
  (a <= b)%R ->
  segmentLength (waypoint i a h fa 0 ta, waypoint j b h fb 0 tb) = Fin (b - a).
Proof.
  intros Hab. unfold segmentLength, waypoint. cbn [fst snd Point.x Point.y].
  cbn [nsub nneg nadd nmul].
  rewrite sqrt_fin by apply sum_squares_nonneg.
  f_equal. apply sqrt_lem_1; [apply sum_squares_nonneg | lra | lra].
Qed.

Lemma Ratan2_right (x : R) : (0 < x)%R -> Math.Ratan2 0 x = 0%R.
Proof.
  intros Hx. unfold Math.Ratan2. rewrite Rltb_true by exact Hx.
  replace (0 / x)%R with 0%R by (field; lra). apply atan_0.
Qed.

(** At progress 1 on the straight route the sampler is still on the
    segment: it returns the last waypoint's position with the segment's
    direction. *)
Lemma sample_end_of_straightRoute :
  getRobotPositionAndRotation straightRoute (Fin 1)
  = Some (Pose.make (Fin 1161) (Fin 1000) (Fin 0)).
Proof.
  unfold getRobotPositionAndRotation, straightRoute.
  cbn [length Nat.ltb Nat.leb].
  unfold totalLength, segmentLengths. cbn [segments fold_left map].
  rewrite segmentLength_horizontal by lra. cbn [nadd neqb nmul].
  rewrite Reqb_false by lra.
  cbn [walk nadd]. unfold ngeb. cbn [nleb]. rewrite Rleb_true by lra.
  cbn [nsub nneg nadd]. rewrite ndiv_fin by lra.
  unfold waypoint. cbn [Point.x Point.y nsub nneg nadd nmul Math.atan2].
  replace (1000 + - (1000))%R with 0%R by lra.
  rewrite Ratan2_right by lra.
  f_equal. f_equal; f_equal; field.
Qed.

(** At progress 0 on the stacked route the first segment is selected and
    its zero length divides zero: the position is NaN. *)
Lemma sample_start_of_stackedRoute :
  getRobotPositionAndRotation stackedRoute (Fin 0)
  = Some (Pose.make NaN NaN (Fin 0)).
Proof.
  unfold getRobotPositionAndRotation, stackedRoute.
  cbn [length Nat.ltb Nat.leb].
  unfold totalLength, segmentLengths. cbn [segments fold_left map].
  rewrite !segmentLength_horizontal by lra. cbn [nadd neqb nmul].
  rewrite Reqb_false by lra.
  cbn [walk nadd]. unfold ngeb. cbn [nleb]. rewrite Rleb_true by lra.
  cbn [nsub nneg nadd].
  replace (1000 - 1000)%R with 0%R by lra.
  replace ((0 + 0 + (1161 - 1000)) * 0 + - 0)%R with 0%R by lra.
  rewrite ndiv_zero_zero.
  unfold waypoint. cbn [Point.x Point.y nsub nneg nadd nmul Math.atan2].
  replace (1000 + - (1000))%R with 0%R by lra.
  unfold Math.Ratan2. rewrite !Rltb_false by lra. reflexivity.
Qed.

(** C1 on the code: on the straight route, whose last waypoint stores the
    heading 0, the sampler at progress 1 returns the last waypoint's
    position with rotation 0 (the segment's direction), while the stored
    heading converted to screen radians is minus a quarter turn; and on the
    stacked route the sampler at progress 0 returns NaN coordinates, not
    the first waypoint's position. *)
Theorem sampler_boundary_values :
  getRobotPositionAndRotation straightRoute (Fin 1)
  = Some (Pose.make (Fin 1161) (Fin 1000) (Fin 0)) /\
  nmul (nsub (Fin 0) (Fin 90)) (ndiv Math.PI (Fin 180)) = Fin (- (PI / 2)) /\
  Fin (- (PI / 2)) <> Fin 0 /\
  getRobotPositionAndRotation stackedRoute (Fin 0)
  = Some (Pose.make NaN NaN (Fin 0)).
Proof.
  pose proof PI_RGT_0 as Hpi.
  split; [exact sample_end_of_straightRoute|]. split; [|split].
  - unfold Math.PI. rewrite ndiv_fin by lra. cbn. f_equal. field.
  - intros H. injection H as H. lra.
  - exact sample_start_of_stackedRoute.
Qed.

(** C6 where the sampler returns a position: for a path at finite screen
    positions, of non-zero length, and progress values [p1 < p2] between 0
    and 1 (with [p1 > 0], or a first segment of non-zero length), the
    sampler returns at [p1] and at [p2] points of the path, each at a
    fraction of a segment, whose distances along the path from its start
    are [total * p1] and [total * p2], the first no greater than the
    second; and where the distance travelled is the length up to the end
    of a segment, the position returned is the waypoint that segment
    shares with the next, the end of the one and the start of the other. *)
Theorem sampler_monotone_continuous (ps : list Point) (p1 p2 : R) :
  allFinite ps ->
  (2 <= length ps)%nat ->
  totalLength ps <> Fin 0 ->
  (0 <= p1)%R -> (p1 < p2)%R -> (p2 <= 1)%R ->
  ((0 < p1)%R \/ exists s rest, segments ps = s :: rest /\ (0 < rlen s)%R) ->
  (exists (pre1 : list (Point * Point)) (s1 : Point * Point)
          (post1 : list (Point * Point)) (t1 : R)
          (pre2 : list (Point * Point)) (s2 : Point * Point)
          (post2 : list (Point * Point)) (t2 : R) (rot1 rot2 : num),
      segments ps = pre1 ++ s1 :: post1 /\
      segments ps = pre2 ++ s2 :: post2 /\
      (0 <= t1 <= 1)%R /\ (0 <= t2 <= 1)%R /\
      getRobotPositionAndRotation ps (Fin p1)
      = Some (Pose.make (Fin (fst (lerp s1 t1))) (Fin (snd (lerp s1 t1))) rot1) /\
      getRobotPositionAndRotation ps (Fin p2)
      = Some (Pose.make (Fin (fst (lerp s2 t2))) (Fin (snd (lerp s2 t2))) rot2) /\
      (rpath pre1 + t1 * rlen s1 = rpath (segments ps) * p1)%R /\
      (rpath pre2 + t2 * rlen s2 = rpath (segments ps) * p2)%R /\
      (rpath pre1 + t1 * rlen s1 <= rpath pre2 + t2 * rlen s2)%R) /\
  (forall (pre : list (Point * Point)) (a : Point * Point)
          (post : list (Point * Point)),
      segments ps = pre ++ a :: post ->
      (rpath pre + rlen a = rpath (segments ps) * p2)%R ->
      (exists rotation : num,
          getRobotPositionAndRotation ps (Fin p2)
          = Some (Pose.make (Fin (rx (snd a))) (Fin (ry (snd a))) rotation)) /\
      lerp a 1 = (rx (snd a), ry (snd a)) /\
      (forall b post', post = b :: post' -> lerp b 0 = (rx (snd a), ry (snd a)))).
Proof.
  intros Hfin Hlen Hne Hp1 Hlt Hp2 Hstart.
  pose proof (totalLength_positive ps Hfin Hne) as Htot.
  split.
  - destruct (sample_fin ps p1 Hfin Hlen Htot) as
      (pre1 & s1 & post1 & t1 & Hs1 & Ht1 & _ & Hd1 & _ & Hg1);
      [lra | exact Hstart |].
    destruct (sample_fin ps p2 Hfin Hlen Htot) as
      (pre2 & s2 & post2 & t2 & Hs2 & Ht2 & _ & Hd2 & _ & Hg2);
      [lra | left; lra |].
    exists pre1, s1, post1, t1, pre2, s2, post2, t2.
    eexists. eexists.
    split; [exact Hs1|]. split; [exact Hs2|].
    split; [exact Ht1|]. split; [exact Ht2|].
    split; [exact Hg1|]. split; [exact Hg2|].
    split; [exact Hd1|]. split; [exact Hd2|].
    rewrite Hd1, Hd2. apply Rmult_le_compat_l; lra.
  - intros pre a post Hsplit Hbound. split; [|split].
    + destruct (sample_at_boundary ps p2 pre a post) as (s & _ & _ & Hget);
        try assumption; [lra|].
      eexists. exact Hget.
    + unfold lerp. cbn [fst snd]. f_equal; lra.
    + intros b post' ->.
      pose proof (segments_chain ps) as Hc. rewrite Hsplit in Hc.
      apply chain_app_r in Hc. destruct Hc as [Hshare _].
      unfold lerp. cbn [fst snd]. rewrite Hshare. f_equal; lra.
Qed.

(** The theorem on the straight route, at a quarter and at the end. *)
Lemma sampler_monotone_continuous_witness :
  (exists (pre1 : list (Point * Point)) (s1 : Point * Point)
          (post1 : list (Point * Point)) (t1 : R)
          (pre2 : list (Point * Point)) (s2 : Point * Point)
          (post2 : list (Point * Point)) (t2 : R) (rot1 rot2 : num),
      segments straightRoute = pre1 ++ s1 :: post1 /\
      segments straightRoute = pre2 ++ s2 :: post2 /\
      (0 <= t1 <= 1)%R /\ (0 <= t2 <= 1)%R /\
      getRobotPositionAndRotation straightRoute (Fin (/ 4))
      = Some (Pose.make (Fin (fst (lerp s1 t1))) (Fin (snd (lerp s1 t1))) rot1) /\
      getRobotPositionAndRotation straightRoute (Fin 1)
      = Some (Pose.make (Fin (fst (lerp s2 t2))) (Fin (snd (lerp s2 t2))) rot2) /\
      (rpath pre1 + t1 * rlen s1 = rpath (segments straightRoute) * / 4)%R /\
      (rpath pre2 + t2 * rlen s2 = rpath (segments straightRoute) * 1)%R /\
      (rpath pre1 + t1 * rlen s1 <= rpath pre2 + t2 * rlen s2)%R) /\
  (forall (pre : list (Point * Point)) (a : Point * Point)
          (post : list (Point * Point)),
      segments straightRoute = pre ++ a :: post ->
      (rpath pre + rlen a = rpath (segments straightRoute) * 1)%R ->
      (exists rotation : num,
          getRobotPositionAndRotation straightRoute (Fin 1)
          = Some (Pose.make (Fin (rx (snd a))) (Fin (ry (snd a))) rotation)) /\
      lerp a 1 = (rx (snd a), ry (snd a)) /\
      (forall b post', post = b :: post' -> lerp b 0 = (rx (snd a), ry (snd a)))).
Proof.
  apply (sampler_monotone_continuous straightRoute (/ 4) 1).
  - repeat constructor.
  - cbn. lia.
  - unfold totalLength, straightRoute. cbn [segments fold_left].
    rewrite segmentLength_horizontal by lra. cbn [nadd].
    intros H. injection H as H. lra.
  - lra.
  - lra.
  - lra.
  - left. lra.
Defined.

(** ** Proximity projector *)

Lemma rlen_lenSq (s : Point * Point) :
  (rlen s * rlen s
   = (rx (snd s) - rx (fst s)) * (rx (snd s) - rx (fst s))
     + (ry (snd s) - ry (fst s)) * (ry (snd s) - ry (fst s)))%R.
Proof. unfold rlen. apply sqrt_sqrt. apply sum_squares_nonneg. Qed.

Lemma rlen_pos_lenSq (s : Point * Point) :
  (0 < rlen s)%R ->
  (0 < (rx (snd s) - rx (fst s)) * (rx (snd s) - rx (fst s))
       + (ry (snd s) - ry (fst s)) * (ry (snd s) - ry (fst s)))%R.
Proof.
  intros H. rewrite <- rlen_lenSq. apply Rmult_lt_0_compat; exact H.
Qed.

Lemma rlen_zero_lenSq (s : Point * Point) :
  rlen s = 0%R ->
  ((rx (snd s) - rx (fst s)) * (rx (snd s) - rx (fst s))
   + (ry (snd s) - ry (fst s)) * (ry (snd s) - ry (fst s)) = 0)%R.
Proof. intros H. rewrite <- rlen_lenSq, H. lra. Qed.

Lemma min_fin (a b : R) : Math.min (Fin a) (Fin b) = Fin (Rmin a b).
Proof.
  unfold Math.min, Rmin. cbn [nleb]. unfold Rleb.
  destruct (Rle_dec a b); reflexivity.
Qed.

Lemma max_fin (a b : R) : Math.max (Fin a) (Fin b) = Fin (Rmax a b).
Proof.
  unfold Math.max, Rmax. cbn [nleb]. unfold Rleb.
  destruct (Rle_dec a b); reflexivity.
Qed.

(** A segment of zero length divides zero by zero: its distance is NaN and
    the scan passes over it. *)
Lemma scanSegment_degenerate (ps : list Point) (mx my : R) (best : Closest)
  (i : nat) (s : Point * Point) :
  finiteSeg s -> rlen s = 0%R ->
  scanSegment ps (Fin mx) (Fin my) best i s = best.
Proof.
  intros [Hp Hq] Hzero. destruct (rlen_zero s Hzero) as [Hx Hy].
  unfold scanSegment.
  rewrite (finite_x _ Hp), (finite_y _ Hp), (finite_x _ Hq), (finite_y _ Hq).
  rewrite Hx, Hy. cbn [nsub nneg nadd nmul].
  replace ((rx (fst s) + - rx (fst s)) * (rx (fst s) + - rx (fst s))
           + (ry (fst s) + - ry (fst s)) * (ry (fst s) + - ry (fst s)))%R
    with 0%R by lra.
  replace ((mx + - rx (fst s)) * (rx (fst s) + - rx (fst s))
           + (my + - ry (fst s)) * (ry (fst s) + - ry (fst s)))%R
    with 0%R by lra.
  rewrite ndiv_zero_zero. cbn. reflexivity.
Qed.

Lemma ngtb_fin (a b : R) : ngtb (Fin a) (Fin b) = Rltb b a.
Proof. reflexivity. Qed.

Lemma Forall_firstn (A : Type) (P : A -> Prop) (n : nat) (l : list A) :
  Forall P l -> Forall P (firstn n l).
Proof.
  intros H. rewrite <- (firstn_skipn n l) in H.
  apply Forall_app in H. exact (proj1 H).
Qed.

(** A segment of positive length is projected onto as the specification
    says, and replaces the closest so far when strictly nearer. *)
Lemma scanSegment_regular (ps : list Point) (mx my : R) (best : Closest)
  (i : nat) (s : Point * Point) :
  finiteSeg s -> (0 < rlen s)%R ->
  Forall finiteSeg (segments ps) -> (0 < rpath (segments ps))%R ->
  scanSegment ps (Fin mx) (Fin my) best i s
  = if nltb (Fin (rdist s (mx, my))) (closestDistance best)
    then closestOn (firstn i (segments ps)) s (rpath (segments ps)) (mx, my)
    else best.
Proof.
  intros [Hp Hq] Hpos Hfin Htot.
  pose proof (rlen_pos_lenSq s Hpos) as HlenSq.
  unfold scanSegment.
  rewrite (finite_x _ Hp), (finite_y _ Hp), (finite_x _ Hq), (finite_y _ Hq).
  cbn [nsub nneg nadd nmul].
  rewrite ndiv_fin by (unfold Rminus in HlenSq; lra).
  rewrite min_fin, max_fin.
  assert (Ht : Rmax 0 (Rmin 1
                 (((mx + - rx (fst s)) * (rx (snd s) + - rx (fst s))
                   + (my + - ry (fst s)) * (ry (snd s) + - ry (fst s)))
                  / ((rx (snd s) + - rx (fst s)) * (rx (snd s) + - rx (fst s))
                     + (ry (snd s) + - ry (fst s)) * (ry (snd s) + - ry (fst s)))))
               = rparam s (mx, my)).
  { unfold rparam. cbn [fst snd].
    destruct (Req_dec_T _ 0) as [E | _]; [lra | reflexivity]. }
  rewrite Ht. clear Ht.
  rewrite sqrt_fin by (unfold Rminus in HlenSq; lra).
  unfold sumLengths. rewrite (sumLengths_fin (segments ps) 0 Hfin).
  rewrite (sumLengths_fin (firstn i (segments ps)) 0)
    by (apply Forall_firstn; exact Hfin).
  cbn [nsub nneg nadd nmul Math.hypot].
  rewrite ngtb_fin, Rltb_true by lra. rewrite ndiv_fin by lra.
  assert (Hd : sqrt ((mx + - (rx (fst s) + rparam s (mx, my) * (rx (snd s) + - rx (fst s))))
                     * (mx + - (rx (fst s) + rparam s (mx, my) * (rx (snd s) + - rx (fst s))))
                     + (my + - (ry (fst s) + rparam s (mx, my) * (ry (snd s) + - ry (fst s))))
                       * (my + - (ry (fst s) + rparam s (mx, my) * (ry (snd s) + - ry (fst s)))))
               = rdist s (mx, my)).
  { unfold rdist, dist, rfoot, lerp. cbn [fst snd]. f_equal. unfold Rminus. ring. }
  rewrite Hd. clear Hd.
  destruct (nltb (Fin (rdist s (mx, my))) (closestDistance best)); [|reflexivity].
  unfold closestOn, rfoot, lerp. cbn [fst snd].
  replace (rx (fst s) + rparam s (mx, my) * (rx (snd s) + - rx (fst s)))%R
    with (rx (fst s) + (rx (snd s) - rx (fst s)) * rparam s (mx, my))%R
    by (unfold Rminus; ring).
  replace (ry (fst s) + rparam s (mx, my) * (ry (snd s) + - ry (fst s)))%R
    with (ry (fst s) + (ry (snd s) - ry (fst s)) * rparam s (mx, my))%R
    by (unfold Rminus; ring).
  replace (sqrt ((rx (snd s) + - rx (fst s)) * (rx (snd s) + - rx (fst s))
                 + (ry (snd s) + - ry (fst s)) * (ry (snd s) + - ry (fst s))))
    with (rlen s) by reflexivity.
  rewrite !Rplus_0_l. reflexivity.
Qed.

Lemma rpath_member (segs : list (Point * Point)) (s : Point * Point) :
  In s segs -> (rlen s <= rpath segs)%R.
Proof.
  induction segs as [|a segs IH]; intros H; [contradiction|].
  rewrite rpath_cons. pose proof (rlen_nonneg a). pose proof (rpath_nonneg segs).
  destruct H as [-> | H]; [lra | specialize (IH H); lra].
Qed.

Lemma scanInvariant_step (ps : list Point) (mx my : R)
  (done : list (Point * Point)) (s : Point * Point) (segs : list (Point * Point))
  (best : Closest) :
  Forall finiteSeg (segments ps) ->
  segments ps = done ++ s :: segs ->
  scanInvariant (rpath (segments ps)) (mx, my) done best ->
  scanInvariant (rpath (segments ps)) (mx, my) (done ++ [s])
    (scanSegment ps (Fin mx) (Fin my) best (length done) s).
Proof.
  intros Hfin Hsplit Hinv.
  assert (Hs : finiteSeg s).
  { apply (proj1 (Forall_forall _ _) Hfin). rewrite Hsplit.
    apply in_or_app. right. left. reflexivity. }
  pose proof (rlen_nonneg s) as Hnonneg.
  destruct (Req_dec_T (rlen s) 0) as [Hzero | Hne].
  - rewrite scanSegment_degenerate by assumption.
    destruct Hinv as [[-> Hdone] | (pre & s0 & post & -> & Hpos & -> & Hall & Hpre)].
    + left. split; [reflexivity|].
      rewrite rpath_app, rpath_cons, rpath_nil. lra.
    + right. exists pre, s0, (post ++ [s]).
      split; [rewrite <- app_assoc; reflexivity|].
      split; [exact Hpos|]. split; [reflexivity|]. split; [|exact Hpre].
      intros s' Hin Hs'. apply in_app_or in Hin.
      destruct Hin as [Hin | [<- | []]]; [apply Hall; assumption | lra].
  - assert (Hpos : (0 < rlen s)%R) by lra.
    assert (Htot : (0 < rpath (segments ps))%R).
    { assert (In s (segments ps))
        by (rewrite Hsplit; apply in_or_app; right; left; reflexivity).
      pose proof (rpath_member _ _ H). lra. }
    rewrite scanSegment_regular by assumption.
    assert (Hfirstn : firstn (length done) (segments ps) = done).
    { rewrite Hsplit. rewrite firstn_app, Nat.sub_diag, firstn_all, firstn_0.
      apply app_nil_r. }
    rewrite Hfirstn.
    destruct Hinv as [[-> Hdone] | (pre & s0 & post & -> & Hpos0 & -> & Hall & Hpre)].
    + cbn [noClosest closestDistance nltb].
      right. exists done, s, [].
      split; [reflexivity|]. split; [exact Hpos|]. split; [reflexivity|].
      assert (Hnone : forall s', In s' done -> (0 < rlen s')%R -> False).
      { intros s' Hin Hs'. pose proof (rpath_member _ _ Hin). lra. }
      split.
      * intros s' Hin Hs'. apply in_app_or in Hin.
        destruct Hin as [Hin | [<- | []]]; [destruct (Hnone s' Hin Hs') | lra].
      * intros s' Hin Hs'. destruct (Hnone s' Hin Hs').
    + cbn [closestOn closestDistance nltb].
      destruct (Rlt_dec (rdist s (mx, my)) (rdist s0 (mx, my))) as [Hlt | Hge].
      * rewrite Rltb_true by exact Hlt.
        right. exists (pre ++ s0 :: post), s, [].
        split; [reflexivity|]. split; [exact Hpos|]. split; [reflexivity|].
        split.
        -- intros s' Hin Hs'. apply in_app_or in Hin.
           destruct Hin as [Hin | [<- | []]]; [|lra].
           specialize (Hall s' Hin Hs'). lra.
        -- intros s' Hin Hs'. specialize (Hall s' Hin Hs'). lra.
      * rewrite Rltb_false by lra.
        right. exists pre, s0, (post ++ [s]).
        split; [rewrite <- app_assoc; reflexivity|].
        split; [exact Hpos0|]. split; [reflexivity|]. split; [|exact Hpre].
        intros s' Hin Hs'. apply in_app_or in Hin.
        destruct Hin as [Hin | [<- | []]]; [apply Hall; assumption | lra].
Qed.

Lemma scan_invariant (ps : list Point) (mx my : R)
  (segs done : list (Point * Point)) (best : Closest) :
  Forall finiteSeg (segments ps) ->
  segments ps = done ++ segs ->
  scanInvariant (rpath (segments ps)) (mx, my) done best ->
  scanInvariant (rpath (segments ps)) (mx, my) (segments ps)
    (scan ps (Fin mx) (Fin my) segs (length done) best).
Proof.
  intros Hfin. revert done best.
  induction segs as [|s segs IH]; intros done best Hsplit Hinv.
  - rewrite app_nil_r in Hsplit. subst done. exact Hinv.
  - cbn [scan].
    replace (S (length done)) with (length (done ++ [s]))
      by (rewrite length_app; cbn; lia).
    apply IH.
    + rewrite Hsplit, <- app_assoc. reflexivity.
    + apply (scanInvariant_step ps mx my done s segs best); assumption.
Qed.

(** The squared distance from the query to the point of a segment at the
    fraction [u], against that at the fraction [t]. *)
Lemma lerp_sqdist_diff (s : Point * Point) (q : R * R) (u t : R) :
  let dx := (rx (snd s) - rx (fst s))%R in
  let dy := (ry (snd s) - ry (fst s))%R in
  let L := (dx * dx + dy * dy)%R in
  let dot := ((fst q - rx (fst s)) * dx + (snd q - ry (fst s)) * dy)%R in
  (((fst q - fst (lerp s u)) * (fst q - fst (lerp s u))
    + (snd q - snd (lerp s u)) * (snd q - snd (lerp s u)))
   - ((fst q - fst (lerp s t)) * (fst q - fst (lerp s t))
      + (snd q - snd (lerp s t)) * (snd q - snd (lerp s t)))
   = (u - t) * ((u + t) * L - 2 * dot))%R.
Proof. cbv zeta. unfold lerp. cbn [fst snd]. ring. Qed.

(** The clamped parameter minimises the distance over the segment. *)
Lemma rparam_optimal (s : Point * Point) (q : R * R) (u : R) :
  (0 <= u <= 1)%R ->
  let dx := (rx (snd s) - rx (fst s))%R in
  let dy := (ry (snd s) - ry (fst s))%R in
  let L := (dx * dx + dy * dy)%R in
  let dot := ((fst q - rx (fst s)) * dx + (snd q - ry (fst s)) * dy)%R in
  (0 <= (u - rparam s q) * ((u + rparam s q) * L - 2 * dot))%R.
Proof.
  intros Hu. cbv zeta. unfold rparam.
  set (dx := (rx (snd s) - rx (fst s))%R).
  set (dy := (ry (snd s) - ry (fst s))%R).
  set (L := (dx * dx + dy * dy)%R).
  set (dot := ((fst q - rx (fst s)) * dx + (snd q - ry (fst s)) * dy)%R).
  assert (HL : (0 <= L)%R) by apply sum_squares_nonneg.
  destruct (Req_dec_T L 0) as [HL0 | HLne].
  - assert (Hdx : dx = 0%R /\ dy = 0%R).
    { apply (Rplus_sqr_eq_0 dx dy). exact HL0. }
    destruct Hdx as [Hdx Hdy].
    assert (Hdot : dot = 0%R) by (unfold dot; rewrite Hdx, Hdy; ring).
    rewrite HL0, Hdot.
    replace ((u - 0) * ((u + 0) * 0 - 2 * 0))%R with 0%R by ring. lra.
  - assert (HLpos : (0 < L)%R) by lra.
    set (tau := (dot / L)%R).
    assert (Htau : (tau * L = dot)%R) by (unfold tau; field; lra).
    unfold Rmax, Rmin.
    destruct (Rle_dec 1 tau) as [H1 | H1].
    + destruct (Rle_dec 0 1) as [_ | H0]; [|lra].
      (* the far end *)
      assert (Hdot : (L <= dot)%R).
      { rewrite <- Htau. rewrite <- (Rmult_1_l L) at 1.
        apply Rmult_le_compat_r; lra. }
      replace ((u - 1) * ((u + 1) * L - 2 * dot))%R
        with ((1 - u) * ((1 - u) * L + 2 * (dot - L)))%R by ring.
      apply Rmult_le_pos; [lra|].
      apply Rplus_le_le_0_compat; [apply Rmult_le_pos; lra | lra].
    + destruct (Rle_dec 0 tau) as [H0 | H0].
      * (* the foot of the perpendicular *)
        rewrite <- Htau.
        replace ((u - tau) * ((u + tau) * L - 2 * (tau * L)))%R
          with (L * ((u - tau) * (u - tau)))%R by ring.
        apply Rmult_le_pos; [lra|].
        pose proof (Rle_0_sqr (u - tau)) as Hsq. unfold Rsqr in Hsq. exact Hsq.
      * (* the near end *)
        assert (Hdot : (dot <= 0)%R).
        { rewrite <- Htau.
          replace (tau * L)%R with (- ((- tau) * L))%R by ring.
          assert (0 <= (- tau) * L)%R by (apply Rmult_le_pos; lra). lra. }
        replace ((u - 0) * ((u + 0) * L - 2 * dot))%R
          with (u * (u * L + 2 * (- dot)))%R by ring.
        apply Rmult_le_pos; [lra|].
        apply Rplus_le_le_0_compat; [apply Rmult_le_pos; lra | lra].
Qed.

(** The foot is the point of the segment nearest to the query. *)
Lemma foot_nearest (s : Point * Point) (q : R * R) (u : R) :
  (0 <= u <= 1)%R -> (rdist s q <= dist q (lerp s u))%R.
Proof.
  intros Hu. unfold rdist, rfoot, dist.
  apply sqrt_le_1_alt.
  pose proof (lerp_sqdist_diff s q u (rparam s q)) as Hdiff.
  pose proof (rparam_optimal s q u Hu) as Hopt.
  cbv zeta in Hdiff, Hopt. lra.
Qed.

Lemma rpath_pos_exists (l : list (Point * Point)) :
  (0 < rpath l)%R -> exists n, In n l /\ (0 < rlen n)%R.
Proof.
  induction l as [|a l IH]; intros H.
  - rewrite rpath_nil in H. lra.
  - rewrite rpath_cons in H. pose proof (rlen_nonneg a) as Ha.
    destruct (Req_dec_T (rlen a) 0) as [Hz | Hnz].
    + destruct IH as (n & Hin & Hn); [lra|]. exists n. split; [right|]; assumption.
    + exists a. split; [left; reflexivity | lra].
Qed.



Lemma chain_link (a : Point * Point) (z : list (Point * Point))
  (n : Point * Point) (rest : list (Point * Point)) :
  chain (a :: z ++ n :: rest) -> snd (last z a) = fst n.
Proof.
  revert a. induction z as [|m z IH]; intros a H.
  - destruct H as [H _]. exact H.
  - rewrite last_cons_default. apply IH.
    exact (chain_tail _ _ H).
Qed.





Lemma getClosestPointOnPath_scan (ps : list Point) (mx my : R) :
  allFinite ps -> (2 <= length ps)%nat ->
  exists best : Closest,
    scanInvariant (rpath (segments ps)) (mx, my) (segments ps) best /\
    getClosestPointOnPath ps (Fin mx) (Fin my)
    = if nltb (closestDistance best) (Fin 50)
      then Some (closestPoint best, closestProgress best)
      else None.
Proof.
  intros Hfin Hlen.
  exists (scan ps (Fin mx) (Fin my) (segments ps) 0 noClosest). split.
  - apply (scan_invariant ps mx my (segments ps) [] noClosest).
    + apply segments_finite. exact Hfin.
    + reflexivity.
    + left. split; reflexivity.
  - unfold getClosestPointOnPath.
    replace (length ps <? 2)%nat with false by (symmetry; apply Nat.ltb_ge; lia).
    reflexivity.
Qed.


Lemma rparam_range (s : Point * Point) (q : R * R) : (0 <= rparam s q <= 1)%R.
Proof.
  unfold rparam. destruct (Req_dec_T _ 0); [lra|].
  unfold Rmax, Rmin.
  repeat match goal with |- context [Rle_dec ?a ?b] => destruct (Rle_dec a b) end;
    lra.
Qed.


(** The segments the scan visits are the legs of the path. *)
Lemma segments_legs (ps : list Point) : segments ps = legs ps.
Proof.
  unfold legs. induction ps as [|p ps IH]; [reflexivity|].
  destruct ps as [|q ps]; [reflexivity|].
  change (segments (p :: q :: ps)) with ((p, q) :: segments (q :: ps)).
  rewrite IH. reflexivity.
Qed.





(** * Further properties *)

(** ** Identifiers *)

Lemma map_id_preserved (f : Point -> Point) (ps : list Point) :
  (forall p, Point.id (f p) = Point.id p) ->
  map Point.id (map f ps) = map Point.id ps.
Proof.
  intros Hf. rewrite map_map. apply map_ext. exact Hf.
Qed.

Lemma In_id_preserved (f : Point -> Point) (ps : list Point) (p : Point) :
  (forall q, Point.id (f q) = Point.id q) ->
  In p (map f ps) -> exists q, In q ps /\ Point.id q = Point.id p.
Proof.
  intros Hf Hin. apply in_map_iff in Hin. destruct Hin as (q & <- & Hq).
  exists q. split; [exact Hq | symmetry; apply Hf].
Qed.

Lemma NoDup_map_filter (f : Point -> bool) (ps : list Point) :
  NoDup (map Point.id ps) -> NoDup (map Point.id (filter f ps)).
Proof.
  induction ps as [|p ps IH]; intros H; [exact H|].
  cbn [map] in H. inversion H as [|? ? Hnot Hrest]; subst.
  cbn [filter]. destruct (f p); [|apply IH; exact Hrest].
  cbn [map]. constructor; [|apply IH; exact Hrest].
  intros Hin. apply Hnot. apply in_map_iff in Hin. destruct Hin as (q & Hq & Hin).
  apply filter_In in Hin. apply in_map_iff. exists q. split; [exact Hq | apply Hin].
Qed.

(** A handler that maps the points through an id-preserving function, and
    leaves the counter alone, keeps the ids fresh. *)
Lemma idsFresh_map (st st' : State) (f : Point -> Point) :
  (forall p, Point.id (f p) = Point.id p) ->
  points st' = map f (points st) -> nextId st' = nextId st ->
  idsFresh st -> idsFresh st'.
Proof.
  intros Hf Hps Hn [Hnd Hlt]. unfold idsFresh. rewrite Hps, Hn. split.
  - rewrite map_id_preserved by exact Hf. exact Hnd.
  - intros p Hin. destruct (In_id_preserved f _ p Hf Hin) as (q & Hq & <-).
    apply Hlt. exact Hq.
Qed.

Lemma idsFresh_same (st st' : State) :
  points st' = points st -> nextId st' = nextId st ->
  idsFresh st -> idsFresh st'.
Proof.
  intros Hps Hn H. unfold idsFresh. rewrite Hps, Hn. exact H.
Qed.

(** The counter after an event is the counter before it, or that plus
    one. *)
Lemma nextId_handle (V : variant) (st : State) (e : Event) :
  nextId (handle V st e) = nextId st \/
  nextId (handle V st e) = plusOne (nextId st).
Proof.
  destruct e; cbn [handle].
  - unfold handleCanvasClick.
    destruct (find (underPointer V x y) (points st)); [left; reflexivity|].
    destruct (pixelToFieldCoords V (image st) x y) as [fieldX fieldY].
    destruct (fieldToPixelCoords V (image st) (roundField V fieldX)
                (roundField V fieldY)) as [px py].
    right. reflexivity.
  - unfold handleMouseDown.
    destruct (find (underPointer V x y) (points st)); left; reflexivity.
  - unfold handleMouseMove. cbn [draggingId set_hover].
    destruct (draggingId st) as [dragging|]; [|left; reflexivity].
    destruct (pixelToFieldCoords V _ x y) as [fieldX fieldY]. left. reflexivity.
  - left. reflexivity.
  - left. reflexivity.
  - unfold handleKeyDown. destruct (selectedId st) as [selected|];
      [destruct (isDeleteKey && canvasFocused)|]; left; reflexivity.
  - unfold updateSelectedPointFieldCoords.
    destruct (selectedId st) as [selected|]; [|left; reflexivity].
    destruct (fieldToPixelCoords V (image st) fieldX fieldY) as [x y].
    left. reflexivity.
  - unfold editTheta, thetaOnChange.
    destruct (selectedId st) as [selected|] eqn:Hsel; cbn [bind orUnchanged].
    + destruct (lastPoint (points st)) as [final|]; cbn [bind orUnchanged];
        [|left; reflexivity].
      destruct (handleInputChange (Fin 0) (Some (Fin 360))
                  (negb (selected =? Point.id final)%Z) parsed) as [v|];
        cbn [orUnchanged]; [|left; reflexivity].
      destruct (selected =? Point.id final)%Z; cbn [orUnchanged]; left; reflexivity.
    + destruct (handleInputChange (Fin 0) (Some (Fin 360)) false parsed);
        cbn [orUnchanged]; left; reflexivity.
  - left. reflexivity.
  - left. reflexivity.
  - left. reflexivity.
  - left. reflexivity.
  - left. reflexivity.
  - unfold selectPrevious. destruct (selectedId st); left; reflexivity.
  - unfold selectNext. destruct (selectedId st); left; reflexivity.
  - unfold codeLineOnClick. destruct (pointIndex item) as [i|]; [|left; reflexivity].
    destruct (if (i <? 0)%Z then None else nth_error (points st) (Z.to_nat i));
      cbn [orUnchanged]; left; reflexivity.
Qed.

Lemma idsFresh_handle (V : variant) (st : State) (e : Event) :
  (- 2 ^ 53 - 1 <= nextId st < 2 ^ 53)%Z ->
  idsFresh st -> idsFresh (handle V st e).
Proof.
  intros Hroom Hfresh. destruct e; cbn [handle].
  - (* placement or selection *)
    unfold handleCanvasClick.
    destruct (find (underPointer V x y) (points st));
      [apply (idsFresh_same st); [reflexivity | reflexivity | exact Hfresh]|].
    destruct (pixelToFieldCoords V (image st) x y) as [fieldX fieldY].
    destruct (fieldToPixelCoords V (image st) (roundField V fieldX)
                (roundField V fieldY)) as [px py].
    destruct Hfresh as [Hnd Hlt]. unfold idsFresh.
    cbn [points nextId set_selectedId set_nextId set_points].
    rewrite (plusOne_small _ Hroom). split.
    + rewrite map_app. cbn [map Point.id].
      apply NoDup_app; [exact Hnd | repeat constructor; intros [] |].
      intros a Hin [<- | []]. apply in_map_iff in Hin.
      destruct Hin as (q & Hq & Hin). specialize (Hlt q Hin). lia.
    + intros p Hin. apply in_app_or in Hin.
      destruct Hin as [Hin | [<- | []]]; [specialize (Hlt p Hin); lia | cbn; lia].
  - unfold handleMouseDown.
    destruct (find (underPointer V x y) (points st));
      apply (idsFresh_same st); try reflexivity; exact Hfresh.
  - unfold handleMouseMove. cbn [draggingId set_hover].
    destruct (draggingId st) as [dragging|];
      [|apply (idsFresh_same st); [reflexivity | reflexivity | exact Hfresh]].
    destruct (pixelToFieldCoords V _ x y) as [fieldX fieldY].
    apply (idsFresh_map st _
             (fun p => if (Point.id p =? dragging)%Z
                       then Point.with_coords p x y (roundField V fieldX)
                              (roundField V fieldY)
                       else p));
      [|reflexivity | reflexivity | exact Hfresh].
    intros p. destruct (Point.id p =? dragging)%Z; reflexivity.
  - apply (idsFresh_same st); [reflexivity | reflexivity | exact Hfresh].
  - apply (idsFresh_same st); [reflexivity | reflexivity | exact Hfresh].
  - unfold handleKeyDown. destruct (selectedId st) as [selected|]; [|exact Hfresh].
    destruct (isDeleteKey && canvasFocused); [|exact Hfresh].
    destruct Hfresh as [Hnd Hlt]. unfold idsFresh. cbn. split.
    + apply NoDup_map_filter. exact Hnd.
    + intros p Hin. apply filter_In in Hin. apply Hlt. apply Hin.
  - unfold updateSelectedPointFieldCoords.
    destruct (selectedId st) as [selected|]; [|exact Hfresh].
    destruct (fieldToPixelCoords V (image st) fieldX fieldY) as [x y].
    apply (idsFresh_map st _
             (fun p => if (Point.id p =? selected)%Z
                       then Point.with_coords p x y fieldX fieldY else p));
      [|reflexivity | reflexivity | exact Hfresh].
    intros p. destruct (Point.id p =? selected)%Z; reflexivity.
  - unfold editTheta, thetaOnChange.
    destruct (selectedId st) as [selected|] eqn:Hsel; cbn [bind orUnchanged].
    + destruct (lastPoint (points st)) as [final|]; cbn [bind orUnchanged];
        [|exact Hfresh].
      destruct (handleInputChange (Fin 0) (Some (Fin 360))
                  (negb (selected =? Point.id final)%Z) parsed) as [v|];
        cbn [orUnchanged]; [|exact Hfresh].
      destruct (selected =? Point.id final)%Z; cbn [orUnchanged]; [|exact Hfresh].
      apply (idsFresh_map st _
               (fun p => if (Point.id p =? selected)%Z
                         then Point.with_theta p v else p));
        [|reflexivity | reflexivity | exact Hfresh].
      intros p. destruct (Point.id p =? selected)%Z; reflexivity.
    + destruct (handleInputChange (Fin 0) (Some (Fin 360)) false parsed);
        cbn [orUnchanged]; exact Hfresh.
  - apply (idsFresh_map st _
             (fun p => match selectedId st with
                       | Some selected =>
                           if (Point.id p =? selected)%Z then withTimeout p v else p
                       | None => p
                       end)); [|reflexivity | reflexivity | exact Hfresh].
    intros p. destruct (selectedId st); [destruct (_ =? _)%Z|]; reflexivity.
  - apply (idsFresh_map st _
             (fun p => match selectedId st with
                       | Some selected =>
                           if (Point.id p =? selected)%Z then withSpeed p v else p
                       | None => p
                       end)); [|reflexivity | reflexivity | exact Hfresh].
    intros p. destruct (selectedId st); [destruct (_ =? _)%Z|]; reflexivity.
  - apply (idsFresh_map st _
             (fun p => match selectedId st with
                       | Some selected =>
                           if (Point.id p =? selected)%Z then withForwards p b else p
                       | None => p
                       end)); [|reflexivity | reflexivity | exact Hfresh].
    intros p. destruct (selectedId st); [destruct (_ =? _)%Z|]; reflexivity.
  - apply (idsFresh_map st _ (flipPointX (image st)));
      [|reflexivity | reflexivity | exact Hfresh].
    intros p. reflexivity.
  - apply (idsFresh_map st _ (flipPointY (image st)));
      [|reflexivity | reflexivity | exact Hfresh].
    intros p. reflexivity.
  - unfold selectPrevious. destruct (selectedId st); [|exact Hfresh].
    apply (idsFresh_same st); [reflexivity | reflexivity | exact Hfresh].
  - unfold selectNext. destruct (selectedId st); [|exact Hfresh].
    apply (idsFresh_same st); [reflexivity | reflexivity | exact Hfresh].
  - unfold codeLineOnClick. destruct (pointIndex item) as [i|]; [|exact Hfresh].
    destruct (if (i <? 0)%Z then None else nth_error (points st) (Z.to_nat i));
      cbn [orUnchanged]; [|exact Hfresh].
    apply (idsFresh_same st); [reflexivity | reflexivity | exact Hfresh].
Qed.

(** An import that is safe keeps the ids fresh and leaves room below
    2^53. *)
Lemma idsFresh_import (V : variant) (st : State) (parsed : option json)
  (room : Z) :
  (0 <= room <= 2 ^ 53)%Z -> safeImport room (ImportFile parsed) ->
  idsFresh st -> (0 <= nextId st)%Z ->
  exists st' : State,
    advance V st (ImportFile parsed) = Some st' /\ idsFresh st' /\
    (0 <= nextId st')%Z /\
    (nextId st' = nextId st \/ (nextId st' + room <= 2 ^ 53)%Z).
Proof.
  intros Hroom Hsafe Hfresh Hpos. cbn [advance].
  destruct parsed as [[| | | | |elems]|]; cbn [importRoute];
    try (exists st; split; [reflexivity|]; split; [exact Hfresh|];
         split; [exact Hpos | left; reflexivity]).
  cbn [safeImport] in Hsafe. destruct Hsafe as (ps & Hps & Hnd & Hids).
  rewrite (waypointsOf_inv elems ps Hps).
  destruct (waypointsOf_records ps) as [-> ->].
  destruct (maxId_greatest ps) as [Hlow Hall].
  assert (Hhigh : (maxId ps < 2 ^ 53 - room)%Z).
  { apply maxId_below; [lia|]. intros p Hp. specialize (Hids p Hp). lia. }
  eexists. split; [reflexivity|].
  unfold idsFresh. cbn [points nextId set_nextId set_selectedId set_points].
  rewrite plusOne_small by lia.
  split; [split; [exact Hnd|]|split; [lia | right; lia]].
  intros p Hp. specialize (Hall p Hp). lia.
Qed.

Lemma session_fresh (V : variant) (room : Z) (steps : list Step) (st : State) :
  (0 <= room <= 2 ^ 53)%Z -> (Z.of_nat (length steps) < room)%Z ->
  Forall (safeImport room) steps ->
  idsFresh st -> (0 <= nextId st)%Z ->
  (nextId st + Z.of_nat (length steps) <= 2 ^ 53)%Z ->
  exists st' : State,
    session V st steps = Some st' /\ idsFresh st' /\
    (0 <= nextId st' <= 2 ^ 53)%Z.
Proof.
  intros Hroom. revert st.
  induction steps as [|s steps IH]; intros st Hlen Hsafe Hfresh Hpos Hbound.
  - exists st. cbn [length] in Hbound.
    split; [reflexivity|]. split; [exact Hfresh | lia].
  - inversion Hsafe as [|? ? Hs Hrest]; subst.
    cbn [length] in Hlen, Hbound. cbn [session].
    destruct s as [e | parsed].
    + cbn [advance]. apply IH; try assumption; try lia.
      * apply idsFresh_handle; [lia | exact Hfresh].
      * destruct (nextId_handle V st e) as [-> | ->]; [lia|].
        rewrite plusOne_small by lia. lia.
      * destruct (nextId_handle V st e) as [-> | ->]; [lia|].
        rewrite plusOne_small by lia. lia.
    + destruct (idsFresh_import V st parsed room Hroom Hs Hfresh Hpos)
        as (st1 & Hst1 & Hfresh1 & Hpos1 & Hbound1).
      rewrite Hst1. apply IH; try assumption; lia.
Qed.

(** X1: no id is ever given to two waypoints, as long as 2^53 is out of
    reach.  Starting from a state whose ids are unique and below a next-id
    counter that is not negative, through any session (clicks, drags, key
    presses, edits, mirrors, selection, imports) that is short enough for
    the counter to stay below 2^53 and imports no array but such of
    waypoint records with ids that do not repeat and stay that far below
    2^53 too, the store stays typed and the ids stay unique and below the
    counter. *)
Theorem ids_stay_fresh (V : variant) (st : State) (steps : list Step) :
  idsFresh st -> (0 <= nextId st)%Z ->
  (nextId st + Z.of_nat (length steps) < 2 ^ 53)%Z ->
  Forall (safeImport (Z.of_nat (length steps) + 1)) steps ->
  exists st' : State,
    session V st steps = Some st' /\ idsFresh st' /\
    (0 <= nextId st' <= 2 ^ 53)%Z.
Proof.
  intros Hfresh Hpos Hbound Hsafe.
  apply (session_fresh V (Z.of_nat (length steps) + 1)); try assumption; lia.
Qed.

(** The theorem from the empty editor: a placement, a drag, an import and a
    deletion. *)
Lemma ids_stay_fresh_witness :
  exists st' : State,
    session Extended (initialState field2000)
      [Act (CanvasClick (Fin 1000) (Fin 1000));
       Act (MouseDown (Fin 1000) (Fin 1000));
       Act (MouseMove (Fin 1100) (Fin 900)); Act MouseUp;
       ImportFile (Some (JArray (map ERecord straightRoute)));
       Act (KeyDown true true)]
    = Some st' /\ idsFresh st' /\ (0 <= nextId st' <= 2 ^ 53)%Z.
Proof.
  apply (ids_stay_fresh Extended (initialState field2000)).
  - split; [constructor | intros p []].
  - cbn. lia.
  - cbn. lia.
  - repeat constructor.
    exists straightRoute. split; [reflexivity|]. split.
    + cbn. repeat constructor.
      * intros [H | []]. discriminate H.
      * intros [].
    + intros p [<- | [<- | []]]; cbn; lia.
Defined.

(** ** Deletion *)

Lemma filter_keep_all (A : Type) (f : A -> bool) (l : list A) :
  (forall a, In a l -> f a = true) -> filter f l = l.
Proof.
  induction l as [|a l IH]; intros H; [reflexivity|].
  cbn [filter]. rewrite (H a (or_introl eq_refl)).
  f_equal. apply IH. intros b Hb. apply H. right. exact Hb.
Qed.

(** X2: with the canvas focused and a waypoint selected, Delete or Backspace
    removes exactly that waypoint, keeps the others in their order, drops
    the selection and leaves the next-id counter, which stays above the
    removed id, so that the id is not given out again; with another key, or
    the canvas not focused, nothing changes. *)
Theorem handleKeyDown_deletes (st : State) (selected : Z) (q : Point) :
  idsFresh st ->
  selectedId st = Some selected ->
  In q (points st) -> Point.id q = selected ->
  (exists pre post : list Point,
      points st = pre ++ q :: post /\
      points (handleKeyDown true true st) = pre ++ post) /\
  S (length (points (handleKeyDown true true st))) = length (points st) /\
  (forall p, In p (points (handleKeyDown true true st)) -> Point.id p <> selected) /\
  selectedId (handleKeyDown true true st) = None /\
  selectedPoint (handleKeyDown true true st) = None /\
  nextId (handleKeyDown true true st) = nextId st /\
  (selected < nextId (handleKeyDown true true st))%Z /\
  (forall isDeleteKey canvasFocused : bool,
      isDeleteKey && canvasFocused = false ->
      handleKeyDown isDeleteKey canvasFocused st = st).
Proof.
  intros [Hnd Hlt] Hsel Hq Hid.
  destruct (in_split q (points st) Hq) as (pre & post & Hsplit).
  assert (Hother : forall p, In p (pre ++ post) -> Point.id p <> selected).
  { rewrite Hsplit, map_app in Hnd. cbn [map] in Hnd.
    apply NoDup_remove_2 in Hnd. intros p Hin Hp. apply Hnd.
    rewrite <- map_app. apply in_map_iff. exists p. split; [congruence | exact Hin]. }
  assert (Hfilter : filter (fun p => negb (Point.id p =? selected)%Z) (points st)
                    = pre ++ post).
  { rewrite Hsplit, filter_app. cbn [filter].
    rewrite Hid, Z.eqb_refl. cbn [negb].
    rewrite !filter_keep_all; [reflexivity | |].
    - intros p Hp. apply negb_true_iff, Z.eqb_neq, Hother, in_or_app. right. exact Hp.
    - intros p Hp. apply negb_true_iff, Z.eqb_neq, Hother, in_or_app. left. exact Hp. }
  assert (Hpts : points (handleKeyDown true true st) = pre ++ post).
  { unfold handleKeyDown. rewrite Hsel. cbn. exact Hfilter. }
  split; [exists pre, post; split; [exact Hsplit | exact Hpts]|].
  split; [rewrite Hpts, Hsplit, !length_app; cbn [length]; lia|].
  split; [rewrite Hpts; exact Hother|].
  unfold handleKeyDown, selectedPoint. rewrite Hsel. cbn.
  repeat (split; [reflexivity|]).
  split; [rewrite <- Hid; apply Hlt; exact Hq|].
  intros isDeleteKey canvasFocused ->. reflexivity.
Qed.

(** The theorem at the first waypoint of the straight route. *)
Lemma handleKeyDown_deletes_witness :
  (exists pre post : list Point,
      points (editorWith straightRoute 2 (Some 0%Z))
      = pre ++ waypoint 0 1000 1000 0 0 0 :: post /\
      points (handleKeyDown true true (editorWith straightRoute 2 (Some 0%Z)))
      = pre ++ post) /\
  S (length (points (handleKeyDown true true (editorWith straightRoute 2 (Some 0%Z)))))
  = length (points (editorWith straightRoute 2 (Some 0%Z))) /\
  (forall p,
      In p (points (handleKeyDown true true (editorWith straightRoute 2 (Some 0%Z)))) ->
      Point.id p <> 0%Z) /\
  selectedId (handleKeyDown true true (editorWith straightRoute 2 (Some 0%Z))) = None /\
  selectedPoint (handleKeyDown true true (editorWith straightRoute 2 (Some 0%Z))) = None /\
  nextId (handleKeyDown true true (editorWith straightRoute 2 (Some 0%Z)))
  = nextId (editorWith straightRoute 2 (Some 0%Z)) /\
  (0 < nextId (handleKeyDown true true (editorWith straightRoute 2 (Some 0%Z))))%Z /\
  (forall isDeleteKey canvasFocused : bool,
      isDeleteKey && canvasFocused = false ->
      handleKeyDown isDeleteKey canvasFocused (editorWith straightRoute 2 (Some 0%Z))
      = editorWith straightRoute 2 (Some 0%Z)).
Proof.
  apply (handleKeyDown_deletes (editorWith straightRoute 2 (Some 0%Z)) 0
           (waypoint 0 1000 1000 0 0 0)).
  - split.
    + cbn. repeat constructor; cbn; intros H;
        repeat (destruct H as [H | H]; try discriminate H); exact H.
    + intros p [<- | [<- | []]]; cbn; lia.
  - reflexivity.
  - left. reflexivity.
  - reflexivity.
Defined.

(** ** Simulation clock *)

Lemma segments_snoc (ps : list Point) (q p : Point) :
  segments ((ps ++ [q]) ++ [p]) = segments (ps ++ [q]) ++ [(q, p)].
Proof.
  induction ps as [|a ps IH]; [reflexivity|].
  cbn [app]. destruct ps as [|b ps]; [reflexivity|].
  cbn [app segments] in *. rewrite IH. reflexivity.
Qed.

(** X3: the total duration is the sum of the timeouts of all waypoints but
    the first: appending a waypoint adds its timeout, the timeout of the
    first waypoint does not count, and a single waypoint gives 0. *)
Theorem duration_counts_later_timeouts (first : Point) (rest : list Point)
  (p : Point) (v : num) :
  getTotalSimulationDuration ((first :: rest) ++ [p])
  = nadd (getTotalSimulationDuration (first :: rest)) (Point.timeout p) /\
  getTotalSimulationDuration (withTimeout first v :: rest)
  = getTotalSimulationDuration (first :: rest) /\
  getTotalSimulationDuration [first] = Fin 0.
Proof.
  split; [|split; [|reflexivity]].
  - destruct (exists_last (l := first :: rest)) as (ps & q & Hq); [discriminate|].
    rewrite Hq. unfold getTotalSimulationDuration.
    rewrite segments_snoc, fold_left_app. cbn [fold_left snd].
    rewrite !length_app. cbn [length].
    replace (length ps + 1 + 1 <? 2)%nat with false
      by (symmetry; apply Nat.ltb_ge; lia).
    destruct ps as [|a ps]; [reflexivity|].
    replace (length (a :: ps) + 1 <? 2)%nat with false
      by (symmetry; apply Nat.ltb_ge; cbn [length]; lia).
    reflexivity.
  - unfold getTotalSimulationDuration. cbn [length].
    destruct rest as [|q rest]; reflexivity.
Qed.

Lemma duration_fold_fin (segs : list (Point * Point)) (c : R) :
  Forall (fun s => exists t : R, Point.timeout (snd s) = Fin t /\ (0 <= t)%R) segs ->
  (0 <= c)%R ->
  exists d : R,
    fold_left (fun totalMs s => nadd totalMs (Point.timeout (snd s))) segs (Fin c)
    = Fin d /\ (c <= d)%R.
Proof.
  revert c. induction segs as [|s segs IH]; intros c H Hc.
  - exists c. split; [reflexivity | lra].
  - inversion H as [|? ? (t & Ht & Htpos) Hrest]; subst.
    cbn [fold_left]. rewrite Ht. cbn [nadd].
    destruct (IH (c + t)%R Hrest) as (d & Hd & Hle); [lra|].
    exists d. split; [exact Hd | lra].
Qed.

Lemma segments_timeouts (ps : list Point) :
  timeoutsFinite ps ->
  Forall (fun s => exists t : R, Point.timeout (snd s) = Fin t /\ (0 <= t)%R)
    (segments ps).
Proof.
  unfold timeoutsFinite. induction ps as [|p ps IH]; intros H; [constructor|].
  destruct ps as [|q ps]; [constructor|].
  inversion H as [|? ? _ Hps]; subst. cbn [segments].
  constructor; [inversion Hps; assumption | apply IH; exact Hps].
Qed.

Lemma duration_fin (ps : list Point) :
  timeoutsFinite ps ->
  exists d : R, getTotalSimulationDuration ps = Fin d /\ (0 <= d)%R.
Proof.
  intros H. unfold getTotalSimulationDuration.
  destruct (length ps <? 2)%nat; [exists 0%R; split; [reflexivity | lra]|].
  apply duration_fold_fin; [apply segments_timeouts; exact H | lra].
Qed.

(** X4: for timeouts that are finite and not negative, the progress at an
    elapsed time that is not negative lies between 0 and 1, does not
    decrease as time passes, is the elapsed share of a positive total
    duration, reaches 1 once the total duration has elapsed, and is 0 when
    there is no duration to run. *)
Theorem progress_from_elapsed_time (ps : list Point) (e1 e2 : R) :
  timeoutsFinite ps -> (0 <= e1)%R -> (e1 <= e2)%R ->
  exists d r1 r2 : R,
    getTotalSimulationDuration ps = Fin d /\
    getProgressFromElapsedTime ps (Fin e1) = Fin r1 /\
    getProgressFromElapsedTime ps (Fin e2) = Fin r2 /\
    (0 <= r1 <= r2)%R /\ (r2 <= 1)%R /\
    (0 < d -> e2 < d -> r2 = e2 / d)%R /\
    (0 < d -> d <= e2 -> r2 = 1)%R /\
    (d = 0 -> r2 = 0)%R.
Proof.
  intros Hfin He1 He2.
  destruct (duration_fin ps Hfin) as (d & Hd & Hdpos).
  exists d. unfold getProgressFromElapsedTime.
  destruct (length ps <? 2)%nat eqn:Hlen.
  { assert (d = 0%R).
    { unfold getTotalSimulationDuration in Hd. rewrite Hlen in Hd.
      injection Hd as <-. reflexivity. }
    exists 0%R, 0%R. repeat split; try reflexivity; try lra; try exact Hd. }
  rewrite Hd, ngtb_fin.
  destruct (Rlt_dec 0 d) as [Hpos | Hzero].
  - rewrite Rltb_true by exact Hpos. rewrite !ndiv_fin by lra. rewrite !min_fin.
    exists (Rmin 1 (e1 / d)), (Rmin 1 (e2 / d)).
    assert (H1 : (0 <= e1 / d)%R)
      by (apply Rmult_le_pos; [lra | left; apply Rinv_0_lt_compat; exact Hpos]).
    assert (H12 : (e1 / d <= e2 / d)%R)
      by (apply Rmult_le_compat_r; [left; apply Rinv_0_lt_compat; exact Hpos | lra]).
    split; [reflexivity|]. split; [reflexivity|]. split; [reflexivity|].
    assert (Hlt : (e2 < d -> e2 / d < 1)%R).
    { intros Hlt. apply Rmult_lt_reg_r with (r := d); [exact Hpos|].
      unfold Rdiv. rewrite Rmult_assoc, Rinv_l by lra. lra. }
    assert (Hge : (d <= e2 -> 1 <= e2 / d)%R).
    { intros Hge. apply Rmult_le_reg_r with (r := d); [exact Hpos|].
      unfold Rdiv. rewrite Rmult_assoc, Rinv_l by lra. lra. }
    unfold Rmin.
    destruct (Rle_dec 1 (e1 / d)) as [Ha | Ha];
      destruct (Rle_dec 1 (e2 / d)) as [Hb | Hb];
      (split; [lra|]); (split; [lra|]);
      (split; [intros _ Hx; specialize (Hlt Hx); lra|]);
      (split; [intros _ Hx; specialize (Hge Hx); lra|]); intros; lra.
  - rewrite Rltb_false by lra.
    exists 0%R, 0%R. repeat split; try reflexivity; try lra.
Qed.

Lemma straightRoute_timeouts : timeoutsFinite straightRoute.
Proof.
  repeat constructor; exists 1000%R; (split; [reflexivity | lra]).
Qed.

Lemma progress_from_elapsed_time_witness :
  exists d r1 r2 : R,
    getTotalSimulationDuration straightRoute = Fin d /\
    getProgressFromElapsedTime straightRoute (Fin 250) = Fin r1 /\
    getProgressFromElapsedTime straightRoute (Fin 500) = Fin r2 /\
    (0 <= r1 <= r2)%R /\ (r2 <= 1)%R /\
    (0 < d -> 500 < d -> r2 = 500 / d)%R /\
    (0 < d -> d <= 500 -> r2 = 1)%R /\
    (d = 0 -> r2 = 0)%R.
Proof.
  apply (progress_from_elapsed_time straightRoute 250 500).
  - exact straightRoute_timeouts.
  - lra.
  - lra.
Defined.

(** X5: pressing Run on an idle clock shows the robot; on a route without
    duration no animation starts, and on a route of positive duration the
    clock runs from the moment of the press: a frame before the end sets the
    progress to the elapsed share of the duration, whatever progress was
    kept from an earlier run, and asks for the next frame; a frame at or
    after the end sets the progress to 1, stops the clock and hides the
    robot. *)
Theorem run_cycle (ps : list Point) (c : Clock) (d now time : R) :
  getTotalSimulationDuration ps = Fin d -> (0 <= d)%R ->
  isRunning c = false -> (now <= time)%R ->
  let started := simulationEffect ps (Fin now) (runButton c) in
  let frame := step ps (Fin time) started in
  showBot started = true /\
  (d = 0%R -> isRunning started = false /\ pending started = None /\
              frame = started) /\
  (0 < d -> isRunning started = true /\ pending started = Some (Fin now))%R /\
  (0 < d -> time - now < d ->
   frame = {| isRunning := true; robotProgress := Fin ((time - now) / d);
              showBot := true; pending := Some (Fin now) |})%R /\
  (0 < d -> d <= time - now ->
   frame = {| isRunning := false; robotProgress := Fin 1;
              showBot := false; pending := None |})%R.
Proof.
  intros Hd Hd0 Hidle Hle started frame.
  assert (Hstarted :
    started = if Reqb d 0 then
                {| isRunning := false;
                   robotProgress := robotProgress (runButton c);
                   showBot := true; pending := None |}
              else
                {| isRunning := true;
                   robotProgress := robotProgress (runButton c);
                   showBot := true; pending := Some (Fin now) |}).
  { subst started. unfold simulationEffect, runButton. rewrite Hidle.
    cbn [negb isRunning showBot robotProgress pending].
    rewrite Hd. cbn [neqb]. reflexivity. }
  assert (Hprogress : (0 < d)%R ->
    getProgressFromElapsedTime ps (nsub (Fin time) (Fin now))
    = Fin (Rmin 1 ((time - now) / d))).
  { intros Hpos. unfold getProgressFromElapsedTime.
    destruct (length ps <? 2)%nat eqn:Hlen.
    - unfold getTotalSimulationDuration in Hd. rewrite Hlen in Hd.
      injection Hd as Hd. lra.
    - rewrite Hd, ngtb_fin, Rltb_true by exact Hpos.
      change (nsub (Fin time) (Fin now)) with (Fin (time - now)).
      rewrite ndiv_fin by lra. apply min_fin. }
  split; [rewrite Hstarted; destruct (Reqb d 0); reflexivity|].
  split; [|split; [|split]].
  - intros ->. subst frame. rewrite Hstarted, Reqb_true by reflexivity.
    repeat split.
  - intros Hpos. rewrite Hstarted, Reqb_false by lra. split; reflexivity.
  - intros Hpos Hlt. subst frame. rewrite Hstarted, Reqb_false by lra.
    unfold step. cbn [pending isRunning showBot].
    rewrite (Hprogress Hpos).
    assert (Hshare : ((time - now) / d < 1)%R).
    { apply Rmult_lt_reg_r with (r := d); [exact Hpos|].
      unfold Rdiv. rewrite Rmult_assoc, Rinv_l by lra. lra. }
    rewrite Rmin_right by lra.
    unfold ngeb. cbn [nleb]. rewrite Rleb_false by lra. reflexivity.
  - intros Hpos Hge. subst frame. rewrite Hstarted, Reqb_false by lra.
    unfold step. cbn [pending isRunning showBot].
    rewrite (Hprogress Hpos).
    assert (Hshare : (1 <= (time - now) / d)%R).
    { apply Rmult_le_reg_r with (r := d); [exact Hpos|].
      unfold Rdiv. rewrite Rmult_assoc, Rinv_l by lra. lra. }
    rewrite Rmin_left by lra.
    unfold ngeb. cbn [nleb]. rewrite Rleb_true by lra. reflexivity.
Qed.

Lemma run_cycle_witness :
  let started := simulationEffect straightRoute (Fin 0) (runButton initialClock) in
  let frame := step straightRoute (Fin 500) started in
  showBot started = true /\
  (1000%R = 0%R -> isRunning started = false /\ pending started = None /\
                   frame = started) /\
  (0 < 1000 -> isRunning started = true /\ pending started = Some (Fin 0))%R /\
  (0 < 1000 -> 500 - 0 < 1000 ->
   frame = {| isRunning := true; robotProgress := Fin ((500 - 0) / 1000);
              showBot := true; pending := Some (Fin 0) |})%R /\
  (0 < 1000 -> 1000 <= 500 - 0 ->
   frame = {| isRunning := false; robotProgress := Fin 1;
              showBot := false; pending := None |})%R.
Proof.
  apply (run_cycle straightRoute initialClock 1000 0 500).
  - cbn. f_equal. lra.
  - lra.
  - reflexivity.
  - lra.
Defined.

(** ** Number inputs *)

(** X6: a number input with bounds [min <= max] never hands a value
    outside them to its owner: a typed number, infinite ones included, is
    clamped to the bounds and a number within them is passed on as it is;
    from a value within the bounds and a step that is not negative the minus
    button gives a value between [min] and the old value, the plus button
    one between the old value and [max]; a read-only input hands on
    nothing. *)
Theorem numberInput_stays_in_range (min max value step : R) (parsed : num) :
  (min <= max)%R -> (min <= value <= max)%R -> (0 <= step)%R ->
  (forall v, handleInputChange (Fin min) (Some (Fin max)) false parsed = Some v ->
             exists r : R, v = Fin r /\ (min <= r <= max)%R) /\
  (forall p : R, (min <= p <= max)%R ->
     handleInputChange (Fin min) (Some (Fin max)) false (Fin p) = Some (Fin p)) /\
  (exists r : R, decrementButton (Fin min) (Fin value) (Fin step) = Fin r /\
                 (min <= r <= value)%R) /\
  (exists r : R, incrementButton (Some (Fin max)) (Fin value) (Fin step) = Fin r /\
                 (value <= r <= max)%R) /\
  handleInputChange (Fin min) (Some (Fin max)) true parsed = None.
Proof.
  intros Hmm Hv Hs. repeat split.
  - intros v. unfold handleInputChange.
    destruct parsed as [p| | |]; cbn [isNaN nltb ngtb]; [| | |discriminate].
    + destruct (Rlt_dec p min) as [Hlo | Hlo].
      * rewrite Rltb_true by exact Hlo. cbn [nltb].
        rewrite Rltb_false by lra. intros [= <-]. exists min. split; [reflexivity | lra].
      * rewrite Rltb_false by lra. cbn [nltb].
        destruct (Rlt_dec max p) as [Hhi | Hhi].
        -- rewrite Rltb_true by exact Hhi. intros [= <-].
           exists max. split; [reflexivity | lra].
        -- rewrite Rltb_false by lra. intros [= <-].
           exists p. split; [reflexivity | lra].
    + intros [= <-]. exists max. split; [reflexivity | lra].
    + rewrite Rltb_false by lra. intros [= <-]. exists min. split; [reflexivity | lra].
  - intros p Hp. unfold handleInputChange. cbn [isNaN nltb ngtb].
    rewrite Rltb_false by lra. cbn [nltb]. rewrite Rltb_false by lra. reflexivity.
  - unfold decrementButton. change (nsub (Fin value) (Fin step)) with (Fin (value - step)).
    rewrite max_fin. exists (Rmax min (value - step)). split; [reflexivity|].
    unfold Rmax. destruct (Rle_dec min (value - step)); lra.
  - unfold incrementButton. change (nadd (Fin value) (Fin step)) with (Fin (value + step)).
    rewrite min_fin. exists (Rmin max (value + step)). split; [reflexivity|].
    unfold Rmin. destruct (Rle_dec max (value + step)); lra.
Qed.

Lemma numberInput_stays_in_range_witness :
  (forall v, handleInputChange (Fin 0) (Some (Fin 360)) false PInf = Some v ->
             exists r : R, v = Fin r /\ (0 <= r <= 360)%R) /\
  (forall p : R, (0 <= p <= 360)%R ->
     handleInputChange (Fin 0) (Some (Fin 360)) false (Fin p) = Some (Fin p)) /\
  (exists r : R, decrementButton (Fin 0) (Fin 0) (Fin 1) = Fin r /\
                 (0 <= r <= 0)%R) /\
  (exists r : R, incrementButton (Some (Fin 360)) (Fin 0) (Fin 1) = Fin r /\
                 (0 <= r <= 360)%R) /\
  handleInputChange (Fin 0) (Some (Fin 360)) true PInf = None.
Proof.
  apply (numberInput_stays_in_range 0 360 0 1 PInf); lra.
Defined.

(** ** Screen and field positions in step *)

Lemma inStep_same (V : variant) (st st' : State) :
  points st' = points st -> image st' = image st ->
  inStep V st -> inStep V st'.
Proof. intros Hps Himg H. unfold inStep. rewrite Hps, Himg. exact H. Qed.

Lemma inStep_map (V : variant) (st st' : State) (f : Point -> Point) :
  (forall p, inSync V (image st) p -> inSync V (image st) (f p)) ->
  points st' = map f (points st) -> image st' = image st ->
  inStep V st -> inStep V st'.
Proof.
  intros Hf Hps Himg Hall. unfold inStep. rewrite Hps, Himg.
  apply Forall_map. revert Hall. apply Forall_impl. exact Hf.
Qed.

(** In exact arithmetic a mirror keeps a waypoint at a finite field
    position in step, on a square image. *)
Lemma steadyPoint_flipX (V : variant) (img : Image) (p : Point) :
  width img = height img ->
  steadyPoint V img p -> steadyPoint V img (flipPointX (Some img) p).
Proof.
  intros square (Hs & Hfx & Hfy).
  destruct (Point.fieldX p) as [a| | |] eqn:Ha; try discriminate.
  destruct (Point.fieldY p) as [b| | |] eqn:Hb; try discriminate.
  split; [apply (flipPointX_inSync V img p a b); assumption|].
  unfold flipPointX. cbn. rewrite Ha, Hb. split; reflexivity.
Qed.

Lemma steadyPoint_flipY (V : variant) (img : Image) (p : Point) :
  steadyPoint V img p -> steadyPoint V img (flipPointY (Some img) p).
Proof.
  intros (Hs & Hfx & Hfy).
  destruct (Point.fieldX p) as [a| | |] eqn:Ha; try discriminate.
  destruct (Point.fieldY p) as [b| | |] eqn:Hb; try discriminate.
  split; [apply (flipPointY_inSync V img p a b); assumption|].
  unfold flipPointY. cbn. rewrite Ha, Hb. split; reflexivity.
Qed.

(** On binary64 numbers a mirror does not: the waypoint at field height
    1.9 of a 2000-pixel image is stored at screen height
    974.50833333333333; Flip X stores 1025.4916666666668 with the field
    height -1.9, whose transform is 1025.4916666666666. *)
Lemma flipX_binary64_out_of_step :
  Binary64.mirrorY Binary64.size2000
    (snd (Binary64.fieldToPixelCoords Extended Binary64.size2000
            Binary64.size2000 (Binary64.ofZ 0) Binary64.fieldY_1_9))
  <> snd (Binary64.fieldToPixelCoords Extended Binary64.size2000
            Binary64.size2000 (Binary64.ofZ 0)
            (Binary64.mirrorFieldY Binary64.fieldY_1_9)).
Proof.
  intros H.
  apply (f_equal
           (fun f => PrimFloat.Leibniz.eqb f
                       (snd (Binary64.fieldToPixelCoords Extended Binary64.size2000
                               Binary64.size2000 (Binary64.ofZ 0)
                               (Binary64.mirrorFieldY Binary64.fieldY_1_9)))))
    in H.
  vm_compute in H. discriminate H.
Qed.

Lemma inStep_handle (V : variant) (st : State) (e : Event) :
  stepKeeping st e -> inStep V st -> inStep V (handle V st e).
Proof.
  intros He Hst. destruct e; cbn [handle stepKeeping] in *.
  - apply handleCanvasClick_inSync. exact Hst.
  - unfold handleMouseDown.
    destruct (find (underPointer V x y) (points st));
      apply (inStep_same V st); try reflexivity; exact Hst.
  - unfold handleMouseMove. cbn [draggingId set_hover]. rewrite He.
    apply (inStep_same V st); [reflexivity | reflexivity | exact Hst].
  - apply (inStep_same V st); [reflexivity | reflexivity | exact Hst].
  - apply (inStep_same V st); [reflexivity | reflexivity | exact Hst].
  - unfold handleKeyDown. destruct (selectedId st) as [selected|]; [|exact Hst].
    destruct (isDeleteKey && canvasFocused); [|exact Hst].
    unfold inStep in *. cbn [points image set_selectedId set_points].
    apply Forall_forall. intros p Hin. apply filter_In in Hin.
    rewrite Forall_forall in Hst. apply Hst. apply Hin.
  - apply updateSelectedPointFieldCoords_inSync. exact Hst.
  - unfold editTheta, thetaOnChange.
    destruct (selectedId st) as [selected|] eqn:Hsel; cbn [bind orUnchanged].
    + destruct (lastPoint (points st)) as [final|]; cbn [bind orUnchanged];
        [|exact Hst].
      destruct (handleInputChange (Fin 0) (Some (Fin 360))
                  (negb (selected =? Point.id final)%Z) parsed) as [v|];
        cbn [orUnchanged]; [|exact Hst].
      destruct (selected =? Point.id final)%Z; cbn [orUnchanged]; [|exact Hst].
      apply (inStep_map V st _
               (fun p => if (Point.id p =? selected)%Z
                         then Point.with_theta p v else p));
        [|reflexivity | reflexivity | exact Hst].
      intros p Hp. destruct (Point.id p =? selected)%Z; exact Hp.
    + destruct (handleInputChange (Fin 0) (Some (Fin 360)) false parsed);
        cbn [orUnchanged]; exact Hst.
  - apply (inStep_map V st _
             (fun p => match selectedId st with
                       | Some selected =>
                           if (Point.id p =? selected)%Z then withTimeout p v else p
                       | None => p
                       end)); [|reflexivity | reflexivity | exact Hst].
    intros p Hp. destruct (selectedId st); [destruct (_ =? _)%Z|]; exact Hp.
  - apply (inStep_map V st _
             (fun p => match selectedId st with
                       | Some selected =>
                           if (Point.id p =? selected)%Z then withSpeed p v else p
                       | None => p
                       end)); [|reflexivity | reflexivity | exact Hst].
    intros p Hp. destruct (selectedId st); [destruct (_ =? _)%Z|]; exact Hp.
  - apply (inStep_map V st _
             (fun p => match selectedId st with
                       | Some selected =>
                           if (Point.id p =? selected)%Z then withForwards p b else p
                       | None => p
                       end)); [|reflexivity | reflexivity | exact Hst].
    intros p Hp. destruct (selectedId st); [destruct (_ =? _)%Z|]; exact Hp.
  - contradiction.
  - contradiction.
  - unfold selectPrevious. destruct (selectedId st); exact Hst.
  - unfold selectNext. destruct (selectedId st); exact Hst.
  - unfold codeLineOnClick. destruct (pointIndex item) as [i|]; [|exact Hst].
    destruct (if (i <? 0)%Z then None else nth_error (points st) (Z.to_nat i));
      exact Hst.
Qed.

(** X7: the handlers that set a screen position derive it from the field
    position they store, so the two stay in step (the stored screen
    position is the transform of the stored field position, whatever the
    numbers and the arithmetic) through any sequence of clicks, presses,
    releases, key presses, edits and selections in which the pointer never
    moves while it holds a waypoint and no mirror is applied.  A mirror
    keeps a waypoint at a finite field position in step in exact
    arithmetic, on a square image; on binary64 numbers it does not: after
    Flip X the waypoint at field height 1.9 is stored one unit in the last
    place away from the transform of its field position. *)
Theorem screen_and_field_stay_in_step (V : variant) (st : State)
  (events : list Event) :
  inStep V st -> stepKeepingRun V st events ->
  inStep V (run V st events) /\
  (forall (img : Image) (p : Point),
      width img = height img -> steadyPoint V img p ->
      steadyPoint V img (flipPointX (Some img) p) /\
      steadyPoint V img (flipPointY (Some img) p)) /\
  Binary64.mirrorY Binary64.size2000
    (snd (Binary64.fieldToPixelCoords Extended Binary64.size2000
            Binary64.size2000 (Binary64.ofZ 0) Binary64.fieldY_1_9))
  <> snd (Binary64.fieldToPixelCoords Extended Binary64.size2000
            Binary64.size2000 (Binary64.ofZ 0)
            (Binary64.mirrorFieldY Binary64.fieldY_1_9)).
Proof.
  intros Hst Hrun. split; [|split].
  - revert st Hst Hrun. unfold run.
    induction events as [|e events IH]; intros st Hst Hrun; [exact Hst|].
    destruct Hrun as [He Hrest]. cbn [fold_left].
    apply IH; [apply inStep_handle; assumption | exact Hrest].
  - intros img p Hsq Hp.
    split; [apply steadyPoint_flipX | apply steadyPoint_flipY]; assumption.
  - exact flipX_binary64_out_of_step.
Qed.

Lemma screen_and_field_stay_in_step_witness :
  inStep Extended
    (run Extended (initialState field2000)
       [CanvasClick (Fin 1161) (Fin 1000); MouseMove (Fin 1200) (Fin 900);
        EditCoords (Fin 12) (Fin 24); EditTheta (Fin 90); KeyDown true true]) /\
  (forall (img : Image) (p : Point),
      width img = height img -> steadyPoint Extended img p ->
      steadyPoint Extended img (flipPointX (Some img) p) /\
      steadyPoint Extended img (flipPointY (Some img) p)) /\
  Binary64.mirrorY Binary64.size2000
    (snd (Binary64.fieldToPixelCoords Extended Binary64.size2000
            Binary64.size2000 (Binary64.ofZ 0) Binary64.fieldY_1_9))
  <> snd (Binary64.fieldToPixelCoords Extended Binary64.size2000
            Binary64.size2000 (Binary64.ofZ 0)
            (Binary64.mirrorFieldY Binary64.fieldY_1_9)).
Proof.
  apply (screen_and_field_stay_in_step Extended (initialState field2000)).
  - constructor.
  - cbn [stepKeepingRun stepKeeping].
    repeat (split; try reflexivity).
Defined.

(** ** Mirrors *)

Lemma imageWidth_finite (image : option Image) : isFinite (imageWidth image) = true.
Proof. destruct image; reflexivity. Qed.

Lemma flipPointY_twice (image : option Image) (p : Point) :
  flipPointY image (flipPointY image p) = p.
Proof.
  destruct p. unfold flipPointY, Point.with_x. cbn.
  rewrite nneg_involutive, mirror_coordinate_twice by apply imageWidth_finite.
  reflexivity.
Qed.

(** X8: Flip Y applied twice returns every waypoint to the one it started
    from, the two mirrors can be applied in either order, and neither
    touches id, stored heading, timeout, speed or direction of a waypoint:
    the stored heading of the last waypoint is not mirrored with the
    route. *)
Theorem mirrors_commute (st : State) :
  points (flipY (flipY st)) = points st /\
  points (flipX (flipY st)) = points (flipY (flipX st)) /\
  map attributes (points (flipX st)) = map attributes (points st) /\
  map attributes (points (flipY st)) = map attributes (points st).
Proof.
  unfold flipX, flipY. cbn. rewrite !map_map. split; [|split; [|split]].
  - rewrite <- (map_id (points st)) at 2.
    apply map_ext. intros p. apply flipPointY_twice.
  - apply map_ext. intros p. destruct p. reflexivity.
  - apply map_ext. intros p. destruct p. reflexivity.
  - apply map_ext. intros p. destruct p. reflexivity.
Qed.

(** ** The sampler off the path *)










(** ** Hovering over the path *)

(** A point of a segment is fixed by the distance travelled on it. *)
Lemma arc_point_same (s : Point * Point) (t1 t2 : R) :
  (t1 * rlen s = t2 * rlen s)%R -> lerp s t1 = lerp s t2.
Proof.
  intros H. pose proof (rlen_nonneg s) as Hlen.
  destruct (Req_dec_T (rlen s) 0) as [Hz | Hnz].
  - destruct (rlen_zero s Hz) as [Hx Hy]. unfold lerp. rewrite Hx, Hy.
    f_equal; ring.
  - apply Rmult_eq_reg_r in H; [rewrite H; reflexivity | exact Hnz].
Qed.

(** The same distance reached on an earlier and on a later segment: the
    earlier one is at its end, the later one at its start, and nothing in
    between has a length. *)
Lemma arc_point_later (pre1 mid post2 : list (Point * Point))
  (s1 s2 : Point * Point) (t1 t2 : R) :
  chain (pre1 ++ s1 :: mid ++ s2 :: post2) ->
  (0 <= t1 <= 1)%R -> (0 <= t2 <= 1)%R ->
  (rpath pre1 + t1 * rlen s1 = rpath (pre1 ++ s1 :: mid) + t2 * rlen s2)%R ->
  lerp s1 t1 = lerp s2 t2.
Proof.
  intros Hchain Ht1 Ht2 Heq.
  rewrite rpath_app, rpath_cons in Heq.
  pose proof (rlen_nonneg s1) as H1. pose proof (rlen_nonneg s2) as H2.
  pose proof (rpath_nonneg mid) as Hmid.
  assert (Ha : (0 <= (1 - t1) * rlen s1)%R) by (apply Rmult_le_pos; lra).
  assert (Hb : (0 <= t2 * rlen s2)%R) by (apply Rmult_le_pos; lra).
  assert (Ha0 : ((1 - t1) * rlen s1 = 0)%R) by lra.
  assert (Hb0 : (t2 * rlen s2 = 0)%R) by lra.
  assert (Hm0 : rpath mid = 0%R) by lra.
  apply chain_app_r in Hchain.
  pose proof (chain_link s1 mid s2 post2 Hchain) as Hlink.
  assert (Hc : chain (s1 :: mid)).
  { change (s1 :: mid ++ s2 :: post2) with ((s1 :: mid) ++ s2 :: post2) in Hchain.
    apply chain_app_l in Hchain. exact Hchain. }
  destruct (chain_zero_end s1 mid Hc Hm0) as [Hx Hy].
  rewrite Hlink in Hx, Hy.
  assert (Hend : lerp s1 t1 = lerp s1 1)
    by (apply arc_point_same; lra).
  assert (Hstart : lerp s2 t2 = lerp s2 0)
    by (apply arc_point_same; lra).
  rewrite Hend, Hstart. unfold lerp. rewrite Hx, Hy. f_equal; ring.
Qed.

Lemma arc_point_unique (segs pre1 post1 pre2 post2 : list (Point * Point))
  (s1 s2 : Point * Point) (t1 t2 : R) :
  chain segs ->
  segs = pre1 ++ s1 :: post1 -> segs = pre2 ++ s2 :: post2 ->
  (0 <= t1 <= 1)%R -> (0 <= t2 <= 1)%R ->
  (rpath pre1 + t1 * rlen s1 = rpath pre2 + t2 * rlen s2)%R ->
  lerp s1 t1 = lerp s2 t2.
Proof.
  intros Hchain Hs1 Hs2 Ht1 Ht2 Heq.
  assert (Hsame : pre1 ++ s1 :: post1 = pre2 ++ s2 :: post2) by congruence.
  destruct (split_compare _ pre1 pre2 post1 post2 s1 s2 Hsame)
    as [[mid Hmid] | [mid Hmid]].
  - destruct mid as [|m mid].
    + apply app_inj_tail in Hmid. destruct Hmid as [-> ->].
      apply arc_point_same. lra.
    + destruct (exists_last (l := m :: mid)) as (mid' & z & Hz); [discriminate|].
      rewrite Hz in Hmid.
      replace (pre1 ++ s1 :: mid' ++ [z]) with ((pre1 ++ s1 :: mid') ++ [z]) in Hmid
        by (rewrite <- app_assoc; reflexivity).
      apply app_inj_tail in Hmid. destruct Hmid as [-> ->].
      apply (arc_point_later pre1 mid' post2 s1 z t1 t2); try assumption.
      rewrite Hs2 in Hchain. rewrite <- app_assoc in Hchain. exact Hchain.
  - subst pre1. symmetry.
    apply (arc_point_later pre2 mid post1 s2 s1 t2 t1); try assumption.
    + rewrite Hs1 in Hchain. rewrite <- app_assoc in Hchain. exact Hchain.
    + lra.
Qed.

(** On binary64 numbers the two agree only up to rounding: on the sloped
    route with the pointer at (924, 1006) the projector's foot has x
    922.75862068965512 and the sampler, at the progress the projector
    returned, answers x 922.75862068965523. *)
Lemma hover_binary64_apart :
  exists (foot : Binary64.Position) (progress : PrimFloat.float)
         (position : Binary64.Position),
    Binary64.getClosestPointOnPath Binary64.slope
      (Binary64.ofZ 924) (Binary64.ofZ 1006) = Some (Some foot, progress) /\
    Binary64.robotPosition Binary64.slope progress = Some position /\
    PrimFloat.ltb (fst foot) (fst position) = true.
Proof.
  eexists. eexists. eexists.
  split; [vm_compute; reflexivity|].
  split; [vm_compute; reflexivity|].
  vm_compute. reflexivity.
Qed.

(** X11: hovering near the path shows the robot at the hovered point, in
    exact arithmetic.  For waypoints and pointer at finite positions, when
    the projector returns a point and a progress, the progress lies between
    0 and 1, and the sampler at that progress returns that very point,
    provided the progress is positive or the first leg has a length.  On
    binary64 numbers the sampler's point can differ from the projector's in
    the last digits. *)
Theorem hover_shows_foot (ps : list Point) (mx my : R)
  (point : option (num * num)) (progress : num) :
  allFinite ps ->
  getClosestPointOnPath ps (Fin mx) (Fin my) = Some (point, progress) ->
  (exists fx fy r : R,
    point = Some (Fin fx, Fin fy) /\ progress = Fin r /\ (0 <= r <= 1)%R /\
    ((0 < r)%R \/ (exists s rest, legs ps = s :: rest /\ (0 < rlen s)%R) ->
     exists rotation : num,
       getRobotPositionAndRotation ps progress
       = Some (Pose.make (Fin fx) (Fin fy) rotation))) /\
  (exists (foot : Binary64.Position) (progress64 : PrimFloat.float)
          (position : Binary64.Position),
      Binary64.getClosestPointOnPath Binary64.slope
        (Binary64.ofZ 924) (Binary64.ofZ 1006) = Some (Some foot, progress64) /\
      Binary64.robotPosition Binary64.slope progress64 = Some position /\
      PrimFloat.ltb (fst foot) (fst position) = true).
Proof.
  intros Hfin Hget. split; [|exact hover_binary64_apart].
  rewrite <- (segments_legs ps).
  destruct (le_lt_dec 2 (length ps)) as [Hlen | Hshort].
  2:{ unfold getClosestPointOnPath in Hget.
      replace (length ps <? 2)%nat with true in Hget
        by (symmetry; apply Nat.ltb_lt; lia).
      discriminate Hget. }
  destruct (getClosestPointOnPath_scan ps mx my Hfin Hlen) as (best & Hinv & Hscan).
  rewrite Hscan in Hget. clear Hscan.
  destruct Hinv as [[-> _] | (pre & s & post & Hsplit & Hpos & -> & _ & _)];
    [discriminate Hget|].
  cbn [closestOn closestDistance closestPoint closestProgress nltb] in Hget.
  destruct (Rltb (rdist s (mx, my)) 50); [|discriminate Hget].
  injection Hget as <- <-.
  pose proof (rparam_range s (mx, my)) as Ht0.
  set (t0 := rparam s (mx, my)) in *.
  pose proof (rpath_nonneg pre) as Hpre. pose proof (rpath_nonneg post) as Hpost.
  assert (Htotal : rpath (segments ps) = (rpath pre + rlen s + rpath post)%R).
  { rewrite Hsplit, rpath_app, rpath_cons. lra. }
  set (total := rpath (segments ps)) in *.
  assert (Htot : (0 < total)%R) by lra.
  assert (Hnum : (0 <= rpath pre + t0 * rlen s <= total)%R).
  { assert (0 <= t0 * rlen s)%R by (apply Rmult_le_pos; lra).
    assert (t0 * rlen s <= 1 * rlen s)%R by (apply Rmult_le_compat_r; lra).
    lra. }
  set (r := ((rpath pre + t0 * rlen s) / total)%R).
  assert (Hr : (total * r = rpath pre + t0 * rlen s)%R)
    by (unfold r; field; lra).
  assert (Hrange : (0 <= r <= 1)%R).
  { split.
    - apply Rmult_le_reg_l with (r := total); [exact Htot|]. lra.
    - apply Rmult_le_reg_l with (r := total); [exact Htot|]. lra. }
  exists (fst (rfoot s (mx, my))), (snd (rfoot s (mx, my))), r.
  split; [reflexivity|]. split; [reflexivity|]. split; [exact Hrange|].
  intros Hstart.
  destruct (sample_fin ps r Hfin Hlen Htot Hrange Hstart)
    as (pre' & s' & post' & t & Hsplit' & Ht & Hpos' & Hdist & _ & Hsample).
  rewrite Hsample.
  assert (Hsame : lerp s' t = lerp s t0).
  { apply (arc_point_unique (segments ps) pre' post' pre post s' s t t0);
      try assumption; try apply segments_chain; try lra.
    fold total in Hdist. lra. }
  rewrite Hsame. unfold rfoot. fold t0. eauto.
Qed.

(** The pointer ten pixels to the right of and below the first waypoint of
    the straight route is near its only segment. *)
Lemma hover_near_start_of_straightRoute :
  getClosestPointOnPath straightRoute (Fin 1010) (Fin 1010)
  = Some (Some (Fin (fst (rfoot (waypoint 0 1000 1000 0 0 0,
                                 waypoint 1 1161 1000 12 0 0) (1010%R, 1010%R))),
                Fin (snd (rfoot (waypoint 0 1000 1000 0 0 0,
                                 waypoint 1 1161 1000 12 0 0) (1010%R, 1010%R)))),
          Fin ((rpath [] + rparam (waypoint 0 1000 1000 0 0 0,
                                   waypoint 1 1161 1000 12 0 0) (1010%R, 1010%R)
                           * rlen (waypoint 0 1000 1000 0 0 0,
                                   waypoint 1 1161 1000 12 0 0))
               / rpath (segments straightRoute))).
Proof.
  set (s := (waypoint 0 1000 1000 0 0 0, waypoint 1 1161 1000 12 0 0)).
  assert (Hpos : (0 < rlen s)%R).
  { unfold rlen, s, rx, ry, waypoint. cbn [fst snd Point.x Point.y].
    apply sqrt_lt_R0. lra. }
  assert (Hnear : (rdist s (1010%R, 1010%R) < 50)%R).
  { apply Rle_lt_trans with (r2 := dist (1010%R, 1010%R) (lerp s 0)).
    - apply foot_nearest. lra.
    - unfold dist, lerp, s, rx, ry, waypoint. cbn [fst snd Point.x Point.y].
      replace 50%R with (sqrt (50 * 50)) by (apply sqrt_square; lra).
      apply sqrt_lt_1_alt. split; [apply sum_squares_nonneg | lra]. }
  unfold getClosestPointOnPath, straightRoute.
  cbn [length Nat.ltb Nat.leb segments scan]. fold s.
  change [waypoint 0 1000 1000 0 0 0; waypoint 1 1161 1000 12 0 0]
    with straightRoute.
  rewrite (scanSegment_regular straightRoute 1010 1010).
  - cbn [closestDistance nltb closestOn closestPoint closestProgress firstn].
    rewrite Rltb_true by exact Hnear. reflexivity.
  - split; reflexivity.
  - exact Hpos.
  - repeat constructor.
  - change (segments straightRoute) with [s]. rewrite rpath_cons, rpath_nil. lra.
Qed.

Lemma hover_shows_foot_witness :
  (exists fx fy r : R,
    Some (Fin (fst (rfoot (waypoint 0 1000 1000 0 0 0,
                           waypoint 1 1161 1000 12 0 0) (1010%R, 1010%R))),
          Fin (snd (rfoot (waypoint 0 1000 1000 0 0 0,
                           waypoint 1 1161 1000 12 0 0) (1010%R, 1010%R))))
    = Some (Fin fx, Fin fy) /\
    Fin ((rpath [] + rparam (waypoint 0 1000 1000 0 0 0,
                             waypoint 1 1161 1000 12 0 0) (1010%R, 1010%R)
                     * rlen (waypoint 0 1000 1000 0 0 0,
                             waypoint 1 1161 1000 12 0 0))
         / rpath (segments straightRoute)) = Fin r /\
    (0 <= r <= 1)%R /\
    ((0 < r)%R \/
     (exists s rest, legs straightRoute = s :: rest /\ (0 < rlen s)%R) ->
     exists rotation : num,
       getRobotPositionAndRotation straightRoute
         (Fin ((rpath [] + rparam (waypoint 0 1000 1000 0 0 0,
                                   waypoint 1 1161 1000 12 0 0) (1010%R, 1010%R)
                           * rlen (waypoint 0 1000 1000 0 0 0,
                                   waypoint 1 1161 1000 12 0 0))
               / rpath (segments straightRoute)))
       = Some (Pose.make (Fin fx) (Fin fy) rotation))) /\
  (exists (foot : Binary64.Position) (progress64 : PrimFloat.float)
          (position : Binary64.Position),
      Binary64.getClosestPointOnPath Binary64.slope
        (Binary64.ofZ 924) (Binary64.ofZ 1006) = Some (Some foot, progress64) /\
      Binary64.robotPosition Binary64.slope progress64 = Some position /\
      PrimFloat.ltb (fst foot) (fst position) = true).
Proof.
  apply (hover_shows_foot straightRoute 1010 1010).
  - repeat constructor.
  - exact hover_near_start_of_straightRoute.
Defined.

(** ** Selection by code line and by arrow *)

Lemma findIndexFrom_nth (ps : list Point) (i : nat) (p : Point) (k : Z) :
  NoDup (map Point.id ps) -> nth_error ps i = Some p ->
  findIndexFrom (Point.id p) ps k = (k + Z.of_nat i)%Z.
Proof.
  revert i k. induction ps as [|a ps IH]; intros i k Hnd Hp.
  - destruct i; discriminate Hp.
  - cbn [map] in Hnd. inversion Hnd as [|? ? Hnot Hrest]; subst.
    destruct i as [|i]; cbn [nth_error] in Hp.
    + injection Hp as ->. cbn [findIndexFrom]. rewrite Z.eqb_refl. lia.
    + cbn [findIndexFrom].
      destruct (Point.id a =? Point.id p)%Z eqn:Heq.
      * exfalso. apply Z.eqb_eq in Heq. apply Hnot. rewrite Heq.
        apply in_map. apply (nth_error_In _ _ Hp).
      * rewrite (IH i (k + 1)%Z Hrest Hp). lia.
Qed.

Lemma laterLines_members (V : variant) (index : nat) (rest : list Point)
  (item : CodeLine) :
  In item (laterLines V index rest) ->
  item = separatorLine \/
  exists (j : nat) (p : Point),
    nth_error rest j = Some p /\
    (item = turnLine V (index + j) p \/ item = moveLine V (index + j) p).
Proof.
  revert index. induction rest as [|q rest IH]; intros index Hin; [destruct Hin|].
  cbn [laterLines] in Hin.
  destruct Hin as [<- | [<- | [<- | Hin]]].
  - left. reflexivity.
  - right. exists 0%nat, q. rewrite Nat.add_0_r. split; [reflexivity | left; reflexivity].
  - right. exists 0%nat, q. rewrite Nat.add_0_r. split; [reflexivity | right; reflexivity].
  - destruct (IH (S index) Hin) as [-> | (j & p & Hp & Hitem)]; [left; reflexivity|].
    right. exists (S j), p. split; [exact Hp|].
    replace (index + S j)%nat with (S index + j)%nat by lia. exact Hitem.
Qed.

Lemma codeLineOnClick_at (item : CodeLine) (st : State) (i : nat) (p : Point) :
  pointIndex item = Some (Z.of_nat i) -> nth_error (points st) i = Some p ->
  codeLineOnClick item st = Ok (set_selectedId st (Some (Point.id p))).
Proof.
  intros Hidx Hp. unfold codeLineOnClick. rewrite Hidx.
  replace (Z.of_nat i <? 0)%Z with false by (symmetry; apply Z.ltb_ge; lia).
  rewrite Nat2Z.id, Hp. reflexivity.
Qed.

(** X12: every emitted line other than a separator belongs to a waypoint
    of the route, and clicking it selects that waypoint; with ids that do
    not repeat, the index the code panel then highlights is the index of the
    clicked line. *)
Theorem click_on_line_selects (V : variant) (fuel : nat) (st : State)
  (lines : list CodeLine) (item : CodeLine) :
  NoDup (map Point.id (points st)) ->
  generatedCodeLines V fuel (points st) = Ok lines ->
  In item lines -> pointIndex item <> Some (-1)%Z ->
  exists (i : nat) (p : Point),
    pointIndex item = Some (Z.of_nat i) /\
    nth_error (points st) i = Some p /\
    codeLineOnClick item st = Ok (set_selectedId st (Some (Point.id p))) /\
    findIndex (Point.id p) (points st) = Z.of_nat i.
Proof.
  intros Hnd Hlines Hin Hsep.
  assert (Hfound : exists (i : nat) (p : Point),
            pointIndex item = Some (Z.of_nat i) /\
            nth_error (points st) i = Some p).
  { unfold generatedCodeLines in Hlines.
    destruct (points st) as [|first rest]; cbn [length Nat.eqb] in Hlines.
    - injection Hlines as <-. destruct Hin.
    - cbn [forEachPoint] in Hlines. unfold emitPoint at 1 in Hlines.
      cbn [Nat.eqb] in Hlines.
      destruct (getEffectiveTheta fuel (first :: rest) 0) as [theta| |];
        cbn [bind app] in Hlines; try discriminate Hlines.
      rewrite forEachPoint_later in Hlines. injection Hlines as <-.
      cbn [app] in Hin. destruct Hin as [<- | Hin].
      + exists 0%nat, first. split; reflexivity.
      + destruct (laterLines_members V 1 rest item Hin)
          as [-> | (j & p & Hp & [-> | ->])].
        * exfalso. apply Hsep. reflexivity.
        * exists (1 + j)%nat, p. split; [reflexivity | exact Hp].
        * exists (1 + j)%nat, p. split; [reflexivity | exact Hp]. }
  destruct Hfound as (i & p & Hidx & Hp).
  exists i, p. split; [exact Hidx|]. split; [exact Hp|].
  split; [exact (codeLineOnClick_at item st i p Hidx Hp)|].
  unfold findIndex. rewrite (findIndexFrom_nth _ i p 0 Hnd Hp). lia.
Qed.

(** On the straight route the first waypoint faces right: heading 90. *)
Lemma heading_of_straightRoute (fuel : nat) :
  (2 <= fuel)%nat -> getEffectiveTheta fuel straightRoute 0 = Ok (Fin 90).
Proof.
  intros Hf.
  destruct (getEffectiveTheta_inner fuel straightRoute 0
              (waypoint 0 1000 1000 0 0 0) (waypoint 1 1161 1000 12 0 0)
              1000 1000 1161 1000 Hf)
    as (d & Hd & _ & _ & Hraw); try reflexivity.
  destruct (raw_heading_cardinal (1000 - 1000) (1161 - 1000)) as (_ & H90 & _).
  cbv zeta in H90. rewrite H90 in Hraw by lra.
  rewrite Hd, Hraw by lra. reflexivity.
Qed.

Lemma lines_of_straightRoute :
  generatedCodeLines Extended 2 straightRoute
  = Ok [ {| line := setPose (roundField Extended (Fin 0))
                      (roundField Extended (Fin 0)) (roundField Extended (Fin 90));
            pointIndex := Some 0%Z |};
         separatorLine;
         turnLine Extended 1 (waypoint 1 1161 1000 12 0 0);
         moveLine Extended 1 (waypoint 1 1161 1000 12 0 0) ].
Proof.
  unfold generatedCodeLines. cbn [straightRoute length Nat.eqb forEachPoint].
  unfold emitPoint at 1. cbn [Nat.eqb].
  change [waypoint 0 1000 1000 0 0 0; waypoint 1 1161 1000 12 0 0]
    with straightRoute.
  rewrite heading_of_straightRoute by lia. reflexivity.
Qed.

Lemma click_on_line_selects_witness :
  exists (i : nat) (p : Point),
    pointIndex (moveLine Extended 1 (waypoint 1 1161 1000 12 0 0))
    = Some (Z.of_nat i) /\
    nth_error (points (editorWith straightRoute 2 None)) i = Some p /\
    codeLineOnClick (moveLine Extended 1 (waypoint 1 1161 1000 12 0 0))
      (editorWith straightRoute 2 None)
    = Ok (set_selectedId (editorWith straightRoute 2 None) (Some (Point.id p))) /\
    findIndex (Point.id p) (points (editorWith straightRoute 2 None)) = Z.of_nat i.
Proof.
  apply (click_on_line_selects Extended 2 (editorWith straightRoute 2 None)
           [ {| line := setPose (roundField Extended (Fin 0))
                          (roundField Extended (Fin 0)) (roundField Extended (Fin 90));
                pointIndex := Some 0%Z |};
             separatorLine;
             turnLine Extended 1 (waypoint 1 1161 1000 12 0 0);
             moveLine Extended 1 (waypoint 1 1161 1000 12 0 0) ]).
  - cbn. repeat constructor; cbn; intros H;
      repeat (destruct H as [H | H]; try discriminate H); exact H.
  - exact lines_of_straightRoute.
  - right. right. right. left. reflexivity.
  - cbn. discriminate.
Defined.

Lemma find_by_position (ps : list Point) (off : Z) (j : nat) (p : Point) :
  (forall k q, nth_error ps k = Some q -> Point.id q = (off + Z.of_nat k)%Z) ->
  nth_error ps j = Some p ->
  find (fun q => (Point.id q =? off + Z.of_nat j)%Z) ps = Some p.
Proof.
  revert off j. induction ps as [|a ps IH]; intros off j Hpos Hp.
  - destruct j; discriminate Hp.
  - pose proof (Hpos 0%nat a eq_refl) as Ha. cbn [find].
    destruct j as [|j]; cbn [nth_error] in Hp.
    + injection Hp as ->. rewrite Ha, Z.eqb_refl. reflexivity.
    + replace (Point.id a =? off + Z.of_nat (S j))%Z with false
        by (symmetry; apply Z.eqb_neq; lia).
      replace (off + Z.of_nat (S j))%Z with ((off + 1) + Z.of_nat j)%Z by lia.
      apply IH; [|exact Hp].
      intros k q Hq. rewrite (Hpos (S k) q Hq). lia.
Qed.

(** X13: the arrows of the edit panel store a position in the list as the
    selected id.  With the waypoint at position [i] selected (ids not
    repeating), Next stores [i + 1], or 0 at the end, and Previous stores
    [i - 1], or the last position at the start; the waypoints are left
    alone.  The waypoint then selected is the neighbour in the list when
    every id is its waypoint's position, and none at all when no waypoint
    carries the stored number as id. *)
Theorem arrows_store_position (st : State) (i : nat) (p : Point) :
  NoDup (map Point.id (points st)) ->
  nth_error (points st) i = Some p -> selectedId st = Some (Point.id p) ->
  let n := length (points st) in
  let next := if (S i <? n)%nat then S i else 0%nat in
  let previous := if (0 <? i)%nat then (i - 1)%nat else (n - 1)%nat in
  selectNext st = set_selectedId st (Some (Z.of_nat next)) /\
  selectPrevious st = set_selectedId st (Some (Z.of_nat previous)) /\
  ((forall k q, nth_error (points st) k = Some q -> Point.id q = Z.of_nat k) ->
   selectedPoint (selectNext st) = nth_error (points st) next /\
   selectedPoint (selectPrevious st) = nth_error (points st) previous) /\
  ((forall q, In q (points st) -> Point.id q <> Z.of_nat next) ->
   selectedPoint (selectNext st) = None).
Proof.
  intros Hnd Hp Hsel n next previous.
  assert (Hi : (i < n)%nat) by (apply nth_error_Some; rewrite Hp; discriminate).
  assert (Hindex : findIndex (Point.id p) (points st) = Z.of_nat i)
    by (unfold findIndex; rewrite (findIndexFrom_nth _ i p 0 Hnd Hp); lia).
  assert (Hnext : selectNext st = set_selectedId st (Some (Z.of_nat next))).
  { unfold selectNext. rewrite Hsel, Hindex. f_equal. f_equal.
    subst next. fold n.
    destruct (S i <? n)%nat eqn:E.
    - apply Nat.ltb_lt in E.
      replace (Z.of_nat i <? Z.of_nat n - 1)%Z with true
        by (symmetry; apply Z.ltb_lt; lia).
      lia.
    - apply Nat.ltb_ge in E.
      replace (Z.of_nat i <? Z.of_nat n - 1)%Z with false
        by (symmetry; apply Z.ltb_ge; lia).
      reflexivity. }
  assert (Hprev : selectPrevious st = set_selectedId st (Some (Z.of_nat previous))).
  { unfold selectPrevious. rewrite Hsel, Hindex. f_equal. f_equal.
    subst previous. fold n.
    destruct (0 <? i)%nat eqn:E.
    - apply Nat.ltb_lt in E.
      replace (Z.of_nat i >? 0)%Z with true
        by (symmetry; rewrite Z.gtb_ltb; apply Z.ltb_lt; lia).
      lia.
    - apply Nat.ltb_ge in E.
      replace (Z.of_nat i >? 0)%Z with false
        by (symmetry; rewrite Z.gtb_ltb; apply Z.ltb_ge; lia).
      lia. }
  split; [exact Hnext|]. split; [exact Hprev|]. split.
  - intros Hpos. rewrite Hnext, Hprev. unfold selectedPoint.
    cbn [selectedId points set_selectedId].
    assert (Hfind : forall j, (j < n)%nat ->
              find (fun q => (Point.id q =? Z.of_nat j)%Z) (points st)
              = nth_error (points st) j).
    { intros j Hj.
      destruct (nth_error (points st) j) as [q|] eqn:Hq;
        [|apply nth_error_None in Hq; fold n in Hq; lia].
      apply (find_by_position (points st) 0 j q); [|exact Hq].
      intros k r Hr. rewrite (Hpos k r Hr). lia. }
    split; apply Hfind.
    + subst next. destruct (S i <? n)%nat eqn:E; [apply Nat.ltb_lt in E; lia | lia].
    + subst previous. destruct (0 <? i)%nat; lia.
  - intros Hnone. rewrite Hnext. unfold selectedPoint.
    cbn [selectedId points set_selectedId].
    destruct (find (fun q => (Point.id q =? Z.of_nat next)%Z) (points st))
      as [q|] eqn:Hq; [|reflexivity].
    apply find_some in Hq. destruct Hq as [Hin Heq].
    apply Z.eqb_eq in Heq. exfalso. exact (Hnone q Hin Heq).
Qed.

(** The theorem on the straight route after its first waypoint was
    deleted: the remaining waypoint has id 1 and position 0. *)
Lemma arrows_store_position_witness :
  let st := editorWith [waypoint 1 1161 1000 12 0 0] 2 (Some 1%Z) in
  let n := length (points st) in
  let next := if (1 <? n)%nat then 1%nat else 0%nat in
  let previous := if (0 <? 0)%nat then (0 - 1)%nat else (n - 1)%nat in
  selectNext st = set_selectedId st (Some (Z.of_nat next)) /\
  selectPrevious st = set_selectedId st (Some (Z.of_nat previous)) /\
  ((forall k q, nth_error (points st) k = Some q -> Point.id q = Z.of_nat k) ->
   selectedPoint (selectNext st) = nth_error (points st) next /\
   selectedPoint (selectPrevious st) = nth_error (points st) previous) /\
  ((forall q, In q (points st) -> Point.id q <> Z.of_nat next) ->
   selectedPoint (selectNext st) = None).
Proof.
  apply (arrows_store_position
           (editorWith [waypoint 1 1161 1000 12 0 0] 2 (Some 1%Z)) 0
           (waypoint 1 1161 1000 12 0 0)).
  - cbn. repeat constructor. intros [].
  - reflexivity.
  - reflexivity.
Defined.

(** ** Headings *)

(** X14: the heading resolver returns a heading for every index of the
    list, whatever the coordinates (NaN and infinite ones included: the two
    normalisation loops always end), and throws on every other index. *)
Theorem getEffectiveTheta_defined (fuel : nat) (points : list Point) (index : nat) :
  (2 <= fuel)%nat ->
  ((index < length points)%nat ->
   exists t : num, getEffectiveTheta fuel points index = Ok t) /\
  ((length points <= index)%nat ->
   getEffectiveTheta fuel points index = TypeError).
Proof.
  intros Hf. split.
  - apply getEffectiveTheta_total. exact Hf.
  - intros Hout. unfold getEffectiveTheta.
    replace (Z.of_nat index <? Z.of_nat (length points) - 1)%Z with false
      by (symmetry; apply Z.ltb_ge; lia).
    replace (nth_error points index) with (@None Point)
      by (symmetry; apply nth_error_None; exact Hout).
    reflexivity.
Qed.

Lemma getEffectiveTheta_defined_witness :
  ((1 < length stackedRoute)%nat ->
   exists t : num, getEffectiveTheta 2 stackedRoute 1 = Ok t) /\
  ((length stackedRoute <= 1)%nat ->
   getEffectiveTheta 2 stackedRoute 1 = TypeError).
Proof.
  apply (getEffectiveTheta_defined 2 stackedRoute 1). lia.
Defined.

Lemma typed_heading_clamped (parsed : num) :
  isNaN parsed = false ->
  exists r : R,
    handleInputChange (Fin 0) (Some (Fin 360)) false parsed = Some (Fin r) /\
    (0 <= r <= 360)%R.
Proof.
  intros Hnan. unfold handleInputChange. rewrite Hnan.
  destruct parsed as [p| | |]; cbn [nltb ngtb]; try discriminate.
  - destruct (Rlt_dec p 0) as [Hlo | Hlo].
    + rewrite Rltb_true by exact Hlo. cbn [nltb]. rewrite Rltb_false by lra.
      exists 0%R. split; [reflexivity | lra].
    + rewrite Rltb_false by lra. cbn [nltb].
      destruct (Rlt_dec 360 p) as [Hhi | Hhi].
      * rewrite Rltb_true by exact Hhi. exists 360%R. split; [reflexivity | lra].
      * rewrite Rltb_false by lra. exists p. split; [reflexivity | lra].
  - exists 360%R. split; [reflexivity | lra].
  - rewrite Rltb_false by lra. exists 0%R. split; [reflexivity | lra].
Qed.

Lemma unique_position (ps : list Point) (i j : nat) (p q : Point) :
  NoDup (map Point.id ps) ->
  nth_error ps i = Some p -> nth_error ps j = Some q ->
  Point.id p = Point.id q -> i = j.
Proof.
  intros Hnd Hp Hq Hid.
  apply (proj1 (NoDup_nth_error (map Point.id ps)) Hnd).
  - rewrite length_map. apply (proj1 (nth_error_Some ps i)). rewrite Hp. discriminate.
  - rewrite !nth_error_map.
    etransitivity; [exact (f_equal (option_map Point.id) Hp)|].
    symmetry. etransitivity; [exact (f_equal (option_map Point.id) Hq)|].
    cbn. rewrite Hid. reflexivity.
Qed.

(** Writing a heading into the waypoints that carry the id of the last
    one. *)
Lemma heading_of_last_written (fuel : nat) (ps : list Point.t) (final : Point.t)
  (v : num) :
  NoDup (map Point.id ps) -> lastPoint ps = Some final ->
  let ps' := map (fun p : Point.t =>
                    if (Point.id p =? Point.id final)%Z
                    then Point.with_theta p v else p) ps in
  lastPoint ps' = Some (Point.with_theta final v) /\
  getEffectiveTheta fuel ps' (length ps' - 1) = Ok v /\
  length ps' = length ps /\
  (forall i, i <> (length ps - 1)%nat -> nth_error ps' i = nth_error ps i).
Proof.
  intros Hnd Hfinal ps'.
  assert (Hlen : length ps' = length ps) by apply length_map.
  assert (Hlast : lastPoint ps' = Some (Point.with_theta final v)).
  { unfold lastPoint in *. unfold ps'. unfold Point in *.
    rewrite length_map, nth_error_map, Hfinal. cbn.
    rewrite Z.eqb_refl. reflexivity. }
  assert (Hpos : (0 < length ps)%nat).
  { unfold lastPoint in Hfinal. destruct ps; [discriminate Hfinal|].
    cbn [length]. lia. }
  split; [exact Hlast|]. split; [|split; [exact Hlen|]].
  - rewrite (getEffectiveTheta_last fuel ps' (length ps' - 1)
               (Point.with_theta final v));
      [destruct final; reflexivity | exact Hlast | unfold Point in *; lia].
  - intros i Hi. unfold ps'. rewrite nth_error_map.
    destruct (nth_error ps i) as [q|] eqn:Hq; [|reflexivity].
    cbn. f_equal.
    destruct (Point.id q =? Point.id final)%Z eqn:Heq; [|reflexivity].
    exfalso. apply Z.eqb_eq in Heq. apply Hi.
    exact (unique_position ps _ _ q final Hnd Hq Hfinal Heq).
Qed.

(** X15: with the last waypoint selected (ids not repeating), a number
    typed into the heading input is clamped to the range from 0 to 360 and
    becomes the stored heading of that waypoint and so its effective
    heading; every other waypoint is left as it was.  The bound 360 itself
    is kept, not turned into 0.  What is typed while another waypoint is
    selected, or is no number, changes nothing. *)
Theorem typed_heading_takes_effect (fuel : nat) (st : State) (final : Point)
  (parsed : num) :
  NoDup (map Point.id (points st)) ->
  lastPoint (points st) = Some final ->
  (selectedId st = Some (Point.id final) -> isNaN parsed = false ->
   exists (st' : State) (r : R),
     editTheta st parsed = Ok st' /\ (0 <= r <= 360)%R /\
     handleInputChange (Fin 0) (Some (Fin 360)) false parsed = Some (Fin r) /\
     lastPoint (points st') = Some (Point.with_theta final (Fin r)) /\
     getEffectiveTheta fuel (points st') (length (points st') - 1) = Ok (Fin r) /\
     length (points st') = length (points st) /\
     (forall i, i <> (length (points st) - 1)%nat ->
                nth_error (points st') i = nth_error (points st) i)) /\
  (forall selected, selectedId st = Some selected -> selected <> Point.id final ->
                    editTheta st parsed = Ok st) /\
  editTheta st NaN = Ok st.
Proof.
  intros Hnd Hfinal. split; [|split].
  - intros Hsel Hnan.
    destruct (typed_heading_clamped parsed Hnan) as (r & Hv & Hr).
    unfold editTheta, thetaOnChange. rewrite Hsel, Hfinal, Z.eqb_refl.
    cbn [negb bind]. rewrite Hv.
    eexists. exists r. split; [reflexivity|]. split; [exact Hr|].
    split; [reflexivity|]. cbn [points set_points].
    exact (heading_of_last_written fuel (points st) final (Fin r) Hnd Hfinal).
  - intros selected Hsel Hne. unfold editTheta. rewrite Hsel, Hfinal.
    replace (selected =? Point.id final)%Z with false
      by (symmetry; apply Z.eqb_neq; exact Hne).
    reflexivity.
  - unfold editTheta.
    destruct (selectedId st) as [selected|]; [rewrite Hfinal|];
      cbn [bind]; unfold handleInputChange;
      [destruct (negb (selected =? Point.id final)%Z)|]; reflexivity.
Qed.

Lemma typed_heading_takes_effect_witness :
  (selectedId (editorWith straightRoute 2 (Some 1%Z))
   = Some (Point.id (waypoint 1 1161 1000 12 0 0)) ->
   isNaN (Fin 400) = false ->
   exists (st' : State) (r : R),
     editTheta (editorWith straightRoute 2 (Some 1%Z)) (Fin 400) = Ok st' /\
     (0 <= r <= 360)%R /\
     handleInputChange (Fin 0) (Some (Fin 360)) false (Fin 400) = Some (Fin r) /\
     lastPoint (points st')
     = Some (Point.with_theta (waypoint 1 1161 1000 12 0 0) (Fin r)) /\
     getEffectiveTheta 2 (points st') (length (points st') - 1) = Ok (Fin r) /\
     length (points st') = length (points (editorWith straightRoute 2 (Some 1%Z))) /\
     (forall i,
         i <> (length (points (editorWith straightRoute 2 (Some 1%Z))) - 1)%nat ->
         nth_error (points st') i
         = nth_error (points (editorWith straightRoute 2 (Some 1%Z))) i)) /\
  (forall selected,
      selectedId (editorWith straightRoute 2 (Some 1%Z)) = Some selected ->
      selected <> Point.id (waypoint 1 1161 1000 12 0 0) ->
      editTheta (editorWith straightRoute 2 (Some 1%Z)) (Fin 400)
      = Ok (editorWith straightRoute 2 (Some 1%Z))) /\
  editTheta (editorWith straightRoute 2 (Some 1%Z)) NaN
  = Ok (editorWith straightRoute 2 (Some 1%Z)).
Proof.
  apply (typed_heading_takes_effect 2 (editorWith straightRoute 2 (Some 1%Z))
           (waypoint 1 1161 1000 12 0 0) (Fin 400)).
  - cbn. repeat constructor; cbn; intros H;
      repeat (destruct H as [H | H]; try discriminate H); exact H.
  - reflexivity.
Defined.

(** ** Dragging *)

Lemma find_exists (f : Point -> bool) (ps : list Point) (p : Point) :
  In p ps -> f p = true -> exists q, find f ps = Some q.
Proof.
  intros Hin Hf. destruct (find f ps) as [q|] eqn:Hfind; [eauto|].
  rewrite (find_none f ps Hfind p Hin) in Hf. discriminate Hf.
Qed.

Lemma underPointer_at (V : variant) (p : Point) (a b : R) (fx fy : num) :
  underPointer V (Fin a) (Fin b) (Point.with_coords p (Fin a) (Fin b) fx fy) = true.
Proof.
  unfold underPointer. destruct p. cbn [Point.with_coords Point.x Point.y].
  rewrite hypot_zero. destruct V; cbn [POINT_RADIUS nltb]; apply Rltb_true; lra.
Qed.

(** X16: a drag never adds a waypoint.  After a press on a waypoint, a
    move to a finite position, the release and the click the browser sends
    at the release position, the list has the waypoints it had, each with
    the attributes it had and all but the pressed one where they were; the
    pressed one sits at the pointer; the counter is unchanged, nothing is
    held any more, and the selected waypoint is one under the pointer. *)
Theorem drag_adds_nothing (V : variant) (st : State) (x y : num) (p : Point)
  (a b : R) :
  find (underPointer V x y) (points st) = Some p ->
  let st' := run V st [MouseDown x y; MouseMove (Fin a) (Fin b); MouseUp;
                       CanvasClick (Fin a) (Fin b)] in
  map attributes (points st') = map attributes (points st) /\
  nextId st' = nextId st /\ draggingId st' = None /\
  (forall i q, nth_error (points st) i = Some q -> Point.id q <> Point.id p ->
               nth_error (points st') i = Some q) /\
  (forall q, In q (points st') -> Point.id q = Point.id p ->
             Point.x q = Fin a /\ Point.y q = Fin b) /\
  exists q, In q (points st') /\ selectedId st' = Some (Point.id q) /\
            underPointer V (Fin a) (Fin b) q = true.
Proof.
  intros Hfind st'. subst st'. unfold run. cbn [fold_left handle].
  unfold handleMouseDown. rewrite Hfind.
  unfold handleMouseMove. cbn [draggingId set_hover points image].
  destruct (pixelToFieldCoords V (image st) (Fin a) (Fin b)) as [fieldX fieldY].
  set (g := fun q : Point.t =>
              if (Point.id q =? Point.id p)%Z
              then Point.with_coords q (Fin a) (Fin b) (roundField V fieldX)
                     (roundField V fieldY)
              else q).
  unfold handleMouseUp. cbn [points set_points nextId image hoveredId selectedId
                              hoveredPathProgress lastHoveredProgress].
  unfold handleCanvasClick. cbn [points].
  apply find_some in Hfind. destruct Hfind as [Hin _].
  destruct (find_exists (underPointer V (Fin a) (Fin b)) (map g (points st)) (g p))
    as (q & Hq).
  { apply in_map. exact Hin. }
  { unfold g. rewrite Z.eqb_refl. apply underPointer_at. }
  rewrite Hq. cbn [points set_selectedId nextId draggingId selectedId].
  split; [|split; [reflexivity|split; [reflexivity|split; [|split]]]].
  - rewrite map_map. apply map_ext. intros r. unfold g.
    destruct (Point.id r =? Point.id p)%Z; destruct r; reflexivity.
  - intros i r Hr Hne. rewrite nth_error_map.
    transitivity (option_map g (Some r)); [exact (f_equal (option_map g) Hr)|].
    cbn. f_equal. unfold g.
    replace (Point.id r =? Point.id p)%Z with false
      by (symmetry; apply Z.eqb_neq; exact Hne).
    reflexivity.
  - intros r Hr Hid. apply in_map_iff in Hr. destruct Hr as (r0 & <- & _).
    unfold g in *. destruct (Point.id r0 =? Point.id p)%Z eqn:E.
    + destruct r0. split; reflexivity.
    + apply Z.eqb_neq in E. contradiction.
  - exists q. apply find_some in Hq. destruct Hq as [Hqin Hunder].
    split; [exact Hqin | split; [reflexivity | exact Hunder]].
Qed.

Lemma press_on_centre_waypoint :
  find (underPointer Extended (Fin 1000) (Fin 1000))
    (points (editorWith [waypoint 0 1000 1000 0 0 0] 1 None))
  = Some (waypoint 0 1000 1000 0 0 0).
Proof.
  cbn [points editorWith find]. unfold underPointer, waypoint.
  cbn [Point.x Point.y]. rewrite hypot_zero. cbn [POINT_RADIUS nltb].
  rewrite Rltb_true by lra. reflexivity.
Qed.

Lemma drag_adds_nothing_witness :
  let st := editorWith [waypoint 0 1000 1000 0 0 0] 1 None in
  let p := waypoint 0 1000 1000 0 0 0 in
  let st' := run Extended st
               [MouseDown (Fin 1000) (Fin 1000); MouseMove (Fin 1200) (Fin 900);
                MouseUp; CanvasClick (Fin 1200) (Fin 900)] in
  map attributes (points st') = map attributes (points st) /\
  nextId st' = nextId st /\ draggingId st' = None /\
  (forall i q, nth_error (points st) i = Some q -> Point.id q <> Point.id p ->
               nth_error (points st') i = Some q) /\
  (forall q, In q (points st') -> Point.id q = Point.id p ->
             Point.x q = Fin 1200 /\ Point.y q = Fin 900) /\
  exists q, In q (points st') /\ selectedId st' = Some (Point.id q) /\
            underPointer Extended (Fin 1200) (Fin 900) q = true.
Proof.
  apply (drag_adds_nothing Extended
           (editorWith [waypoint 0 1000 1000 0 0 0] 1 None)
           (Fin 1000) (Fin 1000) (waypoint 0 1000 1000 0 0 0) 1200 900).
  exact press_on_centre_waypoint.
Defined.

(** ** Rounding and placement *)

Lemma Int_part_half (z : Z) : Int_part (IZR z + / 2) = z.
Proof. symmetry. apply Int_part_spec. lra. Qed.

Lemma roundField_infinite (V : variant) :
  roundField V PInf = PInf /\ roundField V NInf = NInf.
Proof.
  unfold roundField, precision.
  split; destruct V; cbn [nmul]; rewrite Reqb_false by lra.
  - rewrite Rltb_true by lra. cbn [inf_signed Math.round]. unfold ndiv.
    rewrite Rleb_true by lra. reflexivity.
  - rewrite Rltb_true by lra. cbn [inf_signed Math.round]. unfold ndiv.
    rewrite Rleb_true by lra. reflexivity.
  - rewrite Rltb_false by lra. cbn [inf_signed Math.round]. unfold ndiv.
    rewrite Rltb_false by lra. reflexivity.
  - rewrite Rltb_false by lra. cbn [inf_signed Math.round]. unfold ndiv.
    rewrite Rltb_false by lra. reflexivity.
Qed.

Lemma roundField_idempotent (V : variant) (v : num) :
  roundField V (roundField V v) = roundField V v.
Proof.
  destruct (roundField_infinite V) as [Hp Hn].
  destruct v as [r| | |];
    [|rewrite !Hp; reflexivity | rewrite !Hn; reflexivity
     |destruct V; reflexivity].
  destruct (roundField_fin V r) as (z & Hz & _). rewrite Hz.
  assert (Hk : (0 < decimalFactor V)%R) by (destruct V; cbn; lra).
  unfold roundField, precision.
  destruct V; cbn [nmul Math.round decimalFactor] in *;
    rewrite ndiv_fin by lra; f_equal; f_equal; f_equal;
    match goal with
    | |- Int_part ?e = _ =>
        replace e with (IZR z + / 2)%R by (field; lra)
    end; apply Int_part_half.
Qed.

Lemma find_after_none (f : Point -> bool) (l l' : list Point) :
  find f l = None -> find f (l ++ l') = find f l'.
Proof.
  induction l as [|p l IH]; intros H; [reflexivity|].
  cbn [app find] in *. destruct (f p); [discriminate H | apply IH; exact H].
Qed.

(** The square of a number within a bound. *)
Lemma square_within (e B : R) : (Rabs e <= B)%R -> (e * e <= B * B)%R.
Proof.
  intros H. assert (Hb : (0 <= B)%R) by (pose proof (Rabs_pos e); lra).
  assert (Hrange : (- B <= e <= B)%R)
    by (unfold Rabs in H; destruct (Rcase_abs e); lra).
  destruct (Rle_dec 0 e) as [Hpos | Hneg].
  - apply Rmult_le_compat; lra.
  - replace (e * e)%R with ((- e) * (- e))%R by ring.
    apply Rmult_le_compat; lra.
Qed.

(** The waypoint a click places lies under the pointer: rounding moves it
    by less than the radius. *)
Lemma placed_under_pointer (V : variant) (img : Image) (a b : R) (p : Point) :
  (0 < width img)%Z -> (V = Simple -> (width img <= 400000)%Z) ->
  let field := pixelToFieldCoords V (Some img) (Fin a) (Fin b) in
  let pixel := fieldToPixelCoords V (Some img) (roundField V (fst field))
                 (roundField V (snd field)) in
  Point.x p = fst pixel -> Point.y p = snd pixel ->
  underPointer V (Fin a) (Fin b) p = true.
Proof.
  intros Hw Hbound field pixel Hx Hy. subst field pixel.
  unfold underPointer. rewrite Hx, Hy. clear Hx Hy.
  unfold pixelToFieldCoords, fieldToPixelCoords.
  destruct (pixelsPerInch_fin V img Hw) as (k & Hk & Hppi). rewrite Hppi.
  destruct (centerX_fin V img) as (cx & ->).
  destruct (centerY_fin V img) as (cy & ->).
  cbn [fst snd nsub nadd nneg]. rewrite !ndiv_fin by lra.
  destruct (roundField_fin V ((a + - cx) / k)) as (z1 & -> & H1).
  destruct (roundField_fin V ((cy + - b) / k)) as (z2 & -> & H2).
  cbn [nmul nadd nsub nneg Math.hypot].
  set (F := decimalFactor V) in *.
  set (e1 := (IZR z1 / F - (a + - cx) / k)%R) in *.
  set (e2 := (IZR z2 / F - (cy + - b) / k)%R) in *.
  assert (HF : (0 < F)%R) by (unfold F; destruct V; cbn; lra).
  replace (IZR z1 / F * k + cx + - a)%R with (k * e1)%R
    by (unfold e1; field; lra).
  replace (cy + - (IZR z2 / F * k) + - b)%R with (- (k * e2))%R
    by (unfold e2; field; lra).
  apply square_within in H1. apply square_within in H2.
  set (B := (/ (2 * F))%R) in *.
  assert (Hsum : (k * e1 * (k * e1) + - (k * e2) * - (k * e2)
                  <= 2 * (k * B * (k * B)))%R).
  { assert (k * k * (e1 * e1) <= k * k * (B * B))%R
      by (apply Rmult_le_compat_l; [apply Rmult_le_pos; lra | exact H1]).
    assert (k * k * (e2 * e2) <= k * k * (B * B))%R
      by (apply Rmult_le_compat_l; [apply Rmult_le_pos; lra | exact H2]).
    lra. }
  assert (HkB : (k * B <= 14)%R).
  { unfold B, F. destruct V; cbn [decimalFactor pixelsPerInch] in *.
    - rewrite ndiv_fin in Hppi by lra. injection Hppi as <-. lra.
    - unfold num_of_Z in Hppi. rewrite ndiv_fin in Hppi by lra.
      injection Hppi as <-.
      specialize (Hbound eq_refl). apply IZR_le in Hbound. lra. }
  assert (HkB0 : (0 <= k * B)%R).
  { apply Rmult_le_pos; [lra|]. unfold B. left. apply Rinv_0_lt_compat. lra. }
  assert (Hsq : (k * B * (k * B) <= 14 * 14)%R)
    by (apply Rmult_le_compat; lra).
  assert (Hradius : exists radius : R,
            POINT_RADIUS V = Fin radius /\ (30 <= radius)%R)
    by (destruct V; eexists; (split; [reflexivity | lra])).
  destruct Hradius as (radius & -> & Hrad).
  cbn [nltb]. apply Rltb_true.
  apply Rlt_le_trans with (r2 := 30%R); [|exact Hrad].
  replace 30%R with (sqrt (30 * 30)) by (apply sqrt_square; lra).
  apply sqrt_lt_1_alt. split; [apply sum_squares_nonneg | lra].
Qed.

(** X17: with an image of positive width loaded (at most 400000 pixels
    wide in the simple variant), a click repeated at the same finite pixel
    changes nothing more: the first click selects the waypoint under the
    pointer or places one there, which the second click then finds under the
    pointer and selects again.  The coordinates a click stores are already
    rounded, so the emitter, which rounds them again, prints them as they
    are stored. *)
Theorem repeated_click_changes_nothing (V : variant) (st : State) (img : Image)
  (a b : R) :
  image st = Some img -> (0 < width img)%Z ->
  (V = Simple -> (width img <= 400000)%Z) ->
  handleCanvasClick V (handleCanvasClick V st (Fin a) (Fin b)) (Fin a) (Fin b)
  = handleCanvasClick V st (Fin a) (Fin b) /\
  (forall p, In p (points (handleCanvasClick V st (Fin a) (Fin b))) ->
             ~ In p (points st) ->
             underPointer V (Fin a) (Fin b) p = true /\
             roundField V (Point.fieldX p) = Point.fieldX p /\
             roundField V (Point.fieldY p) = Point.fieldY p).
Proof.
  intros Himg Hw Hbound.
  pose proof (placed_under_pointer V img a b) as Hunder.
  cbv zeta in Hunder. specialize (fun p => Hunder p Hw Hbound).
  destruct (find (underPointer V (Fin a) (Fin b)) (points st)) as [c|] eqn:Hfind.
  - assert (Hclick : handleCanvasClick V st (Fin a) (Fin b)
                     = set_selectedId st (Some (Point.id c)))
      by (unfold handleCanvasClick; rewrite Hfind; reflexivity).
    rewrite Hclick. split.
    + unfold handleCanvasClick. cbn [points set_selectedId]. rewrite Hfind.
      reflexivity.
    + intros p Hin Hnot. exfalso. exact (Hnot Hin).
  - destruct (pixelToFieldCoords V (Some img) (Fin a) (Fin b))
      as [fieldX fieldY] eqn:Hfield.
    destruct (fieldToPixelCoords V (Some img) (roundField V fieldX)
                (roundField V fieldY)) as [px py] eqn:Hpixel.
    cbn [fst snd] in Hunder. rewrite Hpixel in Hunder. cbn [fst snd] in Hunder.
    set (newPoint := Point.make px py (roundField V fieldX) (roundField V fieldY)
                       (nextId st) (Fin 0) (Fin 1000) (Fin 70)
                       (match V with Extended => Some true | Simple => None end)).
    assert (Hnew : underPointer V (Fin a) (Fin b) newPoint = true)
      by (apply Hunder; reflexivity).
    assert (Hclick : handleCanvasClick V st (Fin a) (Fin b)
                     = set_selectedId
                         (set_nextId (set_points st (points st ++ [newPoint]))
                            (plusOne (nextId st)))
                         (Some (nextId st)))
      by (unfold handleCanvasClick; rewrite Hfind, Himg, Hfield, Hpixel;
          reflexivity).
    rewrite Hclick. split.
    + unfold handleCanvasClick.
      cbn [points set_selectedId set_nextId set_points].
      rewrite (find_after_none _ _ _ Hfind). cbn [find]. rewrite Hnew.
      reflexivity.
    + cbn [points set_selectedId set_nextId set_points]. intros p Hin Hnot.
      apply in_app_or in Hin. destruct Hin as [Hin | [<- | []]]; [contradiction|].
      split; [exact Hnew|]. cbn [newPoint Point.fieldX Point.fieldY].
      split; apply roundField_idempotent.
Qed.

Lemma repeated_click_changes_nothing_witness :
  handleCanvasClick Simple
    (handleCanvasClick Simple (editorWith straightRoute 2 None) (Fin 500) (Fin 700))
    (Fin 500) (Fin 700)
  = handleCanvasClick Simple (editorWith straightRoute 2 None) (Fin 500) (Fin 700) /\
  (forall p,
      In p (points (handleCanvasClick Simple (editorWith straightRoute 2 None)
                      (Fin 500) (Fin 700))) ->
      ~ In p (points (editorWith straightRoute 2 None)) ->
      underPointer Simple (Fin 500) (Fin 700) p = true /\
      roundField Simple (Point.fieldX p) = Point.fieldX p /\
      roundField Simple (Point.fieldY p) = Point.fieldY p).
Proof.
  apply (repeated_click_changes_nothing Simple (editorWith straightRoute 2 None)
           field2000 500 700).
  - reflexivity.
  - reflexivity.
  - intros _. cbn. lia.
Defined.

(** ** The robot and the emitted heading *)

Lemma segments_nth (ps : list Point) (pre : list (Point * Point))
  (s : Point * Point) (post : list (Point * Point)) :
  segments ps = pre ++ s :: post ->
  nth_error ps (length pre) = Some (fst s) /\
  nth_error ps (length pre + 1) = Some (snd s).
Proof.
  revert ps. induction pre as [|x pre IH]; intros ps H.
  - destruct ps as [|p [|q ps]]; try discriminate H.
    cbn [segments app] in H. injection H as <- _. split; reflexivity.
  - destruct ps as [|p [|q ps]]; try discriminate H.
    change (segments (p :: q :: ps)) with ((p, q) :: segments (q :: ps)) in H.
    cbn [app] in H. injection H as _ H.
    destruct (IH (q :: ps) H) as [Hf Hs]. split; assumption.
Qed.

Lemma firstn_prefix (A : Type) (a b : list A) : firstn (length a) (a ++ b) = a.
Proof.
  induction a as [|x a IH]; [reflexivity|].
  cbn [length app firstn]. rewrite IH. reflexivity.
Qed.

(** X18: the robot drawn on the path faces the way the emitted code says.
    For waypoints at finite screen positions on a path with a length and a
    progress [p] in (0, 1], the sampled pose lies on the leg from waypoint
    [i] to waypoint [i + 1] at the fraction [t] of it, where the legs before
    [i] and that fraction make up the share [p] of the path's length ([i] is
    the first such leg: the legs before it are shorter than that share).
    The rotation [rho] of the pose (radians, from the screen's x axis) is
    the direction of that leg, and the effective heading [d] of waypoint
    [i] (degrees, clockwise from up) is the same direction: [d] is
    [(rho + pi/2) * 180 / pi] brought into the range from 0 to 360. *)
Theorem robot_faces_emitted_heading (fuel : nat) (ps : list Point) (p : R) :
  (2 <= fuel)%nat -> allFinite ps -> totalLength ps <> Fin 0 ->
  (0 < p <= 1)%R ->
  exists (i : nat) (this next : Point) (t rho d : R),
    nth_error ps i = Some this /\ nth_error ps (i + 1) = Some next /\
    (0 <= t <= 1)%R /\
    (rpath (firstn i (legs ps)) + t * rlen (this, next) = rpath (legs ps) * p)%R /\
    (i = 0%nat \/ (rpath (firstn i (legs ps)) < rpath (legs ps) * p)%R) /\
    getRobotPositionAndRotation ps (Fin p)
    = Some (Pose.make (Fin (rx this + (rx next - rx this) * t))
              (Fin (ry this + (ry next - ry this) * t)) (Fin rho)) /\
    rho = Math.Ratan2 (ry next - ry this) (rx next - rx this) /\
    getEffectiveTheta fuel ps i = Ok (Fin d) /\
    (0 <= d < 360)%R /\
    (d = (rho + PI / 2) * 180 / PI \/ d = (rho + PI / 2) * 180 / PI + 360)%R.
Proof.
  intros Hf Hfin Hne Hp.
  pose proof (totalLength_positive ps Hfin Hne) as Htot.
  assert (Hlen : (2 <= length ps)%nat).
  { destruct ps as [|a [|b ps]]; cbn [length]; try lia; cbn in Htot; lra. }
  destruct (sample_fin ps p Hfin Hlen Htot) as
    (pre & s & post & t & Hsplit & Ht & _ & Hdist & Hfirst & Hget);
    [lra | left; lra |].
  destruct (segments_nth ps pre s post Hsplit) as [Hthis Hnext].
  assert (Hs : finiteSeg s).
  { pose proof (segments_finite ps Hfin) as Hall. rewrite Hsplit in Hall.
    apply Forall_app in Hall. destruct Hall as [_ Hall].
    inversion Hall; assumption. }
  destruct Hs as [Hfst Hsnd].
  destruct (getEffectiveTheta_inner fuel ps (length pre) (fst s) (snd s)
              (rx (fst s)) (ry (fst s)) (rx (snd s)) (ry (snd s)) Hf Hthis Hnext)
    as (d & Hd & Hrange & Hraw & _);
    try (apply finite_x; assumption); try (apply finite_y; assumption).
  cbv zeta in Hraw.
  rewrite (finite_x _ Hfst), (finite_y _ Hfst), (finite_x _ Hsnd),
    (finite_y _ Hsnd) in Hget.
  cbn [nsub nneg nadd] in Hget. rewrite atan2_fin in Hget.
  assert (Hpre : firstn (length pre) (legs ps) = pre).
  { rewrite <- segments_legs, Hsplit. apply firstn_prefix. }
  assert (Hs : (fst s, snd s) = s) by (destruct s; reflexivity).
  exists (length pre), (fst s), (snd s), t,
    (Math.Ratan2 (ry (snd s) - ry (fst s)) (rx (snd s) - rx (fst s))), d.
  rewrite Hpre, Hs, <- segments_legs.
  split; [exact Hthis|]. split; [exact Hnext|]. split; [exact Ht|].
  split; [exact Hdist|].
  split.
  { destruct Hfirst as [-> | Hlt]; [left; reflexivity | right; exact Hlt]. }
  split; [exact Hget|]. split; [reflexivity|].
  split; [exact Hd|]. split; [exact Hrange|]. exact Hraw.
Qed.

Lemma robot_faces_emitted_heading_witness :
  exists (i : nat) (this next : Point) (t rho d : R),
    nth_error straightRoute i = Some this /\
    nth_error straightRoute (i + 1) = Some next /\
    (0 <= t <= 1)%R /\
    (rpath (firstn i (legs straightRoute)) + t * rlen (this, next)
     = rpath (legs straightRoute) * / 2)%R /\
    (i = 0%nat \/
     (rpath (firstn i (legs straightRoute)) < rpath (legs straightRoute) * / 2)%R) /\
    getRobotPositionAndRotation straightRoute (Fin (/ 2))
    = Some (Pose.make (Fin (rx this + (rx next - rx this) * t))
              (Fin (ry this + (ry next - ry this) * t)) (Fin rho)) /\
    rho = Math.Ratan2 (ry next - ry this) (rx next - rx this) /\
    getEffectiveTheta 2 straightRoute i = Ok (Fin d) /\
    (0 <= d < 360)%R /\
    (d = (rho + PI / 2) * 180 / PI \/ d = (rho + PI / 2) * 180 / PI + 360)%R.
Proof.
  apply (robot_faces_emitted_heading 2 straightRoute (/ 2)).
  - lia.
  - repeat constructor.
  - unfold totalLength, straightRoute. cbn [segments fold_left].
    rewrite segmentLength_horizontal by lra. cbn [nadd].
    intros H. injection H as H. lra.
  - lra.
Defined.
